(** * Sliding puzzle engine of [SlidingPuzzle.js]

    A shallow embedding of the puzzle logic of the React component
    [SlidingPuzzleApp]: board generation, the solvability test, the
    move handlers and win detection.  JavaScript numbers that the
    component only uses as integers are [Z]; arrays of tiles are
    [list Z]; the React state variables form one record.  A handler
    is a closure of one render: it reads the state variables of that
    render and queues updates.  The handlers of the buttons and of the
    tiles are those of the latest render; for them a handler is a
    function from the state to the state after its updates.  The
    [keydown] listener is registered anew only when [tiles] or
    [running] change, so it can belong to an older render; the page,
    with the render of the registered listener kept beside the state,
    is modelled after the handlers. *)

From Stdlib Require Import ZArith Lia Bool Ascii DecimalString.
From stdpp Require Import prelude gmap strings sorting.

Open Scope Z_scope.

(** ** JavaScript arrays and numbers *)

(** [arr.length] *)
Definition len (arr : list Z) : Z := Z.of_nat (length arr).

(** [arr[i]]; [None] is [undefined]. *)
Definition arr_get (arr : list Z) (i : Z) : option Z :=
  if i <? 0 then None else arr !! Z.to_nat i.

(** [arr[i] = v] for an index inside the array.  (Outside the array
    JavaScript would extend it; the handlers below never write
    there when called with an index of a rendered tile, and the model
    leaves the list as it is.) *)
Definition arr_set (arr : list Z) (i : Z) (v : Z) : list Z :=
  if i <? 0 then arr else <[Z.to_nat i := v]> arr.

(** [[arr[i], arr[j]] = [arr[j], arr[i]]]: the right-hand side is read
    first, then both cells are written. *)
Definition swap (arr : list Z) (i j : Z) : list Z :=
  match arr_get arr j, arr_get arr i with
  | Some vj, Some vi => arr_set (arr_set arr i vj) j vi
  | _, _ => arr
  end.

(** [arr.indexOf(v)], [-1] when [v] does not occur. *)
Fixpoint indexOf_from (arr : list Z) (v : Z) (i : Z) : Z :=
  match arr with
  | [] => -1
  | x :: rest => if x =? v then i else indexOf_from rest v (i + 1)
  end.

Definition indexOf (arr : list Z) (v : Z) : Z := indexOf_from arr v 0.

(** [v === w] where [v] may be [undefined] and [w] is a number. *)
Definition strict_eq (v : option Z) (w : Z) : bool :=
  match v with
  | Some x => x =? w
  | None => false
  end.

(** [Math.floor(a / b)] on integers with a positive divisor is the
    floor division of [Z]; [a % b] is the truncated remainder. *)
Definition floor_div (a b : Z) : Z := a `div` b.
Definition js_mod (a b : Z) : Z := a `rem` b.

(** ** Helpers of the component *)

(** [makeSolved]: [Array.from({length: n*n}, (_, i) => (i+1) % (n*n))]. *)
Definition makeSolved (n : Z) : list Z :=
  (λ i, js_mod (i + 1) (n * n)) <$> seqZ 0 (n * n).

(** [isSolved]: the loop over [i = 0 .. arr.length - 2] with its early
    return, then the test of the last cell.  [k] counts the
    iterations that remain. *)
Fixpoint isSolved_loop (k : nat) (i : Z) (arr : list Z) : bool :=
  match k with
  | O => strict_eq (arr_get arr (len arr - 1)) 0
  | S k' =>
      if negb (strict_eq (arr_get arr i) (i + 1)) then false
      else isSolved_loop k' (i + 1) arr
  end.

Definition isSolved (arr : list Z) : bool :=
  isSolved_loop (Z.to_nat (len arr - 1)) 0 arr.

(** [inversionCount]: the inner loop over [j], the outer loop over [i],
    both reading [nums] by index. *)
Definition gt_at (nums : list Z) (i j : Z) : bool :=
  match arr_get nums i, arr_get nums j with
  | Some x, Some y => y <? x
  | _, _ => false
  end.

Fixpoint inversion_inner (k : nat) (nums : list Z) (i j : Z) (inv : Z) : Z :=
  match k with
  | O => inv
  | S k' =>
      inversion_inner k' nums i (j + 1)
        (if gt_at nums i j then inv + 1 else inv)
  end.

Fixpoint inversion_outer (k : nat) (nums : list Z) (i : Z) (inv : Z) : Z :=
  match k with
  | O => inv
  | S k' =>
      inversion_outer k' nums (i + 1)
        (inversion_inner (Z.to_nat (len nums - (i + 1))) nums i (i + 1) inv)
  end.

Definition inversionCount (arr : list Z) : Z :=
  let nums := filter (λ v, v ≠ 0) arr in
  inversion_outer (length nums) nums 0 0.

(** [isSolvable] *)
Definition isSolvable (arr : list Z) (n : Z) : bool :=
  let inv := inversionCount arr in
  if js_mod n 2 =? 1 then
    js_mod inv 2 =? 0
  else
    let blankIndex := indexOf arr 0 in
    let rowFromTop := floor_div blankIndex n + 1 in
    let rowFromBottom := n - rowFromTop + 1 in
    if js_mod rowFromBottom 2 =? 0 then js_mod inv 2 =? 1
    else js_mod inv 2 =? 0.

(** ** Random shuffling *)

(** A value of [Math.random()]: a fraction [rnum / rden] in [[0, 1)]. *)
Record rand : Type := Rand { rnum : Z; rden : Z }.

Definition rand_ok (x : rand) : Prop := 0 ≤ rnum x < rden x.

(** [Math.floor(Math.random() * (i + 1))] *)
Definition randomIndex (x : rand) (i : Z) : Z :=
  floor_div (rnum x * (i + 1)) (rden x).

(** The Fisher-Yates loop [for (i = arr.length - 1; i > 0; i--)]; [k]
    counts the iterations that remain and [p] the random numbers
    already drawn from the source [rng]. *)
Fixpoint shuffle_loop (k : nat) (rng : nat → rand) (p : nat) (i : Z)
    (arr : list Z) : list Z * nat :=
  match k with
  | O => (arr, p)
  | S k' =>
      let j := randomIndex (rng p) i in
      shuffle_loop k' rng (S p) (i - 1) (swap arr i j)
  end.

Definition fisherYates (rng : nat → rand) (p : nat) (arr : list Z)
    : list Z * nat :=
  shuffle_loop (Z.to_nat (len arr - 1)) rng p (len arr - 1) arr.

(** [shuffleToSolvable]: the [do ... while] loop, with [fuel] bounding
    the number of rounds; [None] when the fuel runs out before a round
    is accepted. *)
Fixpoint shuffleToSolvable_from (fuel : nat) (rng : nat → rand) (p : nat)
    (n : Z) : option (list Z) :=
  match fuel with
  | O => None
  | S fuel' =>
      let '(arr, p') := fisherYates rng p (makeSolved n) in
      if negb (isSolvable arr n) || isSolved arr
      then shuffleToSolvable_from fuel' rng p' n
      else Some arr
  end.

Definition shuffleToSolvable (fuel : nat) (rng : nat → rand) (n : Z)
    : option (list Z) :=
  shuffleToSolvable_from fuel rng 0 n.


(** ** The state of the component *)

(** The message shown after a win carries the two numbers it prints;
    [NoMessage] is the empty string. *)
Inductive message_t : Type :=
  | NoMessage
  | SolvedMessage (finalMoves seconds : Z).

(** The [useState] variables.  [highScores] is the object
    [{3: null, 4: null, 5: null}]: a key that is absent reads
    [undefined] ([None]), a key bound to [None] reads [null]. *)
Record state : Type := State {
  size : Z;
  tiles : list Z;
  moves : Z;
  time : Z;
  running : bool;
  message : message_t;
  highScores : gmap Z (option Z)
}.

Definition initialHighScores : gmap Z (option Z) :=
  <[3 := None]> (<[4 := None]> (<[5 := None]> ∅)).

Definition initialState : state :=
  State 4 [] 0 0 false NoMessage initialHighScores.

(** ** Positions *)

Record pos : Type := Pos { r : Z; c : Z }.

Definition indexToPos (sz idx : Z) : pos :=
  Pos (floor_div idx sz) (js_mod idx sz).

Definition posToIndex (sz row col : Z) : Z := row * sz + col.

Definition canSwap (sz i j : Z) : bool :=
  let a := indexToPos sz i in
  let b := indexToPos sz j in
  let dr := Z.abs (r a - r b) in
  let dc := Z.abs (c a - c b) in
  dr + dc =? 1.

(** ** Handlers *)

(** [highScores[size] === null || finalMoves < highScores[size]] *)
Definition betterScore (hs : gmap Z (option Z)) (sz finalMoves : Z) : bool :=
  match hs !! sz with
  | Some None => true
  | Some (Some best) => finalMoves <? best
  | None => false
  end.

(** [onWin], called from a handler of the render whose state is [s];
    [st] is the state of the component with the updates the handler
    has queued so far.  [moves], [time], [highScores] and [size] are
    read from [s]; [setRunning] and [setMessage] replace a variable of
    [st], [setHighScores] is a functional update of [st]. *)
Definition onWin (s st : state) : state :=
  let finalMoves := moves s + 1 in
  State (size st) (tiles st) (moves st) (time st)
    false
    (SolvedMessage finalMoves (time s))
    (if betterScore (highScores s) (size s) finalMoves
     then <[size s := Some finalMoves]> (highScores st)
     else highScores st).

(** [handleTileClick], [moveByDirection] and [onKey] of the latest
    render: [s] is the state they read and the state their updates
    act on.  That is every [handleTileClick] called from the [onClick]
    of a tile, and the registered [onKey] as long as it belongs to the
    latest render; the registered [onKey] in general follows below. *)
Definition handleTileClick (s : state) (i : Z) : state :=
  if negb (running s) then s
  else
    let blank := indexOf (tiles s) 0 in
    if canSwap (size s) i blank then
      let next := swap (tiles s) i blank in
      let st := State (size s) next (moves s + 1) (time s) (running s)
                  (message s) (highScores s) in
      if isSolved next then onWin s st else st
    else s.

Definition moveByDirection (s : state) (direction : string) : state :=
  let blank := indexOf (tiles s) 0 in
  let p := indexToPos (size s) blank in
  let targetR := r p in
  let targetC := c p in
  let targetR := if String.eqb direction "up" then r p - 1 else targetR in
  let targetR := if String.eqb direction "down" then r p + 1 else targetR in
  let targetC := if String.eqb direction "left" then c p - 1 else targetC in
  let targetC := if String.eqb direction "right" then c p + 1 else targetC in
  if (targetR <? 0) || (size s <=? targetR) || (targetC <? 0)
     || (size s <=? targetC)
  then s
  else handleTileClick s (posToIndex (size s) targetR targetC).

(** The object literal [keyMap] of [onKey]; [None] is the [undefined]
    that any other key name reads (no key name is a property that the
    literal inherits). *)
Definition keyMap (key : string) : option string :=
  if String.eqb key "ArrowUp" then Some "down"%string
  else if String.eqb key "ArrowDown" then Some "up"%string
  else if String.eqb key "ArrowLeft" then Some "right"%string
  else if String.eqb key "ArrowRight" then Some "left"%string
  else None.

Definition onKey (s : state) (key : string) : state :=
  if negb (running s) then s
  else
    match keyMap key with
    | Some direction => moveByDirection s direction
    | None => s
    end.

(** [resetBoard(n)], given the board [arr] that [shuffleToSolvable(n)]
    returned. *)
Definition resetBoard_with (arr : list Z) (s : state) : state :=
  State (size s) arr 0 0 false NoMessage (highScores s).

Definition resetBoard (fuel : nat) (rng : nat → rand) (n : Z) (s : state)
    : option state :=
  arr ← shuffleToSolvable fuel rng n; Some (resetBoard_with arr s).

Definition startGame (fuel : nat) (rng : nat → rand) (s : state)
    : option state :=
  if isSolved (tiles s) then
    arr ← shuffleToSolvable fuel rng (size s);
    Some (State (size s) arr 0 0 true NoMessage (highScores s))
  else Some (State (size s) (tiles s) 0 0 true NoMessage (highScores s)).

Definition restart (fuel : nat) (rng : nat → rand) (s : state)
    : option state :=
  st ← resetBoard fuel rng (size s) s;
  Some (State (size st) (tiles st) (moves st) (time st) true (message st)
          (highScores st)).

(** A level button: [setSize(n)], and, when the size changed, the
    effect [resetBoard(size)] that follows the render. *)
Definition selectSize (fuel : nat) (rng : nat → rand) (n : Z) (s : state)
    : option state :=
  if n =? size s then Some s
  else resetBoard fuel rng n
         (State n (tiles s) (moves s) (time s) (running s) (message s)
            (highScores s)).

(** One firing of the interval that exists while [running]. *)
Definition tick (s : state) : state :=
  if running s then
    State (size s) (tiles s) (moves s) (time s + 1) (running s) (message s)
      (highScores s)
  else s.

(** ** The registered [keydown] listener *)

(** The effect that registers [onKey] has the dependencies
    [[tiles, running]]: the registered [onKey], and the
    [moveByDirection], [handleTileClick] and [onWin] it calls, are
    those of the render at which [tiles] or [running] last changed.
    In the three functions below [s] is the state of the render the
    functions belong to and [cur] the state of the component when they
    run.  A state variable is read from [s]; [setTiles] replaces the
    board of [cur]; [setMoves(m => m + 1)] acts on the counter of
    [cur]; [onWin] reads [s] and updates [cur].  The result is [None]
    when the function returns without calling a setter. *)
Definition handleTileClick_of (s cur : state) (i : Z) : option state :=
  if negb (running s) then None
  else
    let blank := indexOf (tiles s) 0 in
    if canSwap (size s) i blank then
      let next := swap (tiles s) i blank in
      let st := State (size cur) next (moves cur + 1) (time cur)
                  (running cur) (message cur) (highScores cur) in
      Some (if isSolved next then onWin s st else st)
    else None.

Definition moveByDirection_of (s cur : state) (direction : string)
    : option state :=
  let blank := indexOf (tiles s) 0 in
  let p := indexToPos (size s) blank in
  let targetR := r p in
  let targetC := c p in
  let targetR := if String.eqb direction "up" then r p - 1 else targetR in
  let targetR := if String.eqb direction "down" then r p + 1 else targetR in
  let targetC := if String.eqb direction "left" then c p - 1 else targetC in
  let targetC := if String.eqb direction "right" then c p + 1 else targetC in
  if (targetR <? 0) || (size s <=? targetR) || (targetC <? 0)
     || (size s <=? targetC)
  then None
  else handleTileClick_of s cur (posToIndex (size s) targetR targetC).

Definition onKey_of (s cur : state) (key : string) : option state :=
  if negb (running s) then None
  else
    match keyMap key with
    | Some direction => moveByDirection_of s cur direction
    | None => None
    end.

(** ** The page *)

(** The component between two events: the state, and the state of the
    render whose [onKey] is registered. *)
Record page : Type := Page { current : state; listener : state }.

(** The two move inputs: a click on the tile at an index, and a key. *)
Inductive input : Type :=
  | Click (i : Z)
  | Key (key : string).

(** The render whose handler receives the input: the [onClick] of a
    tile is made at every render, the [keydown] listener is the
    registered one. *)
Definition closureOf (p : page) (inp : input) : state :=
  match inp with
  | Click _ => current p
  | Key _ => listener p
  end.

(** An input.  When the handler returns without an update nothing is
    rendered; otherwise [setTiles(next)] has put a new array in
    [tiles], and the render that follows registers its own [onKey]. *)
Definition handleInput (p : page) (inp : input) : page :=
  match
    match inp with
    | Click i => handleTileClick_of (current p) (current p) i
    | Key key => onKey_of (listener p) (current p) key
    end
  with
  | Some st => Page st st
  | None => p
  end.

(** The [START] button.  Its render registers a new [onKey] when
    [setTiles] ran, that is when the board was solved, or when
    [running] changed, that is when the game was stopped; a [START]
    during a running game on an unsolved board leaves the registered
    listener in place, with the counter and the time it closed over. *)
Definition pressStart (fuel : nat) (rng : nat → rand) (p : page)
    : option page :=
  st ← startGame fuel rng (current p);
  Some (if isSolved (tiles (current p)) || negb (running (current p))
        then Page st st
        else Page st (listener p)).

(** The [RESTART] button: [resetBoard] puts a new array in [tiles]. *)
Definition pressRestart (fuel : nat) (rng : nat → rand) (p : page)
    : option page :=
  st ← restart fuel rng (current p); Some (Page st st).

(** A level button: nothing is rendered for the level the page is at;
    for another level [resetBoard] puts a new array in [tiles]. *)
Definition pressLevel (fuel : nat) (rng : nat → rand) (n : Z) (p : page)
    : option page :=
  st ← selectSize fuel rng n (current p);
  Some (if n =? size (current p) then p else Page st st).

(** A firing of the interval: [setTime] changes neither [tiles] nor
    [running], the registered listener stays. *)
Definition timerTick (p : page) : page :=
  Page (tick (current p)) (listener p).

(** * Notions used in the statements and proofs *)

(** ** Boards and moves *)

(** A board of dimension [n]: the values [0 .. n*n - 1] in some order. *)
Definition wf_board (n : Z) (arr : list Z) : Prop :=
  arr ≡ₚ seqZ 0 (n * n).

#[global] Instance wf_board_dec (n : Z) (arr : list Z) :
  Decision (wf_board n arr).
Proof. unfold wf_board. apply _. Defined.

(** The distance the specification speaks of: position [(i div n, i mod n)]
    against [(j div n, j mod n)]. *)
Definition manhattan (n i j : Z) : Z :=
  Z.abs (i `div` n - j `div` n) + Z.abs (i `mod` n - j `mod` n).

(** The guard under which [handleTileClick] changes the state. *)
Definition clickAccepted (s : state) (i : Z) : bool :=
  running s && canSwap (size s) i (indexOf (tiles s) 0).

(** ** Inversions *)

(** The number of elements of [l] below [x], and the inversions of a
    list counted element by element: the recursive reading of the two
    loops of [inversionCount]. *)
Definition below (x : Z) (l : list Z) : Z := len (filter (λ y, y < x) l).

Fixpoint inversions (l : list Z) : Z :=
  match l with
  | [] => 0
  | x :: rest => below x rest + inversions rest
  end.

(** The specification's count: the pairs of positions [(i, j)] with
    [i < j] whose value at [i] exceeds the value at [j]. *)
Definition is_inversion (nums : list Z) (ij : nat * nat) : bool :=
  bool_decide (ij.1 < ij.2)%nat
  && match nums !! ij.1, nums !! ij.2 with
     | Some x, Some y => bool_decide (y < x)
     | _, _ => false
     end.

Definition position_pairs (m : nat) : list (nat * nat) :=
  i ← seq 0 m; j ← seq 0 m; [(i, j)].

Definition inversions_spec (nums : list Z) : Z :=
  Z.of_nat (length (filter (λ ij, is_inversion nums ij = true)
                      (position_pairs (length nums)))).

(** The number of elements that pass a boolean test. *)
Definition countb {A} (f : A → bool) (l : list A) : nat :=
  length (filter (λ x, f x = true) l).

(** ** Legal moves *)

(** A legal move exchanges the blank with an orthogonally adjacent cell
    of the grid: what [handleTileClick] does to the board when it
    accepts the click on a rendered tile. *)
Definition legal_move (n : Z) (arr arr' : list Z) : Prop :=
  ∃ i, 0 ≤ i < len arr
       ∧ canSwap n i (indexOf arr 0) = true
       ∧ arr' = swap arr i (indexOf arr 0).

(** A board is solvable by moves when some finite sequence of legal
    moves leads from it to the solved board. *)
Definition solvable_by_moves (n : Z) (arr : list Z) : Prop :=
  rtc (legal_move n) arr (makeSolved n).

(** The same moves as list surgery: the blank trades places with its
    right or left neighbour inside a row, or with the cell [n] places
    further or earlier. *)
Inductive slide (n : Z) : list Z → list Z → Prop :=
  | slide_right pre t post :
      len pre `mod` n ≠ n - 1 →
      slide n (pre ++ 0 :: t :: post) (pre ++ t :: 0 :: post)
  | slide_left pre t post :
      len pre `mod` n ≠ n - 1 →
      slide n (pre ++ t :: 0 :: post) (pre ++ 0 :: t :: post)
  | slide_down pre mid t post :
      len mid = n - 1 →
      slide n (pre ++ 0 :: mid ++ t :: post) (pre ++ t :: mid ++ 0 :: post)
  | slide_up pre mid t post :
      len mid = n - 1 →
      slide n (pre ++ t :: mid ++ 0 :: post) (pre ++ 0 :: mid ++ t :: post).

(** Pairs [(x, y)] with [x] in [l], [y] in [k] and [y < x]. *)
Definition cross (l k : list Z) : Z := foldr (λ x acc, below x k + acc) 0 l.

(** The test of [isSolvable] in closed form: for odd [n] the
    inversions are even; for even [n] the row of the blank plus the
    inversions is odd. *)
Definition parity_ok (n : Z) (arr : list Z) : bool :=
  let inv := inversions (filter (λ v, v ≠ 0) arr) in
  if Z.odd n then Z.even inv
  else Z.odd (indexOf arr 0 `div` n + inv).

(** ** Generation *)

(** Every number the source yields is a value of [Math.random()]. *)
Definition rng_ok (rng : nat → rand) : Prop := ∀ k, rand_ok (rng k).

(** The board that the round of [shuffleToSolvable] with number [k]
    builds (each round draws [n * n - 1] random numbers), and the test
    that ends the loop. *)
Definition round_board (rng : nat → rand) (n : Z) (k : nat) : list Z :=
  (fisherYates rng (k * Z.to_nat (n * n - 1)) (makeSolved n)).1.

Definition round_accepted (rng : nat → rand) (n : Z) (k : nat) : bool :=
  negb (negb (isSolvable (round_board rng n k) n)
        || isSolved (round_board rng n k)).

(** Draws that make the first round succeed: the first draw exchanges
    the last two cells, every later draw leaves its cell in place. *)
Definition lucky_rng (n : Z) (k : nat) : rand :=
  match k with
  | O => Rand (n * n - 2) (n * n)
  | S _ => Rand (n * n - 1) (n * n)
  end.

(** The source [rng] for the first [k0] rounds, continued by the draws
    of [lucky_rng]. *)
Definition resume_rng (rng : nat → rand) (n : Z) (k0 : nat) (p : nat)
    : rand :=
  if (p <? k0 * Z.to_nat (n * n - 1))%nat then rng p
  else lucky_rng n (p - k0 * Z.to_nat (n * n - 1)).

(** ** The engine as a transition system *)

(** The inputs the rendered page can deliver: a click carries the
    index of one of the tiles of the board. *)
Definition rendered (s : state) (inp : input) : Prop :=
  match inp with
  | Click i => 0 ≤ i < len (tiles s)
  | Key _ => True
  end.

(** The registered listener agrees with the state in the variables
    whose change makes the page register a new one, [tiles] and
    [running], and in [size] and [highScores], which never change
    without them. *)
Definition listenerSynced (p : page) : Prop :=
  tiles (listener p) = tiles (current p)
  ∧ running (listener p) = running (current p)
  ∧ size (listener p) = size (current p)
  ∧ highScores (listener p) = highScores (current p).

#[global] Instance listenerSynced_dec (p : page) :
  Decision (listenerSynced p).
Proof. unfold listenerSynced. apply _. Defined.

(** Boards reachable for dimension [n]: those [shuffleToSolvable(n)]
    returns, and those a click or a key leaves behind on a reachable
    board, whatever the rest of the state is and whatever counter and
    time the registered listener closed over. *)
Inductive board_reachable (n : Z) : list Z → Prop :=
  | reach_generate fuel rng arr :
      rng_ok rng → shuffleToSolvable fuel rng n = Some arr →
      board_reachable n arr
  | reach_input p inp :
      size (current p) = n → listenerSynced p →
      board_reachable n (tiles (current p)) → rendered (current p) inp →
      board_reachable n (tiles (current (handleInput p inp))).

(** Pages of the mounted component; [engine k p] also counts in [k]
    the moves that changed the board since the counters were last
    reset.  After the mount the effects have run [resetBoard(4)] and
    registered the listener of the render that shows its board. *)
Inductive engine : Z → page → Prop :=
  | engine_mount fuel rng s :
      rng_ok rng → resetBoard fuel rng 4 initialState = Some s →
      engine 0 (Page s s)
  | engine_input k p inp :
      engine k p → rendered (current p) inp →
      engine (if decide (tiles (current (handleInput p inp))
                         = tiles (current p))
              then k else k + 1)
        (handleInput p inp)
  | engine_start k p fuel rng p' :
      engine k p → rng_ok rng → pressStart fuel rng p = Some p' →
      engine 0 p'
  | engine_restart k p fuel rng p' :
      engine k p → rng_ok rng → pressRestart fuel rng p = Some p' →
      engine 0 p'
  | engine_select k p n fuel rng p' :
      engine k p → rng_ok rng → n ∈ [3; 4; 5] →
      pressLevel fuel rng n p = Some p' →
      engine (if n =? size (current p) then k else 0) p'
  | engine_tick k p :
      engine k p → engine k (timerTick p).

(** The state an accepted click leaves, and the state that the
    accepted move of a handler of the render [s] leaves of [cur]. *)
Definition acceptedState (s : state) (i : Z) : state :=
  let next := swap (tiles s) i (indexOf (tiles s) 0) in
  let st := State (size s) next (moves s + 1) (time s) (running s)
              (message s) (highScores s) in
  if isSolved next then onWin s st else st.

Definition acceptedBy (s cur : state) (i : Z) : state :=
  let next := swap (tiles s) i (indexOf (tiles s) 0) in
  let st := State (size cur) next (moves cur + 1) (time cur) (running cur)
              (message cur) (highScores cur) in
  if isSolved next then onWin s st else st.

(** ** The boustrophedon path *)

(** The path through the grid that runs along the first row from left
    to right, back along the second from right to left, and so on:
    [sn n p] is the index of the cell at place [p] of the path (and,
    the map being its own inverse, the place of the cell at index
    [p]). *)
Definition sn (n p : Z) : Z :=
  let row := p `div` n in
  let j := p `mod` n in
  if Z.even row then p else row * n + (n - 1 - j).

(** The board read along the path; applied to a list along the path it
    gives the board back. *)
Definition snake (n : Z) (s : list Z) : list Z :=
  (λ i, default 0 (arr_get s (sn n i))) <$> seqZ 0 (len s).

(** On the list of cells along the path, the blank steps to the next
    or previous place, or hops between the two cells of a column in
    consecutive rows, passing the [2 * (n - 1 - j)] cells that the path
    visits in between. *)
Inductive sstep (n : Z) : list Z → list Z → Prop :=
  | sstep_next a t b :
      sstep n (a ++ 0 :: t :: b) (a ++ t :: 0 :: b)
  | sstep_prev a t b :
      sstep n (a ++ t :: 0 :: b) (a ++ 0 :: t :: b)
  | sstep_hop a mid t b row j :
      len a = row * n + j → 0 ≤ row → 0 ≤ j < n →
      len mid = 2 * (n - 1 - j) →
      sstep n (a ++ 0 :: mid ++ t :: b) (a ++ t :: mid ++ 0 :: b)
  | sstep_hop_back a mid t b row j :
      len a = row * n + j → 0 ≤ row → 0 ≤ j < n →
      len mid = 2 * (n - 1 - j) →
      sstep n (a ++ t :: mid ++ 0 :: b) (a ++ 0 :: mid ++ t :: b).

(** Sequences of such steps. *)
Definition sreach (n : Z) : list Z → list Z → Prop := rtc (sstep n).

(** Two orders of the tiles along the path, the blank parked at the
    end of the path, that moves turn into each other. *)
Definition rearr (n : Z) (ts ts' : list Z) : Prop :=
  sreach n (ts ++ [0]) (ts' ++ [0]).

(** Exchanging the names of two tiles. *)
Definition exch (x y v : Z) : Z :=
  if v =? x then y else if v =? y then x else v.

(** ** Notions for the further properties *)

(** The change of row and column that [moveByDirection] applies to the
    position of the blank; a string that is none of the four
    directions changes nothing. *)
Definition directionDelta (direction : string) : Z * Z :=
  if String.eqb direction "up" then (-1, 0)
  else if String.eqb direction "down" then (1, 0)
  else if String.eqb direction "left" then (0, -1)
  else if String.eqb direction "right" then (0, 1)
  else (0, 0).

(** The cell inside the grid. *)
Definition inGrid (sz row col : Z) : bool :=
  (0 <=? row) && (row <? sz) && (0 <=? col) && (col <? sz).

(** What the page shows as high score,
    [highScores[size] ? highScores[size] : '---']: [None] is the
    dashes, shown when the entry is [undefined], [null] or 0. *)
Definition highScoreShown (s : state) : option Z :=
  match highScores s !! size s with
  | Some (Some v) => if v =? 0 then None else Some v
  | _ => None
  end.

(** ** The clock *)

(** [v.toString()] for an integer [v], and [str.padStart(2, "0")]. *)
Definition toString (v : Z) : string := NilZero.string_of_int (Z.to_int v).

Definition padStart2 (str : string) : string :=
  match String.length str with
  | O => "00"%string
  | S O => String.append "0" str
  | _ => str
  end.

(** [fmtTime] *)
Definition fmtTime (s : Z) : string :=
  let mm := padStart2 (toString (floor_div s 60)) in
  let ss := padStart2 (toString (js_mod s 60)) in
  String.append mm (String.append ":" ss).

(** The character of a decimal digit and the digit of a character;
    the text [mm:ss] written digit by digit; and the seconds that a
    text of that shape stands for. *)
Definition digitChar (d : Z) : ascii := ascii_of_nat (48 + Z.to_nat d).

Definition digitValue (ch : ascii) : Z := Z.of_nat (nat_of_ascii ch) - 48.

Definition clockText (s : Z) : string :=
  String (digitChar (s `div` 600))
    (String (digitChar ((s `div` 60) `mod` 10))
       (String ":"
          (String (digitChar ((s `mod` 60) `div` 10))
             (String (digitChar (s `mod` 10)) EmptyString)))).

Definition readTime (str : string) : option Z :=
  match str with
  | String m1 (String m2 (String _ (String s1 (String s2 EmptyString)))) =>
      Some ((digitValue m1 * 10 + digitValue m2) * 60
            + digitValue s1 * 10 + digitValue s2)
  | _ => None
  end.

(** * Properties *)

(** ** Arrays *)

Lemma arr_get_nat (arr : list Z) (k : nat) :
  arr_get arr (Z.of_nat k) = arr !! k.
Proof.
  unfold arr_get. destruct (Z.ltb_spec (Z.of_nat k) 0); [lia|].
  by rewrite Nat2Z.id.
Qed.

Lemma arr_get_Some (arr : list Z) (i v : Z) :
  arr_get arr i = Some v → 0 ≤ i < len arr.
Proof.
  unfold arr_get, len. destruct (Z.ltb_spec i 0); [done|].
  intros Hl. apply lookup_lt_Some in Hl. lia.
Qed.

Lemma arr_get_is_Some (arr : list Z) (i : Z) :
  0 ≤ i < len arr → is_Some (arr_get arr i).
Proof.
  unfold arr_get, len. intros Hi. destruct (Z.ltb_spec i 0); [lia|].
  apply lookup_lt_is_Some. lia.
Qed.

Lemma arr_get_None (arr : list Z) (i : Z) :
  ¬ (0 ≤ i < len arr) → arr_get arr i = None.
Proof.
  intros Hi. destruct (arr_get arr i) eqn:E; [|done].
  apply arr_get_Some in E. lia.
Qed.

Lemma arr_eq (a b : list Z) :
  (∀ i, arr_get a i = arr_get b i) → a = b.
Proof.
  intros H. apply list_eq. intros k. rewrite <- !arr_get_nat. apply H.
Qed.

Lemma len_nonneg (arr : list Z) : 0 ≤ len arr.
Proof. unfold len. lia. Qed.

Lemma len_app (a b : list Z) : len (a ++ b) = len a + len b.
Proof. unfold len. rewrite length_app. lia. Qed.

Lemma len_cons (x : Z) (a : list Z) : len (x :: a) = len a + 1.
Proof. unfold len. simpl. lia. Qed.

Lemma arr_get_app_l (a b : list Z) (i : Z) :
  i < len a → arr_get (a ++ b) i = arr_get a i.
Proof.
  unfold arr_get, len. intros Hi. destruct (Z.ltb_spec i 0); [done|].
  apply lookup_app_l. lia.
Qed.

Lemma arr_get_app_r (a b : list Z) (i : Z) :
  len a ≤ i → arr_get (a ++ b) i = arr_get b (i - len a).
Proof.
  unfold arr_get, len. intros Hi.
  destruct (Z.ltb_spec i 0); [lia|].
  destruct (Z.ltb_spec (i - Z.of_nat (length a)) 0); [lia|].
  rewrite lookup_app_r by lia. f_equal. lia.
Qed.

Lemma arr_get_cons_0 (x : Z) (a : list Z) : arr_get (x :: a) 0 = Some x.
Proof. done. Qed.

Lemma arr_get_cons_S (x : Z) (a : list Z) (i : Z) :
  0 < i → arr_get (x :: a) i = arr_get a (i - 1).
Proof.
  intros Hi. change (x :: a) with ([x] ++ a).
  rewrite arr_get_app_r; [done | unfold len; simpl; lia].
Qed.

Lemma len_arr_set (arr : list Z) (i v : Z) : len (arr_set arr i v) = len arr.
Proof.
  unfold arr_set, len. destruct (i <? 0); [done|]. by rewrite length_insert.
Qed.

Lemma arr_get_set (arr : list Z) (i v k : Z) :
  0 ≤ i < len arr →
  arr_get (arr_set arr i v) k = if k =? i then Some v else arr_get arr k.
Proof.
  unfold arr_get, arr_set, len. intros Hi.
  destruct (Z.ltb_spec i 0); [lia|].
  destruct (Z.eqb_spec k i) as [->|Hne].
  - destruct (Z.ltb_spec i 0); [lia|].
    apply list_lookup_insert_eq. lia.
  - destruct (Z.ltb_spec k 0); [done|].
    apply list_lookup_insert_ne. lia.
Qed.

Lemma len_swap (arr : list Z) (i j : Z) : len (swap arr i j) = len arr.
Proof.
  unfold swap. destruct (arr_get arr j), (arr_get arr i); try done.
  by rewrite !len_arr_set.
Qed.

(** Inside the array [swap] exchanges the two cells and leaves every
    other cell alone. *)
Lemma arr_get_swap (arr : list Z) (i j k : Z) :
  0 ≤ i < len arr → 0 ≤ j < len arr →
  arr_get (swap arr i j) k =
    if k =? j then arr_get arr i
    else if k =? i then arr_get arr j
    else arr_get arr k.
Proof.
  intros Hi Hj. unfold swap.
  destruct (arr_get_is_Some arr i Hi) as [vi Ei].
  destruct (arr_get_is_Some arr j Hj) as [vj Ej].
  rewrite Ei, Ej.
  rewrite arr_get_set by (rewrite len_arr_set; lia).
  destruct (k =? j); [done|].
  by rewrite arr_get_set by lia.
Qed.

(** Case analysis on every integer comparison the goal branches on. *)
Ltac zcases :=
  repeat match goal with
    | |- context [Z.eqb ?a ?b] => destruct (Z.eqb_spec a b)
    | |- context [Z.ltb ?a ?b] => destruct (Z.ltb_spec a b)
    | |- context [Z.leb ?a ?b] => destruct (Z.leb_spec a b)
    end;
  subst; try done; try lia.

Lemma swap_out_of_range (arr : list Z) (i j : Z) :
  ¬ (0 ≤ i < len arr ∧ 0 ≤ j < len arr) → swap arr i j = arr.
Proof.
  intros Hn. unfold swap.
  destruct (arr_get arr j) eqn:Ej; [|done].
  destruct (arr_get arr i) eqn:Ei; [|done].
  apply arr_get_Some in Ei, Ej. lia.
Qed.

Lemma swap_same (arr : list Z) (i : Z) : swap arr i i = arr.
Proof.
  destruct (decide (0 ≤ i < len arr)) as [Hi|Hi].
  - apply arr_eq. intros k. rewrite arr_get_swap by done. zcases.
  - apply swap_out_of_range. lia.
Qed.

Lemma swap_comm (arr : list Z) (i j : Z) : swap arr i j = swap arr j i.
Proof.
  destruct (decide (0 ≤ i < len arr ∧ 0 ≤ j < len arr)) as [[Hi Hj]|Hn].
  - apply arr_eq. intros k. rewrite !arr_get_swap by done. zcases.
  - rewrite !swap_out_of_range by lia. done.
Qed.

Lemma swap_swap (arr : list Z) (i j : Z) : swap (swap arr i j) i j = arr.
Proof.
  destruct (decide (0 ≤ i < len arr ∧ 0 ≤ j < len arr)) as [[Hi Hj]|Hn].
  - apply arr_eq. intros k.
    rewrite arr_get_swap by (rewrite len_swap; lia).
    rewrite !arr_get_swap by done. zcases.
  - rewrite (swap_out_of_range arr) by lia. apply swap_out_of_range. lia.
Qed.

(** ** [indexOf] *)

Lemma indexOf_from_notin (arr : list Z) (v i : Z) :
  v ∉ arr → indexOf_from arr v i = -1.
Proof.
  revert i. induction arr as [|x rest IH]; intros i Hv; simpl; [done|].
  apply not_elem_of_cons in Hv as [Hx Hrest].
  destruct (Z.eqb_spec x v); [congruence|]. by apply IH.
Qed.

Lemma indexOf_from_app (pre post : list Z) (v i : Z) :
  v ∉ pre → indexOf_from (pre ++ v :: post) v i = i + len pre.
Proof.
  revert i. induction pre as [|x rest IH]; intros i Hv; simpl.
  - rewrite Z.eqb_refl. unfold len. simpl. lia.
  - apply not_elem_of_cons in Hv as [Hx Hrest].
    destruct (Z.eqb_spec x v); [congruence|].
    rewrite IH by done. rewrite len_cons. lia.
Qed.

Lemma indexOf_app (pre post : list Z) (v : Z) :
  v ∉ pre → indexOf (pre ++ v :: post) v = len pre.
Proof. intros Hv. unfold indexOf. rewrite indexOf_from_app by done. lia. Qed.

Lemma indexOf_notin (arr : list Z) (v : Z) : v ∉ arr → indexOf arr v = -1.
Proof. apply indexOf_from_notin. Qed.

Lemma arr_get_middle (pre post : list Z) (v : Z) :
  arr_get (pre ++ v :: post) (len pre) = Some v.
Proof.
  rewrite arr_get_app_r by lia. by rewrite Z.sub_diag.
Qed.

(** When [v] occurs, [indexOf] is an index of the array holding [v]. *)
Lemma indexOf_elem (arr : list Z) (v : Z) :
  v ∈ arr →
  0 ≤ indexOf arr v < len arr ∧ arr_get arr (indexOf arr v) = Some v.
Proof.
  intros Hv. apply list_elem_of_split_l in Hv as (pre & post & -> & Hpre).
  rewrite indexOf_app by done. split.
  - rewrite len_app, len_cons. pose proof (len_nonneg pre).
    pose proof (len_nonneg post). lia.
  - apply arr_get_middle.
Qed.

Lemma arr_get_elem (arr : list Z) (i v : Z) :
  arr_get arr i = Some v → v ∈ arr.
Proof.
  unfold arr_get. destruct (i <? 0); [done|]. apply list_elem_of_lookup_2.
Qed.

(** In a list without repetition the index of a value is unique. *)
Lemma indexOf_unique (arr : list Z) (i v : Z) :
  NoDup arr → arr_get arr i = Some v → indexOf arr v = i.
Proof.
  intros Hnd Hi.
  destruct (indexOf_elem arr v (arr_get_elem _ _ _ Hi)) as [Hr Hg].
  pose proof (arr_get_Some _ _ _ Hi) as Hir.
  unfold arr_get in Hi, Hg.
  destruct (Z.ltb_spec i 0); [lia|].
  destruct (Z.ltb_spec (indexOf arr v) 0); [lia|].
  pose proof (NoDup_lookup _ _ _ _ Hnd Hi Hg). lia.
Qed.

Lemma swap_Permutation (arr : list Z) (i j : Z) : swap arr i j ≡ₚ arr.
Proof.
  unfold swap.
  destruct (arr_get arr j) as [vj|] eqn:Ej; [|done].
  destruct (arr_get arr i) as [vi|] eqn:Ei; [|done].
  pose proof (arr_get_Some _ _ _ Ei). pose proof (arr_get_Some _ _ _ Ej).
  unfold arr_get, arr_set in *.
  destruct (Z.ltb_spec i 0); [lia|]. destruct (Z.ltb_spec j 0); [lia|].
  by apply Permutation_insert_swap.
Qed.

(** ** Boards *)

Lemma wf_board_len (n : Z) (arr : list Z) :
  wf_board n arr → len arr = Z.max 0 (n * n).
Proof.
  unfold wf_board, len. intros ->. rewrite length_seqZ. lia.
Qed.

Lemma wf_board_NoDup (n : Z) (arr : list Z) : wf_board n arr → NoDup arr.
Proof. unfold wf_board. intros ->. apply NoDup_seqZ. Qed.

Lemma wf_board_elem (n : Z) (arr : list Z) (v : Z) :
  wf_board n arr → v ∈ arr ↔ 0 ≤ v < n * n.
Proof.
  unfold wf_board. intros ->. rewrite elem_of_seqZ. lia.
Qed.

Lemma wf_board_swap (n : Z) (arr : list Z) (i j : Z) :
  wf_board n arr → wf_board n (swap arr i j).
Proof. unfold wf_board. by rewrite swap_Permutation. Qed.

(** The blank of a board is at a valid index. *)
Lemma wf_board_blank (n : Z) (arr : list Z) :
  n ≠ 0 → wf_board n arr →
  0 ≤ indexOf arr 0 < n * n ∧ arr_get arr (indexOf arr 0) = Some 0.
Proof.
  intros Hn Hwf.
  assert (0 ∈ arr) as H0 by (apply (wf_board_elem n); [done | nia]).
  destruct (indexOf_elem arr 0 H0) as [Hr Hg].
  rewrite (wf_board_len n) in Hr by done. split; [lia | done].
Qed.

(** ** [makeSolved] and [isSolved] *)

Lemma len_makeSolved (n : Z) : len (makeSolved n) = Z.max 0 (n * n).
Proof.
  unfold makeSolved, len. rewrite length_fmap, length_seqZ. lia.
Qed.

Lemma arr_get_makeSolved (n i : Z) :
  0 ≤ i < n * n →
  arr_get (makeSolved n) i = Some (if i =? n * n - 1 then 0 else i + 1).
Proof.
  intros Hi. unfold arr_get, makeSolved.
  destruct (Z.ltb_spec i 0); [lia|].
  rewrite list_lookup_fmap, lookup_seqZ_lt by lia. simpl. f_equal.
  unfold js_mod. destruct (Z.eqb_spec i (n * n - 1)) as [->|Hne].
  - replace (n * n - 1 + 1) with (n * n) by lia.
    rewrite Z2Nat.id by lia. replace (0 + (n * n - 1) + 1) with (n * n) by lia.
    apply Z.rem_same. lia.
  - rewrite Z2Nat.id by lia. apply Z.rem_small. lia.
Qed.

Lemma isSolved_loop_true (k : nat) (i : Z) (arr : list Z) :
  isSolved_loop k i arr = true ↔
    (∀ j, i ≤ j < i + Z.of_nat k → arr_get arr j = Some (j + 1))
    ∧ arr_get arr (len arr - 1) = Some 0.
Proof.
  revert i. induction k as [|k IH]; intros i; simpl isSolved_loop.
  - unfold strict_eq. split.
    + intros H. split; [intros j Hj; lia|].
      destruct (arr_get arr (len arr - 1)) as [x|]; [|done].
      apply Z.eqb_eq in H. by subst.
    + intros [_ ->]. done.
  - destruct (strict_eq (arr_get arr i) (i + 1)) eqn:E; simpl.
    + rewrite IH. unfold strict_eq in E.
      destruct (arr_get arr i) as [x|] eqn:Ex; [|done].
      apply Z.eqb_eq in E. subst x. split.
      * intros [H1 H2]. split; [|done]. intros j Hj.
        destruct (decide (j = i)) as [->|]; [done|]. apply H1. lia.
      * intros [H1 H2]. split; [|done]. intros j Hj. apply H1. lia.
    + split; [done|]. intros [H1 _].
      rewrite (H1 i) in E by lia. unfold strict_eq in E.
      by rewrite Z.eqb_refl in E.
Qed.

(** [isSolved] holds exactly when each cell but the last holds its
    index plus one and the last cell holds the blank. *)
Lemma isSolved_true (arr : list Z) :
  isSolved arr = true ↔
    (∀ i, 0 ≤ i < len arr - 1 → arr_get arr i = Some (i + 1))
    ∧ arr_get arr (len arr - 1) = Some 0.
Proof.
  unfold isSolved. rewrite isSolved_loop_true.
  split; intros [H1 H2]; (split; [|done]); intros j Hj; apply H1; lia.
Qed.

Lemma isSolved_makeSolved (n : Z) : n ≠ 0 → isSolved (makeSolved n) = true.
Proof.
  intros Hn. apply isSolved_true. rewrite len_makeSolved.
  assert (0 < n * n) by nia. split.
  - intros i Hi. rewrite arr_get_makeSolved by lia. zcases.
  - rewrite arr_get_makeSolved by lia. zcases.
Qed.

Lemma isSolved_eq_makeSolved (n : Z) (arr : list Z) :
  len arr = n * n → isSolved arr = true → arr = makeSolved n.
Proof.
  intros Hlen [H1 H2]%isSolved_true. apply arr_eq. intros i.
  destruct (decide (0 ≤ i < n * n)) as [Hi|Hi].
  - rewrite arr_get_makeSolved by done.
    destruct (Z.eqb_spec i (n * n - 1)) as [->|Hne].
    + by rewrite <- Hlen.
    + apply H1. lia.
  - rewrite !arr_get_None; [done | rewrite len_makeSolved; lia | lia].
Qed.

(** C5.  For a board array of dimension [n] (so of length [n * n],
    with [n] positive), [isSolved] returns true if and only if the
    value at every index but the last is that index plus one and the
    value at the last index is 0, and if and only if the board is the
    canonical solved sequence [makeSolved n] of its dimension. *)
Theorem isSolved_spec (n : Z) (arr : list Z) :
  1 ≤ n → len arr = n * n →
  (isSolved arr = true ↔
     (∀ i, 0 ≤ i < len arr - 1 → arr_get arr i = Some (i + 1))
     ∧ arr_get arr (len arr - 1) = Some 0)
  ∧ (isSolved arr = true ↔ arr = makeSolved n).
Proof.
  intros Hn Hlen. split; [apply isSolved_true|]. split.
  - by apply isSolved_eq_makeSolved.
  - intros ->. apply isSolved_makeSolved. lia.
Qed.

Lemma isSolved_spec_witness :
  (isSolved [1; 2; 3; 4; 5; 6; 7; 8; 0] = true ↔
     (∀ i, 0 ≤ i < len [1; 2; 3; 4; 5; 6; 7; 8; 0] - 1 →
           arr_get [1; 2; 3; 4; 5; 6; 7; 8; 0] i = Some (i + 1))
     ∧ arr_get [1; 2; 3; 4; 5; 6; 7; 8; 0]
         (len [1; 2; 3; 4; 5; 6; 7; 8; 0] - 1) = Some 0)
  ∧ (isSolved [1; 2; 3; 4; 5; 6; 7; 8; 0] = true ↔
     [1; 2; 3; 4; 5; 6; 7; 8; 0] = makeSolved 3).
Proof. apply (isSolved_spec 3); [lia | reflexivity]. Defined.

(** ** Moves *)

Lemma js_mod_nonneg (a b : Z) : 0 ≤ a → 0 < b → js_mod a b = a `mod` b.
Proof. intros Ha Hb. unfold js_mod. apply Z.rem_mod_nonneg; lia. Qed.

Lemma canSwap_manhattan (n i j : Z) :
  0 < n → 0 ≤ i → 0 ≤ j →
  canSwap n i j = true ↔ manhattan n i j = 1.
Proof.
  intros Hn Hi Hj. unfold canSwap, manhattan, indexToPos, floor_div. simpl.
  rewrite !js_mod_nonneg by lia. apply Z.eqb_eq.
Qed.

(** The blank of a board is at the only index that holds 0. *)
Lemma blank_index (n : Z) (arr : list Z) (b : Z) :
  1 ≤ n → wf_board n arr → arr_get arr b = Some 0 → indexOf arr 0 = b.
Proof.
  intros Hn Hwf Hb.
  destruct (wf_board_blank n arr) as [Hi Hgi]; [lia | done |].
  apply indexOf_unique; [by eapply wf_board_NoDup | done].
Qed.

(** C3.  While the game is running, for a board of dimension [size]
    whose blank, the cell holding 0, is at index [b], and a click on
    the tile at index [i]: the guard of the handler accepts the click
    iff the Manhattan distance between the positions of [i] and [b]
    is exactly 1; at distance 1 the values at [i] and [b] are
    exchanged, so that [i] holds the blank afterwards, every other
    cell is unchanged and the move counter grows by exactly 1; at any
    other distance the state is returned as it was. *)
Theorem handleTileClick_spec (s : state) (i b : Z) :
  running s = true → 1 ≤ size s → wf_board (size s) (tiles s) →
  0 ≤ i < len (tiles s) → arr_get (tiles s) b = Some 0 →
  let s' := handleTileClick s i in
  (clickAccepted s i = true ↔ manhattan (size s) i b = 1)
  ∧ (manhattan (size s) i b = 1 →
       arr_get (tiles s') i = Some 0
       ∧ arr_get (tiles s') b = arr_get (tiles s) i
       ∧ (∀ k, k ≠ i → k ≠ b → arr_get (tiles s') k = arr_get (tiles s) k)
       ∧ len (tiles s') = len (tiles s)
       ∧ moves s' = moves s + 1)
  ∧ (manhattan (size s) i b ≠ 1 → s' = s).
Proof.
  intros Hrun Hn Hwf Hi Hgb s'.
  pose proof (blank_index (size s) (tiles s) b Hn Hwf Hgb) as Hb.
  apply arr_get_Some in Hgb as Hb'.
  assert (canSwap (size s) i b = true ↔ manhattan (size s) i b = 1) as Hcm
    by (apply canSwap_manhattan; lia).
  unfold clickAccepted. rewrite Hrun, Hb. simpl.
  split; [done|].
  subst s'. unfold handleTileClick. rewrite Hrun, Hb. simpl.
  split.
  - intros Hd. apply Hcm in Hd. rewrite Hd.
    assert (∀ st, tiles (onWin s st) = tiles st ∧ moves (onWin s st) = moves st)
      as Hwin by done.
    set (st := State _ _ _ _ _ _ _).
    assert (tiles (if isSolved (swap (tiles s) i b) then onWin s st else st)
            = swap (tiles s) i b) as ->.
    { destruct (isSolved _); [apply Hwin | done]. }
    assert (moves (if isSolved (swap (tiles s) i b) then onWin s st else st)
            = moves s + 1) as ->.
    { destruct (isSolved _); [apply Hwin | done]. }
    rewrite len_swap, !arr_get_swap by done.
    split_and!; [zcases | zcases | | done | done].
    intros k Hki Hkb. rewrite arr_get_swap by done. zcases.
  - intros Hd. destruct (canSwap (size s) i b); [|done].
    destruct Hd. by apply Hcm.
Qed.

Lemma handleTileClick_spec_witness :
  let s := State 3 [1; 2; 3; 4; 5; 6; 0; 7; 8] 0 0 true NoMessage
             initialHighScores in
  let s' := handleTileClick s 3 in
  (clickAccepted s 3 = true ↔ manhattan (size s) 3 6 = 1)
  ∧ (manhattan (size s) 3 6 = 1 →
       arr_get (tiles s') 3 = Some 0
       ∧ arr_get (tiles s') 6 = arr_get (tiles s) 3
       ∧ (∀ k, k ≠ 3 → k ≠ 6 → arr_get (tiles s') k = arr_get (tiles s) k)
       ∧ len (tiles s') = len (tiles s)
       ∧ moves s' = moves s + 1)
  ∧ (manhattan (size s) 3 6 ≠ 1 → s' = s).
Proof.
  apply (handleTileClick_spec
           (State 3 [1; 2; 3; 4; 5; 6; 0; 7; 8] 0 0 true NoMessage
              initialHighScores) 3 6).
  - reflexivity.
  - vm_compute. discriminate.
  - apply (bool_decide_unpack _). vm_compute. exact I.
  - vm_compute. split; [discriminate | reflexivity].
  - reflexivity.
Defined.

(** The blank of a board lies inside the grid. *)
Lemma wf_board_blank_pos (n : Z) (arr : list Z) :
  1 ≤ n → wf_board n arr →
  let p := indexToPos n (indexOf arr 0) in
  0 ≤ r p < n ∧ 0 ≤ c p < n ∧ posToIndex n (r p) (c p) = indexOf arr 0.
Proof.
  intros Hn Hwf. destruct (wf_board_blank n arr) as [Hb _]; [lia | done |].
  unfold indexToPos, posToIndex, floor_div. simpl.
  rewrite js_mod_nonneg by lia.
  pose proof (Z.mod_pos_bound (indexOf arr 0) n).
  pose proof (Z.div_mod (indexOf arr 0) n).
  split_and!; try lia.
  - apply Z.div_pos; lia.
  - apply Z.div_lt_upper_bound; lia.
Qed.

(** C8.  On the 3x3 board [1,2,3,4,5,6,0,7,8], whose blank is at index
    6, while running and with no move made yet, the directional move
    "up" targets index 3, the cell above the blank holding 4; the
    board becomes [1,2,3,0,5,6,4,7,8], the move counter 1, and the
    board is not solved. *)
Theorem scenario_move_up (t : Z) (msg : message_t) (hs : gmap Z (option Z)) :
  let s := State 3 [1; 2; 3; 4; 5; 6; 0; 7; 8] 0 t true msg hs in
  indexOf (tiles s) 0 = 6
  ∧ arr_get (tiles s) 3 = Some 4
  ∧ moveByDirection s "up" = handleTileClick s 3
  ∧ tiles (moveByDirection s "up") = [1; 2; 3; 0; 5; 6; 4; 7; 8]
  ∧ moves (moveByDirection s "up") = 1
  ∧ isSolved (tiles (moveByDirection s "up")) = false.
Proof. intros s. split_and!; reflexivity. Qed.

(** C9.  While the running flag is false every input is ignored: a
    click on any tile, any key and any directional move return the
    state exactly as it was. *)
Theorem not_running_noop (s : state) :
  running s = false →
  (∀ i, handleTileClick s i = s)
  ∧ (∀ key, onKey s key = s)
  ∧ (∀ direction, moveByDirection s direction = s).
Proof.
  intros Hrun.
  assert (∀ i, handleTileClick s i = s) as Hclick.
  { intros i. unfold handleTileClick. by rewrite Hrun. }
  split_and!; [done | |].
  - intros key. unfold onKey. by rewrite Hrun.
  - intros direction. unfold moveByDirection.
    destruct (_ || _); [done | apply Hclick].
Qed.

Lemma not_running_noop_witness :
  let s := State 3 [1; 2; 3; 4; 5; 6; 0; 7; 8] 0 0 false NoMessage
             initialHighScores in
  (∀ i, handleTileClick s i = s)
  ∧ (∀ key, onKey s key = s)
  ∧ (∀ direction, moveByDirection s direction = s).
Proof.
  apply (not_running_noop
           (State 3 [1; 2; 3; 4; 5; 6; 0; 7; 8] 0 0 false NoMessage
              initialHighScores)).
  reflexivity.
Defined.

(** ** Inversions *)

Lemma below_nil (x : Z) : below x [] = 0.
Proof. done. Qed.

Lemma below_cons (x y : Z) (l : list Z) :
  below x (y :: l) = (if y <? x then 1 else 0) + below x l.
Proof.
  unfold below. rewrite filter_cons.
  destruct (decide (y < x)); zcases. rewrite len_cons. lia.
Qed.

Lemma below_app (x : Z) (l k : list Z) :
  below x (l ++ k) = below x l + below x k.
Proof. unfold below. by rewrite filter_app, len_app. Qed.

Lemma below_nonneg (x : Z) (l : list Z) : 0 ≤ below x l.
Proof. apply len_nonneg. Qed.

Lemma inversions_nonneg (l : list Z) : 0 ≤ inversions l.
Proof.
  induction l as [|x l IH]; simpl; [done|].
  pose proof (below_nonneg x l). lia.
Qed.

Lemma inversions_app (l k : list Z) :
  inversions (l ++ k) =
    inversions l + inversions k
    + foldr (λ x acc, below x k + acc) 0 l.
Proof.
  induction l as [|x l IH]; simpl; [lia|].
  rewrite IH, below_app. lia.
Qed.

(** The inner loop adds, to [inv], the elements after position [j] that
    are below [nums[i]]. *)
Lemma inversion_inner_spec (pre mid rest : list Z) (x inv : Z) :
  inversion_inner (length rest) (pre ++ x :: mid ++ rest) (len pre)
    (len pre + 1 + len mid) inv
  = inv + below x rest.
Proof.
  revert mid inv. induction rest as [|y rest IH]; intros mid inv; simpl.
  - rewrite below_nil. lia.
  - assert (gt_at (pre ++ x :: mid ++ y :: rest) (len pre)
              (len pre + 1 + len mid) = (y <? x)) as ->.
    { unfold gt_at. rewrite arr_get_middle.
      replace (pre ++ x :: mid ++ y :: rest)
        with ((pre ++ x :: mid) ++ y :: rest) by by rewrite <- app_assoc.
      replace (len pre + 1 + len mid) with (len (pre ++ x :: mid))
        by (rewrite len_app, len_cons; lia).
      by rewrite arr_get_middle. }
    replace (pre ++ x :: mid ++ y :: rest)
      with (pre ++ x :: (mid ++ [y]) ++ rest)
      by by rewrite <- (app_assoc mid).
    replace (len pre + 1 + len mid + 1) with (len pre + 1 + len (mid ++ [y]))
      by (rewrite len_app; unfold len; simpl; lia).
    rewrite IH, below_cons. zcases.
Qed.

Lemma inversion_outer_spec (pre rest : list Z) (inv : Z) :
  inversion_outer (length rest) (pre ++ rest) (len pre) inv
  = inv + inversions rest.
Proof.
  revert pre inv. induction rest as [|x rest IH]; intros pre inv; simpl.
  - lia.
  - replace (Z.to_nat (len (pre ++ x :: rest) - (len pre + 1)))
      with (length rest)
      by (rewrite len_app, len_cons; unfold len; lia).
    pose proof (inversion_inner_spec pre [] rest x inv) as Hin.
    simpl in Hin. replace (len pre + 1 + len []) with (len pre + 1) in Hin
      by (unfold len; simpl; lia).
    rewrite Hin.
    replace (pre ++ x :: rest) with ((pre ++ [x]) ++ rest)
      by by rewrite <- app_assoc.
    replace (len pre + 1) with (len (pre ++ [x]))
      by (rewrite len_app; unfold len; simpl; lia).
    rewrite IH. lia.
Qed.

(** The loops of [inversionCount] count the inversions of the tiles. *)
Lemma inversionCount_inversions (arr : list Z) :
  inversionCount arr = inversions (filter (λ v, v ≠ 0) arr).
Proof.
  unfold inversionCount.
  pose proof (inversion_outer_spec [] (filter (λ v, v ≠ 0) arr) 0) as H.
  simpl in H. apply H.
Qed.

(** The specification's count of pairs agrees with the recursive
    count. *)
Lemma countb_cons {A} (f : A → bool) (x : A) (l : list A) :
  countb f (x :: l) = ((if f x then 1 else 0) + countb f l)%nat.
Proof.
  unfold countb. rewrite filter_cons.
  destruct (decide (f x = true)) as [->|Hn]; [done|]. by destruct (f x).
Qed.

Lemma countb_app {A} (f : A → bool) (l k : list A) :
  countb f (l ++ k) = (countb f l + countb f k)%nat.
Proof. unfold countb. by rewrite filter_app, length_app. Qed.

Lemma countb_fmap {A B} (f : B → bool) (g : A → B) (l : list A) :
  countb f (g <$> l) = countb (f ∘ g) l.
Proof.
  induction l as [|x l IH]; [done|].
  rewrite fmap_cons, !countb_cons, IH. done.
Qed.

Lemma countb_ext {A} (f g : A → bool) (l : list A) :
  (∀ x, x ∈ l → f x = g x) → countb f l = countb g l.
Proof.
  induction l as [|x l IH]; intros H; [done|].
  rewrite !countb_cons, IH, (H x); [done | by left |].
  intros y Hy. apply H. by right.
Qed.

Lemma countb_false {A} (f : A → bool) (l : list A) :
  (∀ x, x ∈ l → f x = false) → countb f l = 0%nat.
Proof.
  induction l as [|x l IH]; intros H; [done|].
  rewrite countb_cons, IH, (H x); [done | by left |].
  intros y Hy. apply H. by right.
Qed.

Lemma countb_bind {A B} (f : B → bool) (g : A → list B) (l : list A) :
  countb f (l ≫= g) = sum_list_with (λ x, countb f (g x)) l.
Proof.
  induction l as [|x l IH]; [done|].
  rewrite bind_cons, countb_app, IH. done.
Qed.

Lemma sum_list_with_map {A B} (f : B → nat) (g : A → B) (l : list A) :
  sum_list_with f (g <$> l) = sum_list_with (f ∘ g) l.
Proof. induction l as [|x l IH]; csimpl; [done|]. by rewrite IH. Qed.

Lemma sum_list_with_pointwise {A} (f g : A → nat) (l : list A) :
  (∀ x, x ∈ l → f x = g x) → sum_list_with f l = sum_list_with g l.
Proof.
  induction l as [|x l IH]; intros H; simpl; [done|].
  rewrite IH, (H x); [done | by left |]. intros y Hy. apply H. by right.
Qed.

Lemma seq_0_S (m : nat) : seq 0 (S m) = 0%nat :: (S <$> seq 0 m).
Proof. simpl. by rewrite fmap_S_seq. Qed.

Lemma countb_lookup (Q : Z → bool) (l : list Z) :
  countb (λ j, match l !! j with Some y => Q y | None => false end)
    (seq 0 (length l))
  = countb Q l.
Proof.
  induction l as [|x l IH]; [done|].
  change (length (x :: l)) with (S (length l)).
  rewrite seq_0_S, !countb_cons, countb_fmap. simpl. by rewrite <- IH.
Qed.

Lemma countb_row {A} (f : nat * A → bool) (i : nat) (js : list A) :
  countb f (js ≫= λ j, [(i, j)]) = countb (λ j, f (i, j)) js.
Proof.
  induction js as [|j js IH]; [done|].
  rewrite bind_cons. simpl. by rewrite !countb_cons, IH.
Qed.

Lemma is_inversion_shift (x : Z) (l : list Z) (i j : nat) :
  is_inversion (x :: l) (S i, S j) = is_inversion l (i, j).
Proof.
  unfold is_inversion. simpl. f_equal. apply bool_decide_ext. lia.
Qed.

Lemma below_countb (x : Z) (l : list Z) :
  below x l = Z.of_nat (countb (λ y, bool_decide (y < x)) l).
Proof.
  unfold below, len, countb. do 2 f_equal. apply list_filter_iff.
  intros y. by rewrite bool_decide_eq_true.
Qed.

Lemma inversions_spec_cons (x : Z) (l : list Z) :
  inversions_spec (x :: l) = below x l + inversions_spec l.
Proof.
  unfold inversions_spec, position_pairs.
  change (length (x :: l)) with (S (length l)).
  fold (countb (is_inversion (x :: l))
          (i ← seq 0 (S (length l)); j ← seq 0 (S (length l)); [(i, j)])).
  fold (countb (is_inversion l)
          (i ← seq 0 (length l); j ← seq 0 (length l); [(i, j)])).
  rewrite !countb_bind. rewrite seq_0_S. csimpl.
  rewrite Nat2Z.inj_add. f_equal.
  - rewrite countb_cons, countb_row, countb_fmap, below_countb.
    rewrite <- countb_lookup. simpl. f_equal.
  - f_equal. rewrite sum_list_with_map. apply sum_list_with_pointwise.
    intros i _. simpl.
    rewrite countb_cons, !countb_row, countb_fmap. simpl.
    apply countb_ext. intros j _. apply is_inversion_shift.
Qed.

Lemma inversions_spec_inversions (l : list Z) :
  inversions_spec l = inversions l.
Proof.
  induction l as [|x l IH]; [done|].
  rewrite inversions_spec_cons, IH. done.
Qed.

(** ** The decision rule of [isSolvable] *)

Lemma js_mod_2_even (a : Z) : 0 ≤ a → (js_mod a 2 =? 0) = Z.even a.
Proof.
  intros Ha. rewrite js_mod_nonneg by lia. rewrite Zmod_even.
  by destruct (Z.even a).
Qed.

Lemma js_mod_2_odd (a : Z) : 0 ≤ a → (js_mod a 2 =? 1) = Z.odd a.
Proof.
  intros Ha. rewrite js_mod_nonneg by lia. rewrite Zmod_odd.
  by destruct (Z.odd a).
Qed.

(** C2.  For a board of dimension [n >= 2], [isSolvable] counts the
    inversions of the sequence with the blank removed (the pairs of
    positions [i < j] whose value at [i] exceeds the value at [j]) and
    answers: for odd [n], that the count is even; for even [n], with
    [rowFromTop] the 1-based row of the blank and
    [rowFromBottom = n - rowFromTop + 1], that [rowFromBottom] is even
    and the count odd, or [rowFromBottom] is odd and the count even. *)
Theorem isSolvable_rule (n : Z) (arr : list Z) :
  2 ≤ n → wf_board n arr →
  let inv := inversions_spec (filter (λ v, v ≠ 0) arr) in
  inversionCount arr = inv
  ∧ ∀ b, arr_get arr b = Some 0 →
      let rowFromTop := b `div` n + 1 in
      let rowFromBottom := n - rowFromTop + 1 in
      isSolvable arr n =
        if Z.odd n then Z.even inv
        else (Z.even rowFromBottom && Z.odd inv)
             || (Z.odd rowFromBottom && Z.even inv).
Proof.
  intros Hn Hwf inv.
  assert (inversionCount arr = inv) as Hinv.
  { subst inv. by rewrite inversionCount_inversions,
      inversions_spec_inversions. }
  split; [done|]. intros b Hb rowFromTop rowFromBottom.
  assert (0 ≤ inv) as Hpos.
  { subst inv. rewrite inversions_spec_inversions. apply inversions_nonneg. }
  pose proof (indexOf_unique arr b 0 (wf_board_NoDup n arr Hwf) Hb) as Hidx.
  destruct (wf_board_blank_pos n arr) as (Hr & _ & _); [lia | done |].
  unfold indexToPos, floor_div in Hr. simpl in Hr. rewrite Hidx in Hr.
  unfold isSolvable, floor_div. cbv zeta. rewrite Hinv, Hidx.
  fold rowFromTop. fold rowFromBottom.
  rewrite (js_mod_2_odd n) by lia.
  rewrite (js_mod_2_even inv), (js_mod_2_odd inv) by done.
  rewrite (js_mod_2_even rowFromBottom) by (subst rowFromBottom rowFromTop; lia).
  rewrite <- !Z.negb_even.
  by destruct (Z.even n), (Z.even rowFromBottom), (Z.even inv).
Qed.

Lemma isSolvable_rule_witness :
  let arr := [1; 2; 3; 4; 5; 6; 7; 8; 9; 10; 11; 12; 13; 15; 14; 0] in
  let inv := inversions_spec (filter (λ v, v ≠ 0) arr) in
  inversionCount arr = inv
  ∧ ∀ b, arr_get arr b = Some 0 →
      let rowFromTop := b `div` 4 + 1 in
      let rowFromBottom := 4 - rowFromTop + 1 in
      isSolvable arr 4 =
        if Z.odd 4 then Z.even inv
        else (Z.even rowFromBottom && Z.odd inv)
             || (Z.odd rowFromBottom && Z.even inv).
Proof.
  apply (isSolvable_rule 4
           [1; 2; 3; 4; 5; 6; 7; 8; 9; 10; 11; 12; 13; 15; 14; 0]).
  - lia.
  - apply (bool_decide_unpack _). vm_compute. exact I.
Defined.

(** ** Swaps as list surgery *)

Lemma arr_set_middle (pre post : list Z) (x v : Z) :
  arr_set (pre ++ x :: post) (len pre) v = pre ++ v :: post.
Proof.
  unfold arr_set, len. destruct (Z.ltb_spec (Z.of_nat (length pre)) 0); [lia|].
  rewrite Nat2Z.id.
  replace (length pre) with (length pre + 0)%nat at 1 by lia.
  by rewrite insert_app_r.
Qed.

(** Exchanging two cells of an array written around them. *)
Lemma swap_middle (pre mid post : list Z) (x y : Z) :
  swap (pre ++ x :: mid ++ y :: post) (len pre) (len pre + 1 + len mid)
  = pre ++ y :: mid ++ x :: post.
Proof.
  unfold swap. rewrite arr_get_middle.
  assert (pre ++ x :: mid ++ y :: post = (pre ++ x :: mid) ++ y :: post) as E
    by by rewrite <- app_assoc.
  assert (len pre + 1 + len mid = len (pre ++ x :: mid)) as El
    by (rewrite len_app, len_cons; lia).
  rewrite E at 1. rewrite El at 1. rewrite arr_get_middle.
  rewrite arr_set_middle.
  assert (pre ++ y :: mid ++ y :: post = (pre ++ y :: mid) ++ y :: post) as ->
    by by rewrite <- app_assoc.
  replace (len pre + 1 + len mid) with (len (pre ++ y :: mid))
    by (rewrite len_app, len_cons; lia).
  rewrite arr_set_middle. by rewrite <- app_assoc.
Qed.

(** Every array splits around two of its indices. *)
Lemma arr_split2 (arr : list Z) (i j : Z) :
  0 ≤ i → i < j → j < len arr →
  ∃ pre x mid y post,
    arr = pre ++ x :: mid ++ y :: post
    ∧ len pre = i ∧ len mid = j - i - 1.
Proof.
  intros Hi Hij Hj.
  destruct (arr_get_is_Some arr i) as [x Hx]; [lia|].
  destruct (arr_get_is_Some arr j) as [y Hy]; [lia|].
  unfold arr_get in Hx, Hy.
  destruct (Z.ltb_spec i 0); [lia|]. destruct (Z.ltb_spec j 0); [lia|].
  apply list_elem_of_split_length in Hx as (pre & rest & -> & Hpre).
  rewrite lookup_app_r in Hy by lia.
  destruct (Z.to_nat j - length pre)%nat as [|k] eqn:Ek; [lia|].
  simpl in Hy.
  apply list_elem_of_split_length in Hy as (mid & post & -> & Hmid).
  exists pre, x, mid, y, post. unfold len. split_and!; [done | lia | lia].
Qed.

(** ** Legal moves *)

Lemma manhattan_1_cases (n i b : Z) :
  0 < n → 0 ≤ i → 0 ≤ b →
  manhattan n i b = 1 ↔
    (i = b + 1 ∧ b `mod` n ≠ n - 1) ∨ (b = i + 1 ∧ i `mod` n ≠ n - 1)
    ∨ i = b + n ∨ b = i + n.
Proof.
  intros Hn Hi Hb. unfold manhattan.
  pose proof (Z.div_mod i n ltac:(lia)) as Ei.
  pose proof (Z.div_mod b n ltac:(lia)) as Eb.
  pose proof (Z.mod_pos_bound i n Hn) as Bi.
  pose proof (Z.mod_pos_bound b n Hn) as Bb.
  set (ri := i `div` n) in *. set (ci := i `mod` n) in *.
  set (rb := b `div` n) in *. set (cb := b `mod` n) in *.
  split.
  - intros H.
    assert (ri = rb ∨ ri = rb + 1 ∨ rb = ri + 1) as [E|[E|E]] by lia;
      rewrite E in *; clear E; nia.
  - intros [[E Hc]|[[E Hc]|[E|E]]].
    + assert (ri = rb ∧ ci = cb + 1) as [-> ->]; [|lia].
      assert (ri = rb); [nia|]. nia.
    + assert (ri = rb ∧ cb = ci + 1) as [-> ->]; [|lia].
      assert (ri = rb); [nia|]. nia.
    + assert (ri = rb + 1 ∧ ci = cb) as [-> ->]; [|lia].
      assert (ri = rb + 1); [nia|]. nia.
    + assert (rb = ri + 1 ∧ ci = cb) as [-> ->]; [|lia].
      assert (rb = ri + 1); [nia|]. nia.
Qed.

Lemma len_0_nil (l : list Z) : len l = 0 → l = [].
Proof. unfold len. destruct l; [done | simpl; lia]. Qed.

Lemma arr_get_middle2 (pre mid post : list Z) (x y : Z) :
  arr_get (pre ++ x :: mid ++ y :: post) (len pre + 1 + len mid) = Some y.
Proof.
  replace (pre ++ x :: mid ++ y :: post) with ((pre ++ x :: mid) ++ y :: post)
    by by rewrite <- app_assoc.
  replace (len pre + 1 + len mid) with (len (pre ++ x :: mid))
    by (rewrite len_app, len_cons; lia).
  apply arr_get_middle.
Qed.

Lemma NoDup_app_head_notin (pre rest : list Z) (x : Z) :
  NoDup (pre ++ x :: rest) → x ∉ pre.
Proof.
  intros (_ & H & _)%NoDup_app Hx. apply (H x Hx). by left.
Qed.

Lemma indexOf_middle2 (pre mid post : list Z) (x y : Z) :
  NoDup (pre ++ x :: mid ++ y :: post) →
  indexOf (pre ++ x :: mid ++ y :: post) y = len pre + 1 + len mid.
Proof.
  intros Hnd. apply indexOf_unique; [done | apply arr_get_middle2].
Qed.

Lemma legal_move_slide (n : Z) (arr arr' : list Z) :
  1 ≤ n → wf_board n arr → legal_move n arr arr' → slide n arr arr'.
Proof.
  intros Hn Hwf (i & Hi & Hcan & ->).
  destruct (wf_board_blank n arr) as [Hb Hgb]; [lia | done |].
  remember (indexOf arr 0) as b eqn:Eb. clear Eb.
  assert (len arr = n * n) as Hlen by (rewrite (wf_board_len n) by done; nia).
  apply canSwap_manhattan in Hcan; [|lia..].
  apply manhattan_1_cases in Hcan; [|lia..].
  destruct Hcan as [[E Hc]|[[E Hc]|[E|E]]].
  - destruct (arr_split2 arr b i) as (pre & x & mid & y & post & -> & Hp & Hm);
      [lia..|].
    assert (mid = []) as -> by (apply len_0_nil; lia).
    rewrite <- Hp, arr_get_middle in Hgb. injection Hgb as ->.
    rewrite swap_comm.
    replace i with (len pre + 1 + len []) by (unfold len at 2; simpl; lia).
    rewrite <- Hp, (swap_middle pre [] post). apply slide_right. by rewrite Hp.
  - destruct (arr_split2 arr i b) as (pre & x & mid & y & post & -> & Hp & Hm);
      [lia..|].
    assert (mid = []) as -> by (apply len_0_nil; lia).
    replace b with (len pre + 1 + len []) in Hgb |- *
      by (unfold len at 2; simpl; lia).
    rewrite (arr_get_middle2 pre [] post) in Hgb. injection Hgb as ->.
    rewrite <- Hp, (swap_middle pre [] post). apply slide_left. by rewrite Hp.
  - destruct (arr_split2 arr b i) as (pre & x & mid & y & post & -> & Hp & Hm);
      [lia..|].
    rewrite <- Hp, arr_get_middle in Hgb. injection Hgb as ->.
    rewrite swap_comm. replace i with (len pre + 1 + len mid) by lia.
    rewrite <- Hp, swap_middle. apply slide_down. lia.
  - destruct (arr_split2 arr i b) as (pre & x & mid & y & post & -> & Hp & Hm);
      [lia..|].
    replace b with (len pre + 1 + len mid) in Hgb |- * by lia.
    rewrite arr_get_middle2 in Hgb. injection Hgb as ->.
    rewrite <- Hp, swap_middle. apply slide_up. lia.
Qed.

(** Arithmetic on the lengths of arrays written with [++] and [::]. *)
Ltac len_simpl :=
  repeat (rewrite len_app in * || rewrite len_cons in * );
  change (len []) with 0 in *.

Ltac len_lia :=
  len_simpl;
  repeat match goal with
    | |- context [len ?l] =>
        lazymatch goal with
        | _ : 0 ≤ len l |- _ => fail
        | _ => pose proof (len_nonneg l)
        end
    | _ : context [len ?l] |- _ =>
        lazymatch goal with
        | _ : 0 ≤ len l |- _ => fail
        | _ => pose proof (len_nonneg l)
        end
    end;
  lia.

Lemma slide_legal_move (n : Z) (arr arr' : list Z) :
  1 ≤ n → wf_board n arr → slide n arr arr' → legal_move n arr arr'.
Proof.
  intros Hn Hwf Hs.
  pose proof (wf_board_NoDup n arr Hwf) as Hnd.
  assert (len arr = n * n) as Hlen by (rewrite (wf_board_len n) by done; nia).
  destruct Hs as [pre t post Hc|pre t post Hc|pre mid t post Hm
                 |pre mid t post Hm].
  - assert (indexOf (pre ++ 0 :: t :: post) 0 = len pre) as Hb
      by (apply indexOf_app; by eapply NoDup_app_head_notin).
    exists (len pre + 1 + len []). rewrite Hb. split; [|split].
    + len_lia.
    + apply canSwap_manhattan; [len_lia..|].
      apply manhattan_1_cases; [len_lia..|].
      left. split; [len_lia | done].
    + rewrite swap_comm. symmetry. exact (swap_middle pre [] post 0 t).
  - assert (indexOf (pre ++ t :: 0 :: post) 0 = len pre + 1 + len []) as Hb
      by (by apply (indexOf_middle2 pre [] post)).
    exists (len pre). rewrite Hb. split; [|split].
    + len_lia.
    + apply canSwap_manhattan; [len_lia..|].
      apply manhattan_1_cases; [len_lia..|].
      right. left. split; [len_lia | done].
    + symmetry. exact (swap_middle pre [] post t 0).
  - assert (indexOf (pre ++ 0 :: mid ++ t :: post) 0 = len pre) as Hb
      by (apply indexOf_app; by eapply NoDup_app_head_notin).
    exists (len pre + 1 + len mid). rewrite Hb. split; [|split].
    + len_lia.
    + apply canSwap_manhattan; [len_lia..|].
      apply manhattan_1_cases; [len_lia..|]. right. right. left. len_lia.
    + rewrite swap_comm. by rewrite swap_middle.
  - assert (indexOf (pre ++ t :: mid ++ 0 :: post) 0 = len pre + 1 + len mid)
      as Hb by (by apply indexOf_middle2).
    exists (len pre). rewrite Hb. split; [|split].
    + len_lia.
    + apply canSwap_manhattan; [len_lia..|].
      apply manhattan_1_cases; [len_lia..|]. right. right. right. len_lia.
    + by rewrite swap_middle.
Qed.

Lemma slide_Permutation (n : Z) (arr arr' : list Z) :
  slide n arr arr' → arr' ≡ₚ arr.
Proof.
  intros [pre t post _|pre t post _|pre mid t post _|pre mid t post _].
  - apply Permutation_app_head, Permutation_swap.
  - apply Permutation_app_head, Permutation_swap.
  - apply Permutation_app_head.
    rewrite <- !Permutation_middle. apply Permutation_swap.
  - apply Permutation_app_head.
    rewrite <- !Permutation_middle. apply Permutation_swap.
Qed.

Lemma slide_wf (n : Z) (arr arr' : list Z) :
  slide n arr arr' → wf_board n arr → wf_board n arr'.
Proof. unfold wf_board. intros Hs <-. by eapply slide_Permutation. Qed.

Lemma slide_sym (n : Z) (arr arr' : list Z) :
  slide n arr arr' → slide n arr' arr.
Proof.
  intros [pre t post H|pre t post H|pre mid t post H|pre mid t post H].
  - by apply slide_left.
  - by apply slide_right.
  - by apply slide_up.
  - by apply slide_down.
Qed.

(** ** The parity invariant *)

Lemma inversions_cross (l k : list Z) :
  inversions (l ++ k) = inversions l + inversions k + cross l k.
Proof. apply inversions_app. Qed.

Lemma cross_cons_l (x : Z) (l k : list Z) :
  cross (x :: l) k = below x k + cross l k.
Proof. done. Qed.

Lemma cross_app_l (l1 l2 k : list Z) :
  cross (l1 ++ l2) k = cross l1 k + cross l2 k.
Proof.
  induction l1 as [|x l1 IH]; [done|].
  rewrite <- app_comm_cons, !cross_cons_l, IH. lia.
Qed.

Lemma cross_app_r (l k1 k2 : list Z) :
  cross l (k1 ++ k2) = cross l k1 + cross l k2.
Proof.
  induction l as [|x l IH]; [done|].
  rewrite !cross_cons_l, IH, below_app. lia.
Qed.

Lemma cross_cons_r (l : list Z) (y : Z) (k : list Z) :
  cross l (y :: k) = cross l [y] + cross l k.
Proof. apply (cross_app_r l [y] k). Qed.

(** Against a list that does not contain it, an element is below or
    above each member. *)
Lemma cross_single (x : Z) (l : list Z) :
  x ∉ l → below x l + cross l [x] = len l.
Proof.
  induction l as [|y l IH]; intros Hx; [done|].
  apply not_elem_of_cons in Hx as [Hxy Hxl].
  rewrite below_cons, cross_cons_l, len_cons, <- (IH Hxl).
  rewrite below_cons, below_nil. zcases.
Qed.

(** Moving [t] from behind [mid] to its front changes the count by
    [2 * below t mid - len mid]. *)
Lemma inversions_hop (pre mid post : list Z) (t : Z) :
  t ∉ mid →
  inversions (pre ++ t :: mid ++ post)
  = inversions (pre ++ mid ++ t :: post) + 2 * below t mid - len mid.
Proof.
  intros Ht. pose proof (cross_single t mid Ht) as Hc.
  rewrite !inversions_cross. simpl inversions.
  rewrite !inversions_cross. simpl inversions.
  rewrite (cross_cons_r pre t (mid ++ post)), !cross_app_r.
  rewrite (cross_cons_r pre t post), (cross_cons_r mid t post), below_app.
  lia.
Qed.

Lemma filter_nonzero_id (l : list Z) :
  0 ∉ l → filter (λ v, v ≠ 0) l = l.
Proof.
  induction l as [|x l IH]; intros H0; [done|].
  apply not_elem_of_cons in H0 as [Hx Hl].
  rewrite filter_cons_True by done. by rewrite IH.
Qed.

Lemma isSolvable_parity (n : Z) (arr : list Z) :
  1 ≤ n → wf_board n arr → isSolvable arr n = parity_ok n arr.
Proof.
  intros Hn Hwf.
  destruct (wf_board_blank_pos n arr) as (Hr & _ & _); [lia | done |].
  unfold indexToPos, floor_div in Hr. simpl in Hr.
  unfold isSolvable, parity_ok, floor_div. cbv zeta.
  rewrite inversionCount_inversions.
  pose proof (inversions_nonneg (filter (λ v, v ≠ 0) arr)) as Hpos.
  set (inv := inversions _) in *. set (row := indexOf arr 0 `div` n) in *.
  rewrite (js_mod_2_odd n) by lia.
  rewrite (js_mod_2_even inv), (js_mod_2_odd inv) by done.
  rewrite (js_mod_2_even (n - (row + 1) + 1)) by lia.
  destruct (Z.odd n) eqn:En; [done|].
  replace (n - (row + 1) + 1) with (n - row) by lia.
  rewrite Z.even_sub, Z.odd_add, <- !Z.negb_even.
  rewrite <- Z.negb_even in En.
  by destruct (Z.even n), (Z.even row), (Z.even inv).
Qed.

Lemma filter_nonzero_blank (l : list Z) :
  filter (λ v, v ≠ 0) (0 :: l) = filter (λ v, v ≠ 0) l.
Proof. by rewrite filter_cons_False by (intros H; by apply H). Qed.

Lemma filter_nonzero_tile (t : Z) (l : list Z) :
  t ≠ 0 → filter (λ v, v ≠ 0) (t :: l) = t :: filter (λ v, v ≠ 0) l.
Proof. intros Ht. by rewrite filter_cons_True. Qed.

Lemma div_succ_same_row (p n : Z) :
  0 < n → 0 ≤ p → p `mod` n ≠ n - 1 → (p + 1) `div` n = p `div` n.
Proof.
  intros Hn Hp Hc. pose proof (Z.mod_pos_bound p n Hn).
  symmetry. apply (Z.div_unique (p + 1) n (p `div` n) (p `mod` n + 1)).
  - lia.
  - pose proof (Z.div_mod p n ltac:(lia)). lia.
Qed.

(** What a duplicate-free array tells about two of its cells. *)
Lemma NoDup_two_cells (pre mid post : list Z) (x y : Z) :
  NoDup (pre ++ x :: mid ++ y :: post) →
  (x ∉ pre) ∧ (y ∉ pre) ∧ (x ∉ mid) ∧ (y ∉ mid) ∧ x ≠ y.
Proof.
  intros Hnd.
  apply NoDup_app in Hnd as (_ & Hpre & Hrest).
  apply NoDup_cons in Hrest as [Hx Hrest].
  apply NoDup_app in Hrest as (_ & Hmid & _).
  split_and!.
  - intros H. apply (Hpre x H). by left.
  - intros H. apply (Hpre y H). right. apply elem_of_app. right. by left.
  - intros H. apply Hx. apply elem_of_app. by left.
  - intros H. apply (Hmid y H). by left.
  - intros ->. apply Hx. apply elem_of_app. right. by left.
Qed.

Lemma parity_right (n : Z) (pre post : list Z) (t : Z) :
  1 ≤ n → NoDup (pre ++ 0 :: t :: post) → len pre `mod` n ≠ n - 1 →
  parity_ok n (pre ++ t :: 0 :: post) = parity_ok n (pre ++ 0 :: t :: post).
Proof.
  intros Hn Hnd Hc.
  destruct (NoDup_two_cells pre [] post 0 t Hnd) as (H0 & Ht & _ & _ & Hne).
  unfold parity_ok. cbv zeta.
  rewrite !filter_app, filter_nonzero_blank, (filter_nonzero_tile t) by done.
  rewrite filter_nonzero_blank, (filter_nonzero_tile t) by done.
  rewrite (indexOf_app pre) by done.
  replace (pre ++ t :: 0 :: post) with ((pre ++ [t]) ++ 0 :: post)
    by by rewrite <- app_assoc.
  rewrite indexOf_app.
  - rewrite len_app. change (len [t]) with 1.
    rewrite div_succ_same_row; [done | lia | apply len_nonneg | done].
  - intros [H|H]%elem_of_app; [done|].
    apply list_elem_of_singleton in H. congruence.
Qed.

Lemma parity_down (n : Z) (pre mid post : list Z) (t : Z) :
  1 ≤ n → NoDup (pre ++ 0 :: mid ++ t :: post) → len mid = n - 1 →
  parity_ok n (pre ++ t :: mid ++ 0 :: post)
  = parity_ok n (pre ++ 0 :: mid ++ t :: post).
Proof.
  intros Hn Hnd Hm.
  destruct (NoDup_two_cells pre mid post 0 t Hnd)
    as (H0 & Ht & H0m & Htm & Hne).
  unfold parity_ok. cbv zeta.
  rewrite !filter_app, filter_nonzero_blank, (filter_nonzero_tile t) by done.
  rewrite !filter_app, filter_nonzero_blank, (filter_nonzero_tile t) by done.
  rewrite (filter_nonzero_id mid) by done.
  rewrite (indexOf_app pre) by done.
  replace (pre ++ t :: mid ++ 0 :: post) with ((pre ++ t :: mid) ++ 0 :: post)
    by by rewrite <- app_assoc.
  rewrite indexOf_app.
  2:{ intros [H|H]%elem_of_app; [done|].
      apply elem_of_cons in H as [H|H]; [congruence | done]. }
  rewrite inversions_hop by done.
  rewrite len_app, len_cons, Hm.
  replace (len pre + (n - 1 + 1)) with (len pre + 1 * n) by lia.
  rewrite Z.div_add by lia.
  set (inv := inversions _). set (row := len pre `div` n).
  set (d := below t mid).
  destruct (Z.odd n) eqn:En.
  - apply Z.odd_spec in En as [m ->].
    replace (inv + 2 * d - (2 * m + 1 - 1)) with (inv + 2 * (d - m)) by lia.
    apply Z.even_add_mul_2.
  - rewrite <- Z.negb_even in En. apply negb_false_iff in En.
    apply Z.even_spec in En as [m ->].
    replace (row + 1 + (inv + 2 * d - (2 * m - 1)))
      with (row + inv + 2 * (d - m + 1)) by lia.
    apply Z.odd_add_mul_2.
Qed.

(** A legal move keeps the answer of the parity test. *)
Lemma slide_parity (n : Z) (arr arr' : list Z) :
  1 ≤ n → wf_board n arr → slide n arr arr' →
  parity_ok n arr' = parity_ok n arr.
Proof.
  intros Hn Hwf Hs.
  pose proof (wf_board_NoDup n arr Hwf) as Hnd.
  pose proof (wf_board_NoDup n arr' (slide_wf n arr arr' Hs Hwf)) as Hnd'.
  destruct Hs as [pre t post H|pre t post H|pre mid t post H|pre mid t post H].
  - by apply parity_right.
  - symmetry. by apply parity_right.
  - by apply parity_down.
  - symmetry. by apply parity_down.
Qed.

Lemma legal_move_wf (n : Z) (arr arr' : list Z) :
  legal_move n arr arr' → wf_board n arr → wf_board n arr'.
Proof. intros (i & _ & _ & ->) Hwf. by apply wf_board_swap. Qed.

Lemma legal_move_isSolvable (n : Z) (arr arr' : list Z) :
  1 ≤ n → wf_board n arr → legal_move n arr arr' →
  isSolvable arr' n = isSolvable arr n.
Proof.
  intros Hn Hwf Hm.
  rewrite !isSolvable_parity by eauto using legal_move_wf.
  apply slide_parity; [done..|]. by apply legal_move_slide.
Qed.

Lemma moves_wf (n : Z) (arr arr' : list Z) :
  rtc (legal_move n) arr arr' → wf_board n arr → wf_board n arr'.
Proof. induction 1; eauto using legal_move_wf. Qed.

Lemma moves_isSolvable (n : Z) (arr arr' : list Z) :
  1 ≤ n → wf_board n arr → rtc (legal_move n) arr arr' →
  isSolvable arr' n = isSolvable arr n.
Proof.
  intros Hn Hwf Hr. induction Hr as [|a b c Hab Hbc IH]; [done|].
  rewrite IH by eauto using legal_move_wf.
  by apply legal_move_isSolvable.
Qed.

(** ** The solved board *)

Lemma arr_get_seqZ (m k i : Z) :
  0 ≤ i < k → arr_get (seqZ m k) i = Some (m + i).
Proof.
  intros Hi. unfold arr_get. destruct (Z.ltb_spec i 0); [lia|].
  rewrite lookup_seqZ_lt by lia. f_equal. lia.
Qed.

Lemma len_seqZ (m k : Z) : len (seqZ m k) = Z.max 0 k.
Proof. unfold len. rewrite length_seqZ. lia. Qed.

(** The solved board is the tiles in increasing order, then the blank. *)
Lemma makeSolved_eq (n : Z) :
  n ≠ 0 → makeSolved n = seqZ 1 (n * n - 1) ++ [0].
Proof.
  intros Hn. assert (0 < n * n) by nia. apply arr_eq. intros i.
  destruct (decide (0 ≤ i < n * n)) as [Hi|Hi].
  - rewrite arr_get_makeSolved by done.
    destruct (Z.eqb_spec i (n * n - 1)) as [->|Hne].
    + rewrite arr_get_app_r by (rewrite len_seqZ; lia).
      rewrite len_seqZ. by replace (n * n - 1 - Z.max 0 (n * n - 1)) with 0
        by lia.
    + rewrite arr_get_app_l by (rewrite len_seqZ; lia).
      rewrite arr_get_seqZ by lia. f_equal. lia.
  - rewrite !arr_get_None; [done | | rewrite len_makeSolved; lia].
    rewrite len_app, len_seqZ. change (len [0]) with 1. lia.
Qed.

Lemma wf_board_makeSolved (n : Z) : n ≠ 0 → wf_board n (makeSolved n).
Proof.
  intros Hn. assert (0 < n * n) by nia. unfold wf_board.
  rewrite makeSolved_eq by done.
  rewrite (seqZ_cons 0 (n * n)) by lia.
  rewrite <- Permutation_cons_append.
  by replace (Z.succ 0) with 1 by lia; replace (Z.pred (n * n)) with (n * n - 1)
    by lia.
Qed.

Lemma below_0 (x : Z) (l : list Z) : Forall (λ y, x ≤ y) l → below x l = 0.
Proof.
  induction 1 as [|y l Hy Hl IH]; [done|].
  rewrite below_cons, IH. zcases.
Qed.

Lemma inversions_seqZ (m k : Z) : inversions (seqZ m k) = 0.
Proof.
  destruct (decide (0 ≤ k)) as [Hk|Hk].
  - revert m. pattern k. apply natlike_ind; [| |done].
    + done.
    + clear k Hk. intros k Hk IH m.
      rewrite seqZ_cons by lia. rewrite Z.pred_succ. simpl.
      rewrite IH, below_0; [done|].
      apply Forall_forall. intros y Hy%elem_of_seqZ. lia.
  - unfold seqZ. by replace (Z.to_nat k) with 0%nat by lia.
Qed.

Lemma parity_ok_makeSolved (n : Z) : 1 ≤ n → parity_ok n (makeSolved n) = true.
Proof.
  intros Hn. assert (0 < n * n) by nia.
  assert (0 ∉ seqZ 1 (n * n - 1)) as H0.
  { intros H0%elem_of_seqZ. lia. }
  unfold parity_ok. cbv zeta. rewrite makeSolved_eq by lia.
  rewrite indexOf_app by done.
  rewrite filter_app, filter_nonzero_id, filter_nonzero_blank by done.
  simpl filter. rewrite app_nil_r, inversions_seqZ, len_seqZ.
  replace (Z.max 0 (n * n - 1)) with (n - 1 + (n - 1) * n) by lia.
  rewrite Z.div_add, Z.div_small by lia.
  destruct (Z.odd n) eqn:En; [done|].
  replace (0 + (n - 1) + 0) with (n - 1) by lia.
  rewrite Z.odd_sub, En. done.
Qed.

Lemma isSolvable_makeSolved (n : Z) :
  1 ≤ n → isSolvable (makeSolved n) n = true.
Proof.
  intros Hn. rewrite isSolvable_parity by (try apply wf_board_makeSolved; lia).
  by apply parity_ok_makeSolved.
Qed.

(** Boards from which the solved board can be reached pass the test. *)
Lemma solvable_by_moves_isSolvable (n : Z) (arr : list Z) :
  1 ≤ n → wf_board n arr → solvable_by_moves n arr →
  isSolvable arr n = true.
Proof.
  intros Hn Hwf Hr.
  rewrite <- (moves_isSolvable n arr (makeSolved n)) by done.
  by apply isSolvable_makeSolved.
Qed.

(** ** Board generation *)

Lemma randomIndex_range (x : rand) (i : Z) :
  rand_ok x → 0 ≤ i → 0 ≤ randomIndex x i ≤ i.
Proof.
  unfold rand_ok, randomIndex, floor_div. intros Hx Hi. split.
  - apply Z.div_pos; nia.
  - assert ((rnum x * (i + 1)) `div` rden x < i + 1); [|lia].
    apply Z.div_lt_upper_bound; nia.
Qed.

Lemma shuffle_loop_Permutation (k : nat) (rng : nat → rand) (p : nat) (i : Z)
    (arr : list Z) :
  (shuffle_loop k rng p i arr).1 ≡ₚ arr.
Proof.
  revert p i arr. induction k as [|k IH]; intros p i arr; simpl; [done|].
  rewrite IH. apply swap_Permutation.
Qed.

Lemma shuffle_loop_drawn (k : nat) (rng : nat → rand) (p : nat) (i : Z)
    (arr : list Z) :
  (shuffle_loop k rng p i arr).2 = (p + k)%nat.
Proof.
  revert p i arr. induction k as [|k IH]; intros p i arr; simpl; [lia|].
  rewrite IH. lia.
Qed.

(** The indices that the loop exchanges lie inside the array. *)
Lemma shuffle_loop_in_range (rng : nat → rand) (p : nat) (i : Z) :
  rng_ok rng → 0 ≤ i → 0 ≤ randomIndex (rng p) i ≤ i.
Proof. intros Hrng Hi. by apply randomIndex_range. Qed.

Lemma fisherYates_wf (rng : nat → rand) (p : nat) (n : Z) (arr : list Z) :
  wf_board n arr → wf_board n (fisherYates rng p arr).1.
Proof.
  unfold wf_board, fisherYates. by rewrite shuffle_loop_Permutation.
Qed.

Lemma fisherYates_drawn (rng : nat → rand) (p : nat) (arr : list Z) :
  (fisherYates rng p arr).2 = (p + Z.to_nat (len arr - 1))%nat.
Proof. apply shuffle_loop_drawn. Qed.

Lemma shuffleToSolvable_from_Some (fuel : nat) (rng : nat → rand) (p : nat)
    (n : Z) (arr : list Z) :
  n ≠ 0 → shuffleToSolvable_from fuel rng p n = Some arr →
  wf_board n arr ∧ isSolvable arr n = true ∧ isSolved arr = false.
Proof.
  intros Hn. revert p. induction fuel as [|fuel IH]; intros p; simpl; [done|].
  destruct (fisherYates rng p (makeSolved n)) as [b p'] eqn:E.
  destruct (isSolvable b n) eqn:Es; simpl; [|apply IH].
  destruct (isSolved b) eqn:Ed; [apply IH|].
  intros [= <-]. split_and!; [|done..].
  replace b with (fisherYates rng p (makeSolved n)).1 by by rewrite E.
  by apply fisherYates_wf, wf_board_makeSolved.
Qed.

(** The loop stops at the first accepted round. *)
Lemma shuffleToSolvable_from_accepted (fuel : nat) (rng : nat → rand)
    (n : Z) (k0 k : nat) :
  (k0 ≤ k < k0 + fuel)%nat → round_accepted rng n k = true →
  ∃ arr, shuffleToSolvable_from fuel rng (k0 * Z.to_nat (n * n - 1)) n
         = Some arr.
Proof.
  revert k0. induction fuel as [|fuel IH]; intros k0 Hk Hacc; [lia|].
  simpl.
  destruct (fisherYates rng (k0 * Z.to_nat (n * n - 1)) (makeSolved n))
    as [b p'] eqn:E.
  assert (b = round_board rng n k0) as Hb by (unfold round_board; by rewrite E).
  assert (p' = (S k0 * Z.to_nat (n * n - 1))%nat) as Hp.
  { replace p' with (fisherYates rng (k0 * Z.to_nat (n * n - 1))
                       (makeSolved n)).2 by by rewrite E.
    rewrite fisherYates_drawn, len_makeSolved. nia. }
  destruct (negb (isSolvable b n) || isSolved b) eqn:Et; [|by eexists].
  rewrite Hp. apply IH; [|done].
  destruct (decide (k = k0)) as [->|]; [|lia].
  unfold round_accepted in Hacc. rewrite <- Hb, Et in Hacc. done.
Qed.

Lemma lucky_rng_ok (n : Z) : 2 ≤ n → rng_ok (lucky_rng n).
Proof. intros Hn [|k]; unfold rand_ok; simpl; nia. Qed.

Lemma randomIndex_top (m i : Z) :
  0 ≤ i < m → randomIndex (Rand (m - 1) m) i = i.
Proof.
  intros Hi. unfold randomIndex, floor_div. simpl. symmetry.
  apply (Z.div_unique _ _ _ (m - 1 - i)); lia.
Qed.

Lemma randomIndex_first (m : Z) :
  0 < m → randomIndex (Rand (m - 2) m) (m - 1) = m - 2.
Proof.
  intros Hm. unfold randomIndex, floor_div. simpl.
  replace (m - 1 + 1) with m by lia. apply Z.div_mul. lia.
Qed.

Lemma shuffle_loop_idle (k : nat) (rng : nat → rand) (p : nat) (i : Z)
    (arr : list Z) :
  (∀ j, (j < k)%nat →
        randomIndex (rng (p + j)%nat) (i - Z.of_nat j) = i - Z.of_nat j) →
  (shuffle_loop k rng p i arr).1 = arr.
Proof.
  revert p i arr. induction k as [|k IH]; intros p i arr H; simpl; [done|].
  pose proof (H 0%nat ltac:(lia)) as H0.
  rewrite Nat.add_0_r, Z.sub_0_r in H0. rewrite H0, swap_same.
  apply IH. intros j Hj. specialize (H (S j) ltac:(lia)).
  replace (S p + j)%nat with (p + S j)%nat by lia.
  by replace (i - 1 - Z.of_nat j) with (i - Z.of_nat (S j)) by lia.
Qed.

Lemma seqZ_snoc (m k : Z) :
  0 ≤ k → seqZ m (k + 1) = seqZ m k ++ [m + k].
Proof.
  intros Hk. by rewrite seqZ_app by lia.
Qed.

Lemma makeSolved_last_two (n : Z) :
  2 ≤ n → makeSolved n = seqZ 1 (n * n - 2) ++ [n * n - 1; 0].
Proof.
  intros Hn. rewrite makeSolved_eq by lia.
  replace (n * n - 1) with (n * n - 2 + 1) at 1 by lia.
  rewrite seqZ_snoc by nia. rewrite <- app_assoc. simpl.
  by replace (1 + (n * n - 2)) with (n * n - 1) by lia.
Qed.

Lemma fisherYates_lucky (n : Z) :
  2 ≤ n →
  (fisherYates (lucky_rng n) 0 (makeSolved n)).1
  = seqZ 1 (n * n - 2) ++ [0; n * n - 1].
Proof.
  intros Hn. assert (4 ≤ n * n) by nia.
  unfold fisherYates. rewrite len_makeSolved.
  replace (Z.max 0 (n * n) - 1) with (n * n - 1) by lia.
  destruct (Z.to_nat (n * n - 1)) as [|k] eqn:Ek; [lia|].
  simpl. rewrite randomIndex_first by lia.
  rewrite shuffle_loop_idle.
  - rewrite makeSolved_last_two by done. rewrite swap_comm.
    pose proof (swap_middle (seqZ 1 (n * n - 2)) [] [] (n * n - 1) 0) as Hs.
    rewrite len_seqZ in Hs. change (len []) with 0 in Hs.
    replace (Z.max 0 (n * n - 2) + 1 + 0) with (n * n - 1) in Hs by lia.
    replace (Z.max 0 (n * n - 2)) with (n * n - 2) in Hs by lia.
    apply Hs.
  - intros j Hj. simpl. apply randomIndex_top. lia.
Qed.

Lemma near_solved_slide (n : Z) :
  2 ≤ n →
  slide n (makeSolved n) (seqZ 1 (n * n - 2) ++ [0; n * n - 1]).
Proof.
  intros Hn. rewrite makeSolved_last_two by done.
  apply slide_left. rewrite len_seqZ.
  replace (Z.max 0 (n * n - 2)) with (n - 2 + (n - 1) * n) by nia.
  rewrite Z.mod_add, Z.mod_small by lia. lia.
Qed.

Lemma near_solved_not_solved (n : Z) :
  2 ≤ n → isSolved (seqZ 1 (n * n - 2) ++ [0; n * n - 1]) = false.
Proof.
  intros Hn. assert (4 ≤ n * n) by nia.
  destruct (isSolved _) eqn:E; [|done].
  apply isSolved_true in E as [E _].
  specialize (E (n * n - 2)).
  rewrite len_app, len_seqZ in E. change (len [0; n * n - 1]) with 2 in E.
  rewrite arr_get_app_r, len_seqZ in E by (rewrite len_seqZ; lia).
  replace (n * n - 2 - Z.max 0 (n * n - 2)) with 0 in E by lia.
  simpl in E. specialize (E ltac:(lia)). injection E. lia.
Qed.

Lemma near_solved_accepted (n : Z) :
  2 ≤ n →
  negb (negb (isSolvable (seqZ 1 (n * n - 2) ++ [0; n * n - 1]) n)
        || isSolved (seqZ 1 (n * n - 2) ++ [0; n * n - 1])) = true.
Proof.
  intros Hn.
  pose proof (near_solved_slide n Hn) as Hs.
  pose proof (wf_board_makeSolved n ltac:(lia)) as Hwf.
  rewrite isSolvable_parity by (try eapply slide_wf; eauto; lia).
  rewrite (slide_parity n _ _ ltac:(lia) Hwf Hs).
  rewrite parity_ok_makeSolved by lia.
  by rewrite near_solved_not_solved.
Qed.

(** The loop reads the source only at the places it draws from. *)
Lemma shuffle_loop_ext (k : nat) (rng1 rng2 : nat → rand) (p1 p2 : nat)
    (i : Z) (arr : list Z) :
  (∀ j, (j < k)%nat → rng1 (p1 + j)%nat = rng2 (p2 + j)%nat) →
  (shuffle_loop k rng1 p1 i arr).1 = (shuffle_loop k rng2 p2 i arr).1.
Proof.
  revert p1 p2 i arr. induction k as [|k IH]; intros p1 p2 i arr H; [done|].
  simpl. pose proof (H 0%nat ltac:(lia)) as H0.
  rewrite !Nat.add_0_r in H0. rewrite H0. apply IH.
  intros j Hj. specialize (H (S j) ltac:(lia)).
  by replace (S p1 + j)%nat with (p1 + S j)%nat by lia;
     replace (S p2 + j)%nat with (p2 + S j)%nat by lia.
Qed.

Lemma resume_rng_ok (rng : nat → rand) (n : Z) (k0 : nat) :
  2 ≤ n → rng_ok rng → rng_ok (resume_rng rng n k0).
Proof.
  intros Hn Hrng p. unfold resume_rng.
  destruct (_ <? _)%nat; [apply Hrng | by apply lucky_rng_ok].
Qed.

Lemma resume_round (rng : nat → rand) (n : Z) (k0 : nat) :
  2 ≤ n → round_accepted (resume_rng rng n k0) n k0 = true.
Proof.
  intros Hn. unfold round_accepted, round_board.
  assert ((fisherYates (resume_rng rng n k0) (k0 * Z.to_nat (n * n - 1))
             (makeSolved n)).1
          = (fisherYates (lucky_rng n) 0 (makeSolved n)).1) as ->.
  { apply shuffle_loop_ext. intros j _. unfold resume_rng.
    destruct (Nat.ltb_spec (k0 * Z.to_nat (n * n - 1) + j)
                (k0 * Z.to_nat (n * n - 1))); [lia|].
    f_equal. lia. }
  rewrite fisherYates_lucky by done. by apply near_solved_accepted.
Qed.

(** C4.  For every [n >= 2] and every source of random numbers:
    whatever [shuffleToSolvable(n)] returns has length [n * n], is a
    permutation of [0 .. n*n - 1], passes [isSolvable] for dimension
    [n] and is not the solved board; the loop returns as soon as a
    round produces such a board; and after any number of rounds there
    are draws with which the next round does so, and the loop
    returns. *)
Theorem shuffleToSolvable_spec (n : Z) (rng : nat → rand) :
  2 ≤ n → rng_ok rng →
  (∀ fuel arr, shuffleToSolvable fuel rng n = Some arr →
     len arr = n * n ∧ wf_board n arr ∧ isSolvable arr n = true
     ∧ isSolved arr = false ∧ arr ≠ makeSolved n)
  ∧ (∀ k, round_accepted rng n k = true →
       ∃ arr, shuffleToSolvable (S k) rng n = Some arr)
  ∧ (∀ k0, ∃ rng',
       rng_ok rng'
       ∧ (∀ p, (p < k0 * Z.to_nat (n * n - 1))%nat → rng' p = rng p)
       ∧ ∃ arr, shuffleToSolvable (S k0) rng' n = Some arr).
Proof.
  intros Hn Hrng. split_and!.
  - intros fuel arr H.
    apply shuffleToSolvable_from_Some in H as (Hwf & Hs & Hd); [|lia].
    split_and!; try done.
    + rewrite (wf_board_len n) by done. nia.
    + intros ->. rewrite isSolved_makeSolved in Hd by lia. done.
  - intros k Hk.
    apply (shuffleToSolvable_from_accepted (S k) rng n 0 k); [lia | done].
  - intros k0. exists (resume_rng rng n k0). split_and!.
    + by apply resume_rng_ok.
    + intros p Hp. unfold resume_rng.
      destruct (Nat.ltb_spec p (k0 * Z.to_nat (n * n - 1))); [done | lia].
    + apply (shuffleToSolvable_from_accepted (S k0) _ n 0 k0); [lia|].
      by apply resume_round.
Qed.

Lemma shuffleToSolvable_spec_witness :
  (∀ fuel arr, shuffleToSolvable fuel (lucky_rng 3) 3 = Some arr →
     len arr = 3 * 3 ∧ wf_board 3 arr ∧ isSolvable arr 3 = true
     ∧ isSolved arr = false ∧ arr ≠ makeSolved 3)
  ∧ (∀ k, round_accepted (lucky_rng 3) 3 k = true →
       ∃ arr, shuffleToSolvable (S k) (lucky_rng 3) 3 = Some arr)
  ∧ (∀ k0, ∃ rng',
       rng_ok rng'
       ∧ (∀ p, (p < k0 * Z.to_nat (3 * 3 - 1))%nat → rng' p = lucky_rng 3 p)
       ∧ ∃ arr, shuffleToSolvable (S k0) rng' 3 = Some arr).
Proof.
  apply (shuffleToSolvable_spec 3 (lucky_rng 3)).
  - lia.
  - intros [|k]; unfold rand_ok; simpl; lia.
Defined.

(** ** The engine as a transition system *)

Lemma handleTileClick_cases (s : state) (i : Z) :
  (clickAccepted s i = false ∧ handleTileClick s i = s)
  ∨ (clickAccepted s i = true ∧ handleTileClick s i = acceptedState s i).
Proof.
  unfold clickAccepted, handleTileClick, acceptedState.
  destruct (running s); simpl; [|by left].
  destruct (canSwap _ _ _); [by right | by left].
Qed.

Lemma tiles_acceptedState (s : state) (i : Z) :
  tiles (acceptedState s i) = swap (tiles s) i (indexOf (tiles s) 0).
Proof. unfold acceptedState. by destruct (isSolved _). Qed.

Lemma moves_acceptedState (s : state) (i : Z) :
  moves (acceptedState s i) = moves s + 1.
Proof. unfold acceptedState. by destruct (isSolved _). Qed.

Lemma size_acceptedState (s : state) (i : Z) :
  size (acceptedState s i) = size s.
Proof. unfold acceptedState. by destruct (isSolved _). Qed.

(** On a board, the target that a direction computes is the index of a
    tile whenever it is inside the grid. *)
Lemma moveByDirection_cases (s : state) (direction : string) :
  1 ≤ size s → wf_board (size s) (tiles s) →
  moveByDirection s direction = s
  ∨ ∃ i, 0 ≤ i < len (tiles s)
         ∧ moveByDirection s direction = handleTileClick s i.
Proof.
  intros Hn Hwf. unfold moveByDirection.
  set (tr := if String.eqb direction "down" then _ else _).
  set (tc := if String.eqb direction "right" then _ else _).
  destruct (Z.ltb_spec tr 0); [by left|].
  destruct (Z.leb_spec (size s) tr); [by left|].
  destruct (Z.ltb_spec tc 0); [by left|].
  destruct (Z.leb_spec (size s) tc); [by left|].
  right. exists (posToIndex (size s) tr tc). split; [|done].
  rewrite (wf_board_len (size s)) by done. unfold posToIndex. nia.
Qed.

(** [moveByDirection] in one step: the target is the position of the
    blank moved by [directionDelta]. *)
Lemma moveByDirection_delta (s : state) (direction : string) :
  let p := indexToPos (size s) (indexOf (tiles s) 0) in
  let tr := r p + (directionDelta direction).1 in
  let tc := c p + (directionDelta direction).2 in
  moveByDirection s direction
  = if inGrid (size s) tr tc
    then handleTileClick s (posToIndex (size s) tr tc) else s.
Proof.
  intros p tr tc. subst tr tc. unfold moveByDirection, directionDelta, inGrid.
  fold p.
  destruct (String.eqb_spec direction "up") as [->|Hu]; simpl.
  { replace (r p + -1) with (r p - 1) by lia. rewrite Z.add_0_r. zcases. }
  destruct (String.eqb_spec direction "down") as [->|Hd]; simpl.
  { rewrite Z.add_0_r. zcases. }
  destruct (String.eqb_spec direction "left") as [->|Hl]; simpl.
  { replace (c p + -1) with (c p - 1) by lia. rewrite Z.add_0_r. zcases. }
  destruct (String.eqb_spec direction "right") as [->|Hr]; simpl.
  { rewrite Z.add_0_r. zcases. }
  rewrite !Z.add_0_r. zcases.
Qed.

(** ** The registered listener *)

(** The handlers of a render [s], run on a state [cur]. *)
Lemma handleTileClick_of_cases (s cur : state) (i : Z) :
  (clickAccepted s i = false ∧ handleTileClick_of s cur i = None)
  ∨ (clickAccepted s i = true
     ∧ handleTileClick_of s cur i = Some (acceptedBy s cur i)).
Proof.
  unfold clickAccepted, handleTileClick_of, acceptedBy.
  destruct (running s); simpl; [|by left].
  destruct (canSwap _ _ _); [by right | by left].
Qed.

Lemma tiles_acceptedBy (s cur : state) (i : Z) :
  tiles (acceptedBy s cur i) = swap (tiles s) i (indexOf (tiles s) 0).
Proof. unfold acceptedBy. by destruct (isSolved _). Qed.

Lemma moves_acceptedBy (s cur : state) (i : Z) :
  moves (acceptedBy s cur i) = moves cur + 1.
Proof. unfold acceptedBy. by destruct (isSolved _). Qed.

Lemma size_acceptedBy (s cur : state) (i : Z) :
  size (acceptedBy s cur i) = size cur.
Proof. unfold acceptedBy. by destruct (isSolved _). Qed.

Lemma time_acceptedBy (s cur : state) (i : Z) :
  time (acceptedBy s cur i) = time cur.
Proof. unfold acceptedBy. by destruct (isSolved _). Qed.

(** For the handlers of the latest render the two forms agree. *)
Lemma handleTileClick_of_same (s : state) (i : Z) :
  handleTileClick s i = default s (handleTileClick_of s s i).
Proof.
  unfold handleTileClick, handleTileClick_of.
  destruct (running s); simpl; [|done].
  by destruct (canSwap _ _ _).
Qed.

Lemma moveByDirection_of_delta (s cur : state) (direction : string) :
  let p := indexToPos (size s) (indexOf (tiles s) 0) in
  let tr := r p + (directionDelta direction).1 in
  let tc := c p + (directionDelta direction).2 in
  moveByDirection_of s cur direction
  = if inGrid (size s) tr tc
    then handleTileClick_of s cur (posToIndex (size s) tr tc) else None.
Proof.
  intros p tr tc. subst tr tc.
  unfold moveByDirection_of, directionDelta, inGrid. fold p.
  destruct (String.eqb_spec direction "up") as [->|Hu]; simpl.
  { replace (r p + -1) with (r p - 1) by lia. rewrite Z.add_0_r. zcases. }
  destruct (String.eqb_spec direction "down") as [->|Hd]; simpl.
  { rewrite Z.add_0_r. zcases. }
  destruct (String.eqb_spec direction "left") as [->|Hl]; simpl.
  { replace (c p + -1) with (c p - 1) by lia. rewrite Z.add_0_r. zcases. }
  destruct (String.eqb_spec direction "right") as [->|Hr]; simpl.
  { rewrite Z.add_0_r. zcases. }
  rewrite !Z.add_0_r. zcases.
Qed.

Lemma moveByDirection_of_same (s : state) (direction : string) :
  moveByDirection s direction = default s (moveByDirection_of s s direction).
Proof.
  pose proof (moveByDirection_delta s direction) as E1.
  pose proof (moveByDirection_of_delta s s direction) as E2.
  cbv zeta in E1, E2. rewrite E1, E2.
  destruct (inGrid _ _ _); [apply handleTileClick_of_same | done].
Qed.

Lemma onKey_of_same (s : state) (key : string) :
  onKey s key = default s (onKey_of s s key).
Proof.
  unfold onKey, onKey_of. destruct (running s); simpl; [|done].
  destruct (keyMap key); [apply moveByDirection_of_same | done].
Qed.

Lemma moveByDirection_of_cases (s cur : state) (direction : string) :
  1 ≤ size s → wf_board (size s) (tiles s) →
  moveByDirection_of s cur direction = None
  ∨ ∃ i, 0 ≤ i < len (tiles s)
         ∧ moveByDirection_of s cur direction = handleTileClick_of s cur i.
Proof.
  intros Hn Hwf. unfold moveByDirection_of.
  set (tr := if String.eqb direction "down" then _ else _).
  set (tc := if String.eqb direction "right" then _ else _).
  destruct (Z.ltb_spec tr 0); [by left|].
  destruct (Z.leb_spec (size s) tr); [by left|].
  destruct (Z.ltb_spec tc 0); [by left|].
  destruct (Z.leb_spec (size s) tc); [by left|].
  right. exists (posToIndex (size s) tr tc). split; [|done].
  rewrite (wf_board_len (size s)) by done. unfold posToIndex. nia.
Qed.

(** The render whose handler receives an input agrees with the state
    wherever a listener in step does. *)
Lemma closureOf_synced (p : page) (inp : input) :
  listenerSynced p →
  tiles (closureOf p inp) = tiles (current p)
  ∧ running (closureOf p inp) = running (current p)
  ∧ size (closureOf p inp) = size (current p)
  ∧ highScores (closureOf p inp) = highScores (current p).
Proof. intros Hs. destruct inp; [done | apply Hs]. Qed.

(** An input leaves the page as it was, or is an accepted move of the
    handler that received it. *)
Lemma handleInput_cases_any (p : page) (inp : input) :
  handleInput p inp = p
  ∨ ∃ i, clickAccepted (closureOf p inp) i = true
         ∧ handleInput p inp
           = Page (acceptedBy (closureOf p inp) (current p) i)
               (acceptedBy (closureOf p inp) (current p) i).
Proof.
  assert (∀ s i, match handleTileClick_of s (current p) i with
                 | Some st => Page st st
                 | None => p
                 end = p
                 ∨ ∃ j, clickAccepted s j = true
                        ∧ match handleTileClick_of s (current p) i with
                          | Some st => Page st st
                          | None => p
                          end
                          = Page (acceptedBy s (current p) j)
                              (acceptedBy s (current p) j)) as Hclick.
  { intros s i.
    destruct (handleTileClick_of_cases s (current p) i) as [[_ ->]|[Ha ->]];
      [by left | right; by exists i]. }
  destruct inp as [i|key]; unfold handleInput; simpl; [apply Hclick|].
  unfold onKey_of. destruct (running (listener p)); simpl; [|by left].
  destruct (keyMap key) as [direction|]; [|by left].
  pose proof (moveByDirection_of_delta (listener p) (current p) direction)
    as E.
  cbv zeta in E. rewrite E. destruct (inGrid _ _ _); [apply Hclick | by left].
Qed.

Lemma handleInput_cases (p : page) (inp : input) :
  1 ≤ size (current p) → wf_board (size (current p)) (tiles (current p)) →
  listenerSynced p → rendered (current p) inp →
  handleInput p inp = p
  ∨ ∃ i, 0 ≤ i < len (tiles (current p))
         ∧ clickAccepted (current p) i = true
         ∧ handleInput p inp
           = Page (acceptedBy (closureOf p inp) (current p) i)
               (acceptedBy (closureOf p inp) (current p) i).
Proof.
  intros Hn Hwf Hsync Hr.
  destruct (closureOf_synced p inp Hsync) as (Ht & Hrn & Hs & _).
  assert (∀ i, clickAccepted (closureOf p inp) i
               = clickAccepted (current p) i) as Hacc.
  { intros i. unfold clickAccepted. by rewrite Ht, Hrn, Hs. }
  assert (∀ i, 0 ≤ i < len (tiles (current p)) →
            match handleTileClick_of (closureOf p inp) (current p) i with
            | Some st => Page st st
            | None => p
            end = p
            ∨ ∃ j, 0 ≤ j < len (tiles (current p))
                   ∧ clickAccepted (current p) j = true
                   ∧ match handleTileClick_of (closureOf p inp) (current p) i
                     with
                     | Some st => Page st st
                     | None => p
                     end
                     = Page (acceptedBy (closureOf p inp) (current p) j)
                         (acceptedBy (closureOf p inp) (current p) j))
    as Hclick.
  { intros i Hi.
    destruct (handleTileClick_of_cases (closureOf p inp) (current p) i)
      as [[_ ->]|[Ha ->]]; [by left|].
    right. exists i. by rewrite <- Hacc. }
  destruct inp as [i|key]; unfold handleInput; simpl in *; [by apply Hclick|].
  unfold onKey_of. destruct (running (listener p)); simpl; [|by left].
  destruct (keyMap key) as [direction|]; [|by left].
  destruct (moveByDirection_of_cases (listener p) (current p) direction)
    as [->|(i & Hi & ->)]; [by rewrite Hs | by rewrite Hs, Ht | by left|].
  apply Hclick. by rewrite <- Ht.
Qed.

Lemma wf_board_one_blank (n : Z) (arr : list Z) :
  n ≠ 0 → wf_board n arr → length (filter (λ v, v = 0) arr) = 1%nat.
Proof.
  intros Hn Hwf. assert (0 < n * n) by nia. unfold wf_board in Hwf.
  rewrite Hwf. rewrite (seqZ_cons 0 (n * n)) by lia.
  rewrite filter_cons_True by done. simpl. f_equal.
  apply length_zero_iff_nil. apply elem_of_nil_inv.
  intros x [-> Hx%elem_of_seqZ]%list_elem_of_filter. lia.
Qed.

(** C10.  For every dimension [n], every board reached by generation
    with [shuffleToSolvable(n)] followed by any sequence of clicks and
    keys, accepted or not, has length [n * n], is a permutation of
    [0 .. n*n - 1] and holds exactly one blank. *)
Theorem board_reachable_wf (n : Z) (arr : list Z) :
  1 ≤ n → board_reachable n arr →
  wf_board n arr ∧ len arr = n * n
  ∧ length (filter (λ v, v = 0) arr) = 1%nat.
Proof.
  intros Hn Hr.
  assert (wf_board n arr) as Hwf.
  { induction Hr as [fuel rng arr Hrng Hgen|p inp Hsz Hsync Hr IH Hrend].
    - apply shuffleToSolvable_from_Some in Hgen as (Hwf & _); [done | lia].
    - subst n.
      destruct (closureOf_synced p inp Hsync) as (Ht & _).
      destruct (handleInput_cases p inp Hn IH Hsync Hrend)
        as [->|(i & _ & _ & ->)]; [done|].
      simpl. rewrite tiles_acceptedBy, Ht. by apply wf_board_swap. }
  split_and!; [done | |].
  - rewrite (wf_board_len n) by done. nia.
  - apply (wf_board_one_blank n); [lia | done].
Qed.

Lemma board_reachable_wf_witness :
  wf_board 3 [1; 2; 3; 4; 5; 6; 7; 0; 8]
  ∧ len [1; 2; 3; 4; 5; 6; 7; 0; 8] = 3 * 3
  ∧ length (filter (λ v, v = 0) [1; 2; 3; 4; 5; 6; 7; 0; 8]) = 1%nat.
Proof.
  apply (board_reachable_wf 3 [1; 2; 3; 4; 5; 6; 7; 0; 8]).
  - lia.
  - apply (reach_generate 3 1 (lucky_rng 3)).
    + intros [|k]; unfold rand_ok; simpl; lia.
    + reflexivity.
Defined.

(** ** Moves that change the board *)

Lemma canSwap_irrefl (n i : Z) : canSwap n i i = false.
Proof.
  unfold canSwap. simpl. rewrite !Z.sub_diag. done.
Qed.

(** An accepted click is a legal move of the board. *)
Lemma handleTileClick_legal_move (s : state) (i : Z) :
  0 ≤ i < len (tiles s) → clickAccepted s i = true →
  legal_move (size s) (tiles s) (tiles (handleTileClick s i)).
Proof.
  intros Hi Ha. exists i.
  destruct (handleTileClick_cases s i) as [[E _]|[_ ->]]; [congruence|].
  unfold clickAccepted in Ha. apply andb_true_iff in Ha as [_ Hcan].
  by rewrite tiles_acceptedState.
Qed.

(** An accepted click changes the board. *)
Lemma swap_changes (n : Z) (arr : list Z) (i : Z) :
  1 ≤ n → wf_board n arr → 0 ≤ i < len arr →
  canSwap n i (indexOf arr 0) = true →
  swap arr i (indexOf arr 0) ≠ arr.
Proof.
  intros Hn Hwf Hi Hcan Heq.
  destruct (wf_board_blank n arr) as [Hb Hgb]; [lia | done |].
  assert (len arr = n * n) as Hlen by (rewrite (wf_board_len n) by done; nia).
  pose proof (arr_get_swap arr i (indexOf arr 0) (indexOf arr 0)) as Hs.
  rewrite Heq, Z.eqb_refl, Hgb in Hs. symmetry in Hs.
  apply indexOf_unique in Hs; [|by eapply wf_board_NoDup | lia..].
  rewrite Hs, canSwap_irrefl in Hcan. done.
Qed.

(** So the clicks that change the board are the accepted ones. *)
Lemma click_changes_board (s : state) (i : Z) :
  1 ≤ size s → wf_board (size s) (tiles s) → 0 ≤ i < len (tiles s) →
  clickAccepted s i = true ↔ tiles (handleTileClick s i) ≠ tiles s.
Proof.
  intros Hn Hwf Hi.
  destruct (handleTileClick_cases s i) as [[Ha ->]|[Ha ->]]; rewrite Ha.
  - split; [done | intros H; by destruct H].
  - split; [|done]. intros _. rewrite tiles_acceptedState.
    unfold clickAccepted in Ha. apply andb_true_iff in Ha as [_ Hcan].
    by apply (swap_changes (size s)).
Qed.

(** The pages of the engine: the counter counts the moves that
    changed the board, the board fits the level, each level has its
    entry in the table of best scores, and the registered listener is
    in step with the state. *)
Lemma engine_invariant (k : Z) (p : page) :
  engine k p →
  moves (current p) = k
  ∧ wf_board (size (current p)) (tiles (current p))
  ∧ size (current p) ∈ [3; 4; 5]
  ∧ (∀ n, n ∈ [3; 4; 5] → is_Some (highScores (current p) !! n))
  ∧ listenerSynced p.
Proof.
  assert (∀ n : Z, n ∈ [3; 4; 5] → 1 ≤ n) as Hsize.
  { intros n Hn%list_elem_of_In. simpl in Hn. lia. }
  induction 1 as [fuel rng s Hrng Hreset
                 |k p inp He IH Hrend
                 |k p fuel rng p' He IH Hrng Hstart
                 |k p fuel rng p' He IH Hrng Hrestart
                 |k p n fuel rng p' He IH Hrng Hn Hsel
                 |k p He IH].
  - unfold resetBoard in Hreset.
    destruct (shuffleToSolvable fuel rng 4) as [arr|] eqn:Hgen; [|done].
    injection Hreset as <-. simpl.
    apply shuffleToSolvable_from_Some in Hgen as (Hwf & _); [|lia].
    split_and!; [done | done | set_solver | | done].
    intros n Hn. unfold initialHighScores.
    apply list_elem_of_In in Hn. simpl in Hn.
    destruct Hn as [<-|[<-|[<-|[]]]]; by eexists.
  - destruct IH as (Hm & Hwf & Hsz & Hhs & Hsync).
    destruct (closureOf_synced p inp Hsync) as (Ht & _ & Hs & _).
    destruct (handleInput_cases p inp (Hsize _ Hsz) Hwf Hsync Hrend)
      as [->|(i & Hi & Ha & ->)].
    + rewrite decide_True by done. done.
    + simpl.
      rewrite tiles_acceptedBy, moves_acceptedBy, size_acceptedBy, Ht.
      unfold clickAccepted in Ha. apply andb_true_iff in Ha as [_ Hcan].
      rewrite decide_False by by apply (swap_changes (size (current p))); auto.
      split_and!; [lia | by apply wf_board_swap | done | | done].
      intros n Hn. unfold acceptedBy.
      destruct (isSolved _); simpl; [|by apply Hhs].
      destruct (betterScore _ _ _); [|by apply Hhs].
      apply lookup_insert_is_Some'. right. by apply Hhs.
  - destruct IH as (Hm & Hwf & Hsz & Hhs & Hsync).
    destruct Hsync as (Ht & Hr & Hs & Hh).
    unfold pressStart, startGame in Hstart.
    destruct (isSolved (tiles (current p))) eqn:Ed.
    + destruct (shuffleToSolvable fuel rng (size (current p))) as [arr|]
        eqn:Hgen; [|done].
      injection Hstart as <-. simpl.
      apply shuffleToSolvable_from_Some in Hgen as (Hwf' & _);
        [done | specialize (Hsize _ Hsz); lia].
    + injection Hstart as <-. simpl.
      destruct (running (current p)) eqn:Er; simpl; done.
  - destruct IH as (Hm & Hwf & Hsz & Hhs & Hsync).
    unfold pressRestart, restart, resetBoard in Hrestart.
    destruct (shuffleToSolvable fuel rng (size (current p))) as [arr|]
      eqn:Hgen; [|done].
    injection Hrestart as <-. simpl.
    apply shuffleToSolvable_from_Some in Hgen as (Hwf' & _);
      [done | specialize (Hsize _ Hsz); lia].
  - destruct IH as (Hm & Hwf & Hsz & Hhs & Hsync).
    unfold pressLevel, selectSize in Hsel.
    destruct (Z.eqb_spec n (size (current p))) as [->|Hne].
    + by injection Hsel as <-.
    + unfold resetBoard in Hsel.
      destruct (shuffleToSolvable fuel rng n) as [arr|] eqn:Hgen; [|done].
      injection Hsel as <-. simpl.
      apply shuffleToSolvable_from_Some in Hgen as (Hwf' & _);
        [done | specialize (Hsize _ Hn); lia].
  - destruct IH as (Hm & Hwf & Hsz & Hhs & Ht & Hr & Hs & Hh).
    unfold timerTick, tick, listenerSynced. simpl.
    destruct (running (current p)) eqn:Er; simpl; rewrite ?Er; done.
Qed.

(** * Every board that passes the test can be solved *)

(** ** The boustrophedon path *)

Lemma div_row (n row j : Z) :
  0 ≤ j < n → (row * n + j) `div` n = row.
Proof. intros Hj. symmetry. apply (Z.div_unique _ n row j); lia. Qed.

Lemma mod_row (n row j : Z) :
  0 ≤ j < n → (row * n + j) `mod` n = j.
Proof. intros Hj. symmetry. apply (Z.mod_unique _ n row j); lia. Qed.

Lemma sn_eval (n row j : Z) :
  0 ≤ j < n →
  sn n (row * n + j)
  = if Z.even row then row * n + j else row * n + (n - 1 - j).
Proof.
  intros Hj. unfold sn. cbv zeta. by rewrite div_row, mod_row by done.
Qed.

(** Every index is a place in some row. *)
Lemma row_split (n p : Z) :
  0 < n → ∃ row j, p = row * n + j ∧ 0 ≤ j < n ∧ row = p `div` n.
Proof.
  intros Hn. exists (p `div` n), (p `mod` n).
  pose proof (Z.div_mod p n ltac:(lia)).
  pose proof (Z.mod_pos_bound p n Hn). split_and!; lia.
Qed.

Lemma row_bounds (n row j : Z) :
  0 < n → 0 ≤ j < n → 0 ≤ row * n + j < n * n ↔ 0 ≤ row < n.
Proof. intros Hn Hj. nia. Qed.

Lemma sn_range (n p : Z) :
  0 < n → 0 ≤ p < n * n → 0 ≤ sn n p < n * n.
Proof.
  intros Hn Hp. destruct (row_split n p Hn) as (row & j & -> & Hj & _).
  apply row_bounds in Hp; [|done..].
  rewrite sn_eval by done. destruct (Z.even row); nia.
Qed.

Lemma sn_involutive (n p : Z) : 0 < n → sn n (sn n p) = p.
Proof.
  intros Hn. destruct (row_split n p Hn) as (row & j & -> & Hj & _).
  rewrite sn_eval by done. destruct (Z.even row) eqn:E.
  - by rewrite sn_eval, E.
  - rewrite sn_eval, E by lia. lia.
Qed.

Lemma sn_inj (n p q : Z) : 0 < n → sn n p = sn n q → p = q.
Proof.
  intros Hn H. by rewrite <- (sn_involutive n p), H, sn_involutive.
Qed.

Lemma len_snake (n : Z) (s : list Z) : len (snake n s) = len s.
Proof.
  unfold snake, len. rewrite length_fmap, length_seqZ. lia.
Qed.

Lemma arr_get_snake (n : Z) (s : list Z) (i : Z) :
  0 < n → len s = n * n → 0 ≤ i < n * n →
  arr_get (snake n s) i = arr_get s (sn n i).
Proof.
  intros Hn Hlen Hi. unfold snake.
  destruct (arr_get_is_Some s (sn n i)) as [x Hx].
  { rewrite Hlen. by apply sn_range. }
  unfold arr_get at 1. destruct (Z.ltb_spec i 0); [lia|].
  rewrite list_lookup_fmap, lookup_seqZ_lt by lia.
  rewrite Z2Nat.id, Z.add_0_l by lia.
  change (Some (default 0 (arr_get s (sn n i))) = arr_get s (sn n i)).
  by rewrite Hx.
Qed.

Lemma snake_involutive (n : Z) (s : list Z) :
  0 < n → len s = n * n → snake n (snake n s) = s.
Proof.
  intros Hn Hlen. apply arr_eq. intros i.
  destruct (decide (0 ≤ i < n * n)) as [Hi|Hi].
  - rewrite arr_get_snake by (rewrite ?len_snake; done).
    rewrite arr_get_snake by (try apply sn_range; done).
    by rewrite sn_involutive.
  - rewrite !arr_get_None; [done | lia | rewrite !len_snake; lia].
Qed.

Lemma snake_swap (n : Z) (s : list Z) (p q : Z) :
  0 < n → len s = n * n → 0 ≤ p < n * n → 0 ≤ q < n * n →
  snake n (swap s p q) = swap (snake n s) (sn n p) (sn n q).
Proof.
  intros Hn Hlen Hp Hq. apply arr_eq. intros i.
  pose proof (sn_range n p Hn Hp). pose proof (sn_range n q Hn Hq).
  destruct (decide (0 ≤ i < n * n)) as [Hi|Hi].
  - rewrite arr_get_snake by (rewrite ?len_swap; done).
    rewrite arr_get_swap by lia.
    rewrite arr_get_swap by (rewrite len_snake; lia).
    rewrite !arr_get_snake, !sn_involutive by done.
    destruct (Z.eqb_spec (sn n i) q) as [E|E].
    + rewrite <- E, sn_involutive, Z.eqb_refl by done. done.
    + destruct (Z.eqb_spec i (sn n q)) as [->|_].
      { by rewrite sn_involutive in E. }
      destruct (Z.eqb_spec (sn n i) p) as [E'|E'].
      * rewrite <- E', sn_involutive, Z.eqb_refl by done. done.
      * destruct (Z.eqb_spec i (sn n p)) as [->|_]; [|done].
        by rewrite sn_involutive in E'.
  - rewrite !arr_get_None; [done | |].
    + rewrite len_swap, len_snake. lia.
    + rewrite len_snake, len_swap. lia.
Qed.

Lemma elem_of_arr_get (l : list Z) (x : Z) :
  x ∈ l ↔ ∃ i, arr_get l i = Some x.
Proof.
  split.
  - intros [k Hk]%list_elem_of_lookup_1. exists (Z.of_nat k).
    by rewrite arr_get_nat.
  - intros [i Hi]. by eapply arr_get_elem.
Qed.

Lemma NoDup_arr_get (l : list Z) :
  (∀ i j x, arr_get l i = Some x → arr_get l j = Some x → i = j) →
  NoDup l.
Proof.
  intros H. apply NoDup_alt. intros i j x Hi Hj.
  rewrite <- arr_get_nat in Hi, Hj. pose proof (H _ _ _ Hi Hj). lia.
Qed.

Lemma arr_get_NoDup (l : list Z) (i j x : Z) :
  NoDup l → arr_get l i = Some x → arr_get l j = Some x → i = j.
Proof.
  intros Hnd Hi Hj.
  apply (indexOf_unique l i x Hnd) in Hi.
  apply (indexOf_unique l j x Hnd) in Hj. lia.
Qed.

(** Reading along the path rearranges the cells. *)
Lemma snake_Permutation (n : Z) (s : list Z) :
  0 < n → len s = n * n → NoDup s → snake n s ≡ₚ s.
Proof.
  intros Hn Hlen Hnd.
  assert (∀ i x, arr_get (snake n s) i = Some x →
                 0 ≤ i < n * n ∧ arr_get s (sn n i) = Some x) as Hget.
  { intros i x Hi. pose proof (arr_get_Some _ _ _ Hi) as Hr.
    rewrite len_snake, Hlen in Hr. by rewrite arr_get_snake in Hi. }
  apply NoDup_Permutation; [|done|].
  - apply NoDup_arr_get. intros i j x Hi Hj.
    apply Hget in Hi as [_ Hi]. apply Hget in Hj as [_ Hj].
    apply (sn_inj n); [done|]. by eapply arr_get_NoDup.
  - intros x. rewrite !elem_of_arr_get. split.
    + intros [i Hi]. apply Hget in Hi as [_ Hi]. by eexists.
    + intros [i Hi]. pose proof (arr_get_Some _ _ _ Hi) as Hr.
      rewrite Hlen in Hr. exists (sn n i).
      rewrite arr_get_snake, sn_involutive by (try apply sn_range; done).
      done.
Qed.

Lemma wf_board_snake (n : Z) (s : list Z) :
  0 < n → wf_board n s → wf_board n (snake n s).
Proof.
  intros Hn Hwf. unfold wf_board.
  rewrite snake_Permutation; [done | done | | by eapply wf_board_NoDup].
  rewrite (wf_board_len n) by done. nia.
Qed.

(** Neighbours along the path are neighbours in the grid, and so are
    the two cells of a column in consecutive rows. *)
Lemma sn_next (n p : Z) :
  0 < n → manhattan n (sn n (p + 1)) (sn n p) = 1 ∨ ¬ (0 ≤ p ∧ p + 1 < n * n).
Proof.
  intros Hn. destruct (decide (0 ≤ p ∧ p + 1 < n * n)) as [Hp|]; [|by right].
  left. destruct (row_split n p Hn) as (row & j & -> & Hj & _).
  assert (0 ≤ row < n) as Hrow by nia.
  destruct (decide (j = n - 1)) as [->|Hne].
  - replace (row * n + (n - 1) + 1) with ((row + 1) * n + 0) by lia.
    rewrite !sn_eval by lia.
    replace (row + 1) with (Z.succ row) by lia. rewrite Z.even_succ.
    rewrite <- Z.negb_even.
    apply manhattan_1_cases; [lia | destruct (Z.even row); simpl; nia..|].
    right. right. left. destruct (Z.even row); simpl; lia.
  - replace (row * n + j + 1) with (row * n + (j + 1)) by lia.
    rewrite !sn_eval by lia.
    apply manhattan_1_cases; [lia | destruct (Z.even row); nia..|].
    destruct (Z.even row).
    + left. split; [lia|]. rewrite mod_row by lia. lia.
    + right. left. split; [lia|]. rewrite mod_row by lia. lia.
Qed.

Lemma sn_hop (n row j : Z) :
  0 < n → 0 ≤ row → row + 1 < n → 0 ≤ j < n →
  manhattan n (sn n ((row + 1) * n + (n - 1 - j))) (sn n (row * n + j)) = 1.
Proof.
  intros Hn Hrow Hrow' Hj. rewrite !sn_eval by lia.
  replace (row + 1) with (Z.succ row) at 1 by lia. rewrite Z.even_succ.
  rewrite <- Z.negb_even.
  apply manhattan_1_cases; [lia | destruct (Z.even row); simpl; nia..|].
  right. right. left. destruct (Z.even row); simpl; lia.
Qed.

(** ** Moves along the path *)

Lemma manhattan_sym (n i j : Z) : manhattan n i j = manhattan n j i.
Proof. unfold manhattan. lia. Qed.

(** Exchanging the blank with a cell of the path whose grid cell is
    adjacent is a legal move of the board. *)
Lemma snake_exchange (n : Z) (s : list Z) (p q : Z) :
  0 < n → wf_board n s → arr_get s p = Some 0 → 0 ≤ q < n * n →
  manhattan n (sn n q) (sn n p) = 1 →
  legal_move n (snake n s) (snake n (swap s p q)).
Proof.
  intros Hn Hwf Hp Hq Hman.
  assert (len s = n * n) as Hlen by (rewrite (wf_board_len n) by done; nia).
  pose proof (arr_get_Some _ _ _ Hp) as Hpr. rewrite Hlen in Hpr.
  pose proof (sn_range n p Hn Hpr). pose proof (sn_range n q Hn Hq).
  assert (indexOf (snake n s) 0 = sn n p) as Hb.
  { apply indexOf_unique.
    - by eapply wf_board_NoDup, wf_board_snake.
    - by rewrite arr_get_snake, sn_involutive. }
  exists (sn n q). rewrite Hb, len_snake. split; [lia|]. split.
  - apply canSwap_manhattan; [lia..|done].
  - rewrite swap_comm. by apply snake_swap.
Qed.

Lemma swap_adjacent (a b : list Z) (x y : Z) :
  swap (a ++ x :: y :: b) (len a) (len a + 1) = a ++ y :: x :: b.
Proof.
  pose proof (swap_middle a [] b x y) as H.
  by replace (len a + 1 + len []) with (len a + 1) in H by len_lia.
Qed.

Lemma arr_get_adjacent (a b : list Z) (x y : Z) :
  arr_get (a ++ x :: y :: b) (len a + 1) = Some y.
Proof.
  pose proof (arr_get_middle2 a [] b x y) as H.
  by replace (len a + 1 + len []) with (len a + 1) in H by len_lia.
Qed.

Lemma sstep_legal (n : Z) (s s' : list Z) :
  0 < n → wf_board n s → sstep n s s' →
  legal_move n (snake n s) (snake n s').
Proof.
  intros Hn Hwf Hs.
  assert (len s = n * n) as Hlen by (rewrite (wf_board_len n) by done; nia).
  destruct Hs as [a t b|a t b|a mid t b row j Ha Hrow Hj Hm
                 |a mid t b row j Ha Hrow Hj Hm].
  - rewrite <- (swap_adjacent a b 0 t).
    apply snake_exchange; [done | done | apply arr_get_middle | len_lia |].
    destruct (sn_next n (len a) Hn) as [H|H]; [done|].
    exfalso; apply H; len_lia.
  - rewrite <- (swap_adjacent a b t 0), swap_comm.
    apply snake_exchange;
      [done | done | apply arr_get_adjacent | len_lia |].
    destruct (sn_next n (len a) Hn) as [H|H]; [|exfalso; apply H; len_lia].
    by rewrite manhattan_sym.
  - rewrite <- (swap_middle a mid b 0 t).
    apply snake_exchange; [done | done | apply arr_get_middle | len_lia |].
    replace (len a + 1 + len mid) with ((row + 1) * n + (n - 1 - j)) by lia.
    rewrite Ha. apply sn_hop; [done | done | | done].
    len_simpl. pose proof (len_nonneg b). nia.
  - rewrite <- (swap_middle a mid b t 0), swap_comm.
    apply snake_exchange; [done | done | apply arr_get_middle2 | len_lia |].
    replace (len a + 1 + len mid) with ((row + 1) * n + (n - 1 - j)) by lia.
    rewrite Ha, manhattan_sym. apply sn_hop; [done | done | | done].
    len_simpl. pose proof (len_nonneg b). nia.
Qed.

(** Lists that are equal up to the bracketing of [++]. *)
Ltac app_eq :=
  repeat first [ rewrite <- app_assoc | rewrite <- app_comm_cons
               | rewrite app_nil_r | rewrite app_nil_l ];
  reflexivity.

Lemma sstep_sym (n : Z) (s s' : list Z) : sstep n s s' → sstep n s' s.
Proof.
  intros [a t b|a t b|a mid t b row j Ha Hrow Hj Hm
         |a mid t b row j Ha Hrow Hj Hm].
  - apply sstep_prev.
  - apply sstep_next.
  - by eapply sstep_hop_back.
  - by eapply sstep_hop.
Qed.

Lemma sreach_sym (n : Z) (s s' : list Z) : sreach n s s' → sreach n s' s.
Proof.
  induction 1 as [|x y z Hxy Hyz IH]; [done|].
  eapply rtc_r; [done|]. by apply sstep_sym.
Qed.

Lemma sreach_trans (n : Z) (s1 s2 s3 : list Z) :
  sreach n s1 s2 → sreach n s2 s3 → sreach n s1 s3.
Proof. apply rtc_trans. Qed.

Lemma sstep_Permutation (n : Z) (s s' : list Z) : sstep n s s' → s' ≡ₚ s.
Proof.
  intros [a t b|a t b|a mid t b row j _ _ _ _|a mid t b row j _ _ _ _].
  - apply Permutation_app_head, Permutation_swap.
  - apply Permutation_app_head, Permutation_swap.
  - apply Permutation_app_head.
    rewrite <- !Permutation_middle. apply Permutation_swap.
  - apply Permutation_app_head.
    rewrite <- !Permutation_middle. apply Permutation_swap.
Qed.

Lemma sstep_wf (n : Z) (s s' : list Z) :
  sstep n s s' → wf_board n s → wf_board n s'.
Proof. unfold wf_board. intros Hs <-. by eapply sstep_Permutation. Qed.

(** Moves along the path are moves of the board. *)
Lemma sreach_moves (n : Z) (s s' : list Z) :
  0 < n → wf_board n s → sreach n s s' →
  rtc (legal_move n) (snake n s) (snake n s').
Proof.
  intros Hn Hwf Hr. induction Hr as [|x y z Hxy Hyz IH]; [done|].
  eapply rtc_l; [by apply sstep_legal|]. apply IH. by eapply sstep_wf.
Qed.

(** The moves do not look at the tiles: renaming them keeps a move a
    move. *)
Lemma len_fmap (f : Z → Z) (l : list Z) : len (f <$> l) = len l.
Proof. unfold len. by rewrite length_fmap. Qed.

Lemma sstep_fmap (n : Z) (f : Z → Z) (s s' : list Z) :
  f 0 = 0 → sstep n s s' → sstep n (f <$> s) (f <$> s').
Proof.
  intros Hf [a t b|a t b|a mid t b row j Ha Hrow Hj Hm
            |a mid t b row j Ha Hrow Hj Hm];
    rewrite ?fmap_app, ?fmap_cons, ?fmap_app, ?fmap_cons, ?Hf.
  - apply sstep_next.
  - apply sstep_prev.
  - eapply sstep_hop; rewrite ?len_fmap; done.
  - eapply sstep_hop_back; rewrite ?len_fmap; done.
Qed.

Lemma sreach_fmap (n : Z) (f : Z → Z) (s s' : list Z) :
  f 0 = 0 → sreach n s s' → sreach n (f <$> s) (f <$> s').
Proof.
  intros Hf. induction 1 as [|x y z Hxy Hyz IH]; [done|].
  eapply rtc_l; [by apply sstep_fmap|done].
Qed.

(** The blank travels along the path without disturbing the order of
    the tiles. *)
Lemma blank_travel (n : Z) (a b c : list Z) :
  sreach n (a ++ 0 :: b ++ c) (a ++ b ++ 0 :: c).
Proof.
  revert a. induction b as [|t b IH]; intros a; [done|].
  change ((t :: b) ++ c) with (t :: b ++ c).
  eapply rtc_l; [apply (sstep_next n a t (b ++ c))|].
  replace (a ++ t :: 0 :: b ++ c) with ((a ++ [t]) ++ 0 :: b ++ c) by app_eq.
  replace (a ++ (t :: b) ++ 0 :: c) with ((a ++ [t]) ++ b ++ 0 :: c)
    by app_eq.
  apply IH.
Qed.

(** ** Rearranging the tiles *)

Lemma rearr_refl (n : Z) (ts : list Z) : rearr n ts ts.
Proof. unfold rearr, sreach. done. Qed.

Lemma rearr_sym (n : Z) (ts ts' : list Z) : rearr n ts ts' → rearr n ts' ts.
Proof. apply sreach_sym. Qed.

Lemma rearr_trans (n : Z) (ts1 ts2 ts3 : list Z) :
  rearr n ts1 ts2 → rearr n ts2 ts3 → rearr n ts1 ts3.
Proof. apply sreach_trans. Qed.

(** A hop of the blank carries one tile over an even number of
    others: when the hop starts at place [j] of a row, over
    [2 * (n - 1 - j)] of them. *)
Lemma rearr_hop (n : Z) (a mid b : list Z) (t row j : Z) :
  len a = row * n + j → 0 ≤ row → 0 ≤ j < n → len mid = 2 * (n - 1 - j) →
  rearr n (a ++ mid ++ t :: b) (a ++ t :: mid ++ b).
Proof.
  intros Ha Hrow Hj Hm. unfold rearr.
  apply (sreach_trans n _ (a ++ 0 :: mid ++ t :: b)).
  { apply sreach_sym.
    pose proof (blank_travel n a (mid ++ t :: b) []) as H.
    replace (a ++ 0 :: (mid ++ t :: b) ++ []) with (a ++ 0 :: mid ++ t :: b)
      in H by app_eq.
    replace (a ++ (mid ++ t :: b) ++ [0]) with ((a ++ mid ++ t :: b) ++ [0])
      in H by app_eq.
    done. }
  apply (sreach_trans n _ (a ++ t :: mid ++ 0 :: b)).
  { apply rtc_once. by eapply sstep_hop. }
  pose proof (blank_travel n (a ++ t :: mid) b []) as H.
  replace ((a ++ t :: mid) ++ 0 :: b ++ []) with (a ++ t :: mid ++ 0 :: b)
    in H by app_eq.
  replace ((a ++ t :: mid) ++ b ++ [0]) with ((a ++ t :: mid ++ b) ++ [0])
    in H by app_eq.
  done.
Qed.

Lemma rearr_eq (n : Z) (s1 s2 s1' s2' : list Z) :
  rearr n s1 s2 → s1 = s1' → s2 = s2' → rearr n s1' s2'.
Proof. by intros H <- <-. Qed.

(** The hop next to the end of a row turns three consecutive tiles. *)
Lemma rearr_center (n : Z) (a b : list Z) (x y z row : Z) :
  2 ≤ n → 0 ≤ row → len a = row * n + (n - 2) →
  rearr n (a ++ x :: y :: z :: b) (a ++ z :: x :: y :: b).
Proof.
  intros Hn Hrow Ha.
  apply (rearr_hop n a [x; y] b z row (n - 2)); [done | done | lia |].
  change (len [x; y]) with 2. lia.
Qed.

(** The hop at the start of a row turns the [2 * n - 1] tiles of a
    window that starts with the row. *)
Lemma rearr_big (n : Z) (a mid b : list Z) (t row : Z) :
  1 ≤ n → 0 ≤ row → len a = row * n → len mid = 2 * (n - 1) →
  rearr n (a ++ mid ++ t :: b) (a ++ t :: mid ++ b).
Proof.
  intros Hn Hrow Ha Hm.
  apply (rearr_hop n a mid b t row 0); lia.
Qed.

(** Hence such a window can be turned by any amount. *)
Lemma rearr_rot (n : Z) (a w1 w2 b : list Z) (row : Z) :
  1 ≤ n → 0 ≤ row → len a = row * n → len w1 + len w2 = 2 * n - 1 →
  rearr n (a ++ w1 ++ w2 ++ b) (a ++ w2 ++ w1 ++ b).
Proof.
  intros Hn Hrow Ha. revert w1.
  induction w2 as [|t w2 IH] using rev_ind; intros w1 Hw.
  - apply (rearr_eq n (a ++ w1 ++ b) (a ++ w1 ++ b));
      [apply rearr_refl | app_eq..].
  - rewrite len_app in Hw. change (len [t]) with 1 in Hw.
    apply (rearr_trans n _ (a ++ (t :: w1) ++ w2 ++ b)).
    + apply (rearr_eq n (a ++ (w1 ++ w2) ++ t :: b)
               (a ++ t :: (w1 ++ w2) ++ b)); [|app_eq..].
      apply (rearr_big n a (w1 ++ w2) b t row); [done..|].
      rewrite len_app. lia.
    + apply (rearr_eq n (a ++ (t :: w1) ++ w2 ++ b)
               (a ++ w2 ++ (t :: w1) ++ b)); [|app_eq..].
      apply IH. rewrite len_cons. lia.
Qed.

Lemma split_at (l : list Z) (k : Z) :
  0 ≤ k ≤ len l → ∃ l1 l2, l = l1 ++ l2 ∧ len l1 = k.
Proof.
  intros Hk. exists (take (Z.to_nat k) l), (drop (Z.to_nat k) l).
  split; [by rewrite take_drop|].
  unfold len in *. rewrite length_take. lia.
Qed.

(** A place of the tile list lies in a window that starts with a row. *)
Lemma window_of (n i : Z) :
  2 ≤ n → 0 ≤ i → i + 3 ≤ n * n - 1 →
  ∃ row d, 0 ≤ row ≤ n - 2 ∧ i = row * n + d ∧ 0 ≤ d ≤ 2 * n - 4.
Proof.
  intros Hn Hi Hi'. destruct (decide (i < (n - 1) * n)) as [Hlt|Hge].
  - destruct (decide (n = 2)) as [->|Hn2].
    + exists 0, 0. lia.
    + destruct (row_split n i ltac:(lia)) as (row & j & -> & Hj & _).
      exists row, j. nia.
  - exists (n - 2), (i - (n - 2) * n). nia.
Qed.

(** Any three consecutive tiles can be turned. *)
Lemma rearr_three (n : Z) (a b : list Z) (x y z : Z) :
  2 ≤ n → len (a ++ x :: y :: z :: b) = n * n - 1 →
  rearr n (a ++ x :: y :: z :: b) (a ++ z :: x :: y :: b).
Proof.
  intros Hn Hlen. len_simpl.
  pose proof (len_nonneg a) as Ha0. pose proof (len_nonneg b) as Hb0.
  destruct (window_of n (len a)) as (row & d & Hrow & Ha & Hd); [lia..|].
  destruct (split_at a (row * n)) as (A & u & -> & HA); [nia|].
  rewrite len_app in Ha, Hlen.
  destruct (split_at b (2 * n - 4 - d)) as (v & B & -> & Hv); [nia|].
  destruct (decide (n - 2 ≤ d)) as [Hge|Hlt].
  - destruct (split_at u (d - (n - 2))) as (u1 & u2 & -> & Hu1); [lia|].
    rewrite len_app in Ha.
    apply (rearr_trans n _ (A ++ (u2 ++ x :: y :: z :: v) ++ u1 ++ B)).
    { apply (rearr_eq n (A ++ u1 ++ (u2 ++ x :: y :: z :: v) ++ B)
               (A ++ (u2 ++ x :: y :: z :: v) ++ u1 ++ B)); [|app_eq..].
      apply (rearr_rot n A u1 _ B row); [lia | lia | done | len_lia]. }
    apply (rearr_trans n _ (A ++ (u2 ++ z :: x :: y :: v) ++ u1 ++ B)).
    { apply (rearr_eq n ((A ++ u2) ++ x :: y :: z :: v ++ u1 ++ B)
               ((A ++ u2) ++ z :: x :: y :: v ++ u1 ++ B)); [|app_eq..].
      apply (rearr_center n _ _ x y z row); [done | lia | len_lia]. }
    apply (rearr_eq n (A ++ (u2 ++ z :: x :: y :: v) ++ u1 ++ B)
             (A ++ u1 ++ (u2 ++ z :: x :: y :: v) ++ B)); [|app_eq..].
    apply (rearr_rot n A _ u1 B row); [lia | lia | done | len_lia].
  - destruct (split_at v (len v - (n - 2 - d))) as (v1 & v2 & -> & Hv1);
      [lia|].
    rewrite len_app in Hv.
    apply (rearr_trans n _ (A ++ v2 ++ (u ++ x :: y :: z :: v1) ++ B)).
    { apply (rearr_eq n (A ++ (u ++ x :: y :: z :: v1) ++ v2 ++ B)
               (A ++ v2 ++ (u ++ x :: y :: z :: v1) ++ B)); [|app_eq..].
      apply (rearr_rot n A _ v2 B row); [lia | lia | done | len_lia]. }
    apply (rearr_trans n _ (A ++ v2 ++ (u ++ z :: x :: y :: v1) ++ B)).
    { apply (rearr_eq n ((A ++ v2 ++ u) ++ x :: y :: z :: v1 ++ B)
               ((A ++ v2 ++ u) ++ z :: x :: y :: v1 ++ B)); [|app_eq..].
      apply (rearr_center n _ _ x y z row); [done | lia | len_lia]. }
    apply (rearr_eq n (A ++ v2 ++ (u ++ z :: x :: y :: v1) ++ B)
             (A ++ (u ++ z :: x :: y :: v1) ++ v2 ++ B)); [|app_eq..].
    apply (rearr_rot n A v2 _ B row); [lia | lia | done | len_lia].
Qed.

(** ** Sorting the tiles *)

(** Turning three tiles at a time brings any tile to the front of a
    stretch of at least three. *)
Lemma rearr_front (n : Z) (pre u v : list Z) (x : Z) :
  2 ≤ n → len (pre ++ u ++ x :: v) = n * n - 1 → 3 ≤ len (u ++ x :: v) →
  ∃ ts', u ++ v ≡ₚ ts' ∧ rearr n (pre ++ u ++ x :: v) (pre ++ x :: ts').
Proof.
  intros Hn. remember (length u) as m eqn:Hm. revert u v Hm.
  induction m as [m IH] using lt_wf_ind. intros u v Hm Hlen H3.
  destruct (decide (len u < 2)) as [Hshort|Hlong].
  - destruct u as [|p [|p' u]]; [| |len_lia].
    + exists v. split; [done | apply rearr_refl].
    + destruct v as [|q v]; [len_lia|].
      exists (q :: p :: v). split.
      { simpl. apply Permutation_swap. }
      apply (rearr_trans n _ (pre ++ q :: p :: x :: v)).
      * apply (rearr_three n pre v p x q); [done|].
        rewrite <- Hlen. f_equal.
      * apply (rearr_three n pre v q p x); [done|].
        rewrite <- Hlen. len_lia.
  - destruct (split_at u (len u - 2)) as (u' & w & -> & Hu'); [len_lia|].
    rewrite len_app in Hu'.
    destruct w as [|p [|q [|q' w]]]; [len_lia | len_lia | | len_lia].
    destruct (IH (length u')) with (u := u') (v := p :: q :: v)
      as (ts' & Hperm & Hr).
    + subst m. rewrite length_app. simpl. lia.
    + done.
    + rewrite <- Hlen. len_lia.
    + len_lia.
    + exists ts'. split.
      * rewrite <- Hperm. rewrite <- !app_assoc. done.
      * apply (rearr_trans n _ (pre ++ u' ++ x :: p :: q :: v)); [|done].
        apply (rearr_eq n ((pre ++ u') ++ p :: q :: x :: v)
                 ((pre ++ u') ++ x :: p :: q :: v)); [|app_eq..].
        apply rearr_three; [done|]. rewrite <- Hlen. len_lia.
Qed.

Lemma exch_fmap_id (x y : Z) (l : list Z) :
  x ∉ l → y ∉ l → exch x y <$> l = l.
Proof.
  induction l as [|v l IH]; intros Hx Hy; [done|].
  apply not_elem_of_cons in Hx as [Hxv Hx].
  apply not_elem_of_cons in Hy as [Hyv Hy].
  rewrite fmap_cons, IH by done. f_equal. unfold exch. zcases.
Qed.

Lemma exch_l (x y : Z) : exch x y x = y.
Proof. unfold exch. zcases. Qed.

Lemma exch_r (x y : Z) : exch x y y = x.
Proof. unfold exch. zcases. Qed.

(** Up to the order of the last two tiles, any order of the tiles can
    be reached from any other. *)
Lemma rearr_sort (n : Z) (tgt pre ts : list Z) :
  2 ≤ n → ts ≡ₚ tgt → NoDup (pre ++ tgt) →
  len (pre ++ ts) = n * n - 1 → 2 ≤ len tgt →
  rearr n (pre ++ ts) (pre ++ tgt)
  ∨ ∃ x y, x ≠ y ∧ x ∈ pre ++ tgt ∧ y ∈ pre ++ tgt
           ∧ rearr n (pre ++ ts) (exch x y <$> (pre ++ tgt)).
Proof.
  intros Hn. revert pre ts.
  induction tgt as [|x tgt IH]; intros pre ts Hperm Hnd Hlen H2; [len_lia|].
  destruct (decide (len tgt < 2)) as [Hshort|Hlong].
  - destruct tgt as [|y [|y' tgt]]; [len_lia | | len_lia].
    apply Permutation_sym, Permutation_length_2_inv in Hperm as [->| ->].
    + left. apply rearr_refl.
    + right. exists x, y.
      destruct (NoDup_two_cells pre [] [] x y Hnd) as (Hx & Hy & _ & _ & Hne).
      split_and!; [done | set_solver | set_solver |].
      rewrite fmap_app, exch_fmap_id by done. simpl.
      rewrite exch_l, exch_r. apply rearr_refl.
  - assert (x ∈ ts) as Hx by (rewrite Hperm; by left).
    apply list_elem_of_split in Hx as (u & v & ->).
    assert (len (u ++ x :: v) = len (x :: tgt)) as Hl.
    { unfold len. by rewrite Hperm. }
    destruct (rearr_front n pre u v x) as (ts' & Hp' & Hr);
      [done | done | len_lia |].
    assert (ts' ≡ₚ tgt) as Hperm'.
    { apply (Permutation_cons_inv (a := x)).
      rewrite <- Hperm, <- Hp'. apply Permutation_middle. }
    assert (len ts' = len u + len v) as Hl'.
    { rewrite <- len_app. unfold len. by rewrite Hp'. }
    destruct (IH (pre ++ [x]) ts') as [Hr'|(a & b & Hab & Ha & Hb & Hr')].
    + done.
    + by rewrite <- app_assoc.
    + len_lia.
    + len_lia.
    + left. apply (rearr_trans n _ (pre ++ x :: ts')); [done|].
      apply (rearr_eq n _ _ _ _ Hr'); app_eq.
    + right. exists a, b.
      replace (pre ++ x :: tgt) with ((pre ++ [x]) ++ tgt) by app_eq.
      split_and!; [done..|].
      apply (rearr_trans n _ (pre ++ x :: ts')); [done|].
      apply (rearr_eq n _ _ _ _ Hr'); app_eq.
Qed.

(** ** Exchanging two tiles flips the test *)

Lemma exch_comm (x y v : Z) : exch x y v = exch y x v.
Proof. unfold exch. zcases. Qed.

Lemma exch_zero (x y v : Z) : x ≠ 0 → y ≠ 0 → exch x y v = 0 ↔ v = 0.
Proof. intros Hx Hy. unfold exch. zcases. Qed.

Lemma exch_fmap_cells (x y : Z) (p m q : list Z) :
  x ∉ p → y ∉ p → x ∉ m → y ∉ m → x ∉ q → y ∉ q →
  exch x y <$> (p ++ x :: m ++ y :: q) = p ++ y :: m ++ x :: q.
Proof.
  intros. rewrite fmap_app, fmap_cons, fmap_app, fmap_cons.
  by rewrite !exch_fmap_id, exch_l, exch_r by done.
Qed.

(** A list without repetition splits around two of its members. *)
Lemma NoDup_split_two (l : list Z) (x y : Z) :
  NoDup l → x ∈ l → y ∈ l → x ≠ y →
  ∃ p m q,
    (l = p ++ x :: m ++ y :: q ∨ l = p ++ y :: m ++ x :: q)
    ∧ (x ∉ p) ∧ (y ∉ p) ∧ (x ∉ m) ∧ (y ∉ m) ∧ (x ∉ q) ∧ (y ∉ q).
Proof.
  intros Hnd Hx Hy Hne.
  apply list_elem_of_split in Hx as (p & rest & ->).
  apply NoDup_app in Hnd as (Hp & Hdisj & Hrest).
  apply NoDup_cons in Hrest as [Hxr Hrest].
  apply elem_of_app in Hy as [Hy|Hy].
  - apply list_elem_of_split in Hy as (p1 & p2 & ->).
    apply NoDup_app in Hp as (Hp1 & Hdisj1 & Hp2).
    apply NoDup_cons in Hp2 as [Hyp2 Hp2].
    exists p1, p2, rest. split; [right; app_eq|].
    split_and!; try done.
    + intros H. apply (Hdisj x); [set_solver | by left].
    + intros H. apply (Hdisj1 y H). by left.
    + intros H. apply (Hdisj x); [set_solver | by left].
    + intros H. apply (Hdisj y); [set_solver | by right].
  - apply elem_of_cons in Hy as [->|Hy]; [done|].
    apply list_elem_of_split in Hy as (m & q & ->).
    apply NoDup_app in Hrest as (Hm & Hdisj2 & Hq).
    apply NoDup_cons in Hq as [Hyq Hq].
    exists p, m, q. split; [by left|].
    split_and!; try done.
    + intros H. apply (Hdisj x H). by left.
    + intros H. apply (Hdisj y H). set_solver.
    + intros H. apply Hxr. set_solver.
    + intros H. apply (Hdisj2 y H). by left.
    + intros H. apply Hxr. set_solver.
Qed.

Lemma below_two (x y : Z) : x ≠ y → below x [y] + below y [x] = 1.
Proof. intros Hne. rewrite !below_cons, !below_nil. zcases. Qed.

(** Exchanging two members of a list changes its number of inversions
    by an odd amount. *)
Lemma inversions_transpose (p m q : list Z) (x y : Z) :
  x ∉ m → y ∉ m → x ≠ y →
  ∃ k, inversions (p ++ y :: m ++ x :: q)
       = inversions (p ++ x :: m ++ y :: q) + 2 * k + 1.
Proof.
  intros Hx Hy Hne.
  pose proof (cross_single x m Hx) as Hcx.
  pose proof (cross_single y m Hy) as Hcy.
  pose proof (below_two x y Hne) as Hxy.
  exists (below y m - below x m - below x [y]).
  rewrite !inversions_cross. simpl inversions.
  rewrite !inversions_cross. simpl inversions.
  rewrite (cross_cons_r p y (m ++ x :: q)), (cross_cons_r p x (m ++ y :: q)).
  rewrite !cross_app_r.
  rewrite (cross_cons_r p x q), (cross_cons_r p y q).
  rewrite (cross_cons_r m x q), (cross_cons_r m y q).
  rewrite !below_app.
  rewrite (below_cons y x q), (below_cons x y q).
  rewrite below_cons, below_nil in Hxy. rewrite (below_cons y x []) in Hxy.
  rewrite below_nil in Hxy.
  rewrite (below_cons x y []) , below_nil in *.
  lia.
Qed.

Lemma Z_even_odd_step (b k : Z) : Z.even (b + 2 * k + 1) = negb (Z.even b).
Proof.
  replace (b + 2 * k + 1) with (Z.succ b + 2 * k) by lia.
  by rewrite Z.even_add_mul_2, Z.even_succ, <- Z.negb_even.
Qed.

Lemma filter_exch (x y : Z) (l : list Z) :
  x ≠ 0 → y ≠ 0 →
  filter (λ v, v ≠ 0) (exch x y <$> l) = exch x y <$> filter (λ v, v ≠ 0) l.
Proof.
  intros Hx Hy. induction l as [|v l IH]; [done|].
  rewrite fmap_cons. destruct (decide (v = 0)) as [->|Hv].
  - rewrite !filter_cons_False; [done | by intros H; apply H |].
    intros H. apply H. by apply exch_zero.
  - rewrite !filter_cons_True; [| done |].
    + by rewrite fmap_cons, IH.
    + intros H. by apply exch_zero in H.
Qed.

Lemma indexOf_from_exch (x y : Z) (l : list Z) (i : Z) :
  x ≠ 0 → y ≠ 0 → indexOf_from (exch x y <$> l) 0 i = indexOf_from l 0 i.
Proof.
  intros Hx Hy. revert i. induction l as [|v l IH]; intros i; [done|].
  rewrite fmap_cons. simpl. rewrite IH.
  destruct (Z.eqb_spec v 0) as [->|Hv].
  - assert (exch x y 0 = 0) as -> by by apply exch_zero. done.
  - destruct (Z.eqb_spec (exch x y v) 0) as [H|_]; [|done].
    by apply exch_zero in H.
Qed.

Lemma exch_Permutation (x y : Z) (l : list Z) :
  NoDup l → x ∈ l → y ∈ l → exch x y <$> l ≡ₚ l.
Proof.
  intros Hnd Hx Hy. destruct (decide (x = y)) as [->|Hne].
  - assert (exch y y <$> l = l) as ->; [|done].
    rewrite <- (list_fmap_id l) at 2. apply list_fmap_ext.
    intros _ v _. unfold exch. zcases.
  - destruct (NoDup_split_two l x y Hnd Hx Hy Hne)
      as (p & m & q & [-> | ->] & ? & ? & ? & ? & ? & ?).
    + rewrite exch_fmap_cells by done. apply Permutation_app_head.
      rewrite <- !Permutation_middle. apply Permutation_swap.
    + rewrite (list_fmap_ext (exch x y) (exch y x));
        [|intros; apply exch_comm].
      rewrite exch_fmap_cells by done. apply Permutation_app_head.
      rewrite <- !Permutation_middle. apply Permutation_swap.
Qed.

Lemma exch_parity (n : Z) (arr : list Z) (x y : Z) :
  NoDup arr → x ∈ arr → y ∈ arr → x ≠ y → x ≠ 0 → y ≠ 0 →
  parity_ok n (exch x y <$> arr) = negb (parity_ok n arr).
Proof.
  intros Hnd Hx Hy Hne Hx0 Hy0. unfold parity_ok. cbv zeta.
  unfold indexOf. rewrite indexOf_from_exch, filter_exch by done.
  set (ts := filter (λ v, v ≠ 0) arr).
  assert (NoDup ts) as Hts by by apply NoDup_filter.
  assert (x ∈ ts) as Hxt by by apply list_elem_of_filter.
  assert (y ∈ ts) as Hyt by by apply list_elem_of_filter.
  assert (∃ k, inversions (exch x y <$> ts) = inversions ts + 2 * k + 1
               ∨ inversions ts = inversions (exch x y <$> ts) + 2 * k + 1)
    as [k Hk].
  { destruct (NoDup_split_two ts x y Hts Hxt Hyt Hne)
      as (p & m & q & [-> | ->] & ? & ? & ? & ? & ? & ?).
    - rewrite exch_fmap_cells by done.
      destruct (inversions_transpose p m q x y) as [k Hk]; [done..|].
      exists k. by left.
    - rewrite (list_fmap_ext (exch x y) (exch y x));
        [|intros; apply exch_comm].
      rewrite exch_fmap_cells by done.
      destruct (inversions_transpose p m q x y) as [k Hk]; [done..|].
      exists k. by right. }
  set (row := indexOf_from arr 0 0 `div` n).
  destruct (Z.odd n).
  - destruct Hk as [-> | ->].
    + apply Z_even_odd_step.
    + rewrite Z_even_odd_step. by rewrite negb_involutive.
  - rewrite <- !Z.negb_even. f_equal. destruct Hk as [-> | ->].
    + replace (row + (inversions ts + 2 * k + 1))
        with (row + inversions ts + 2 * k + 1) by lia.
      apply Z_even_odd_step.
    + replace (row + (inversions (exch x y <$> ts) + 2 * k + 1))
        with (row + inversions (exch x y <$> ts) + 2 * k + 1) by lia.
      rewrite Z_even_odd_step. by rewrite negb_involutive.
Qed.

(** ** The theorem *)

Lemma arr_get_fmap (f : Z → Z) (l : list Z) (i : Z) :
  arr_get (f <$> l) i = f <$> arr_get l i.
Proof.
  unfold arr_get. destruct (i <? 0); [done|]. apply list_lookup_fmap.
Qed.

Lemma snake_fmap (n : Z) (f : Z → Z) (s : list Z) :
  f 0 = 0 → snake n (f <$> s) = f <$> snake n s.
Proof.
  intros Hf. unfold snake. rewrite len_fmap, <- list_fmap_compose.
  apply list_fmap_ext. intros _ i _. simpl. rewrite arr_get_fmap.
  by destruct (arr_get s (sn n i)).
Qed.

(** A board read along the path, with the blank moved to the end of
    the path. *)
Lemma park_blank (n : Z) (s : list Z) :
  0 ∈ s → ∃ a b, s = a ++ 0 :: b ∧ sreach n s ((a ++ b) ++ [0]).
Proof.
  intros (a & b & ->)%list_elem_of_split. exists a, b. split; [done|].
  pose proof (blank_travel n a b []) as H.
  replace (a ++ 0 :: b ++ []) with (a ++ 0 :: b) in H by app_eq.
  by replace (a ++ b ++ [0]) with ((a ++ b) ++ [0]) in H by app_eq.
Qed.

(** Boards that pass the test can be solved. *)
Lemma isSolvable_solvable_by_moves (n : Z) (arr : list Z) :
  2 ≤ n → wf_board n arr → isSolvable arr n = true →
  solvable_by_moves n arr.
Proof.
  intros Hn Hwf Hsolv. assert (4 ≤ n * n) as HN by nia.
  pose proof (wf_board_makeSolved n ltac:(lia)) as HwfS.
  assert (len arr = n * n) as Hlen by (rewrite (wf_board_len n) by done; lia).
  assert (len (makeSolved n) = n * n) as HlenS
    by (rewrite len_makeSolved; lia).
  pose proof (wf_board_snake n arr ltac:(lia) Hwf) as HwfB.
  pose proof (wf_board_snake n _ ltac:(lia) HwfS) as HwfT.
  destruct (park_blank n (snake n arr)) as (a & b & Eb & Hb).
  { apply (wf_board_elem n); [done | lia]. }
  destruct (park_blank n (snake n (makeSolved n))) as (a' & b' & Es & Hs).
  { apply (wf_board_elem n); [done | lia]. }
  assert (a ++ b ≡ₚ a' ++ b') as Hperm.
  { apply (Permutation_cons_inv (a := 0)).
    rewrite !Permutation_middle, <- Eb, <- Es.
    unfold wf_board in HwfB, HwfT. by rewrite HwfB, HwfT. }
  pose proof (wf_board_NoDup n _ HwfT) as HndT. rewrite Es in HndT.
  assert (NoDup (a' ++ b')) as Hnd'.
  { rewrite <- Permutation_middle in HndT. by apply NoDup_cons in HndT as []. }
  assert (0 ∉ a' ++ b') as H0'.
  { rewrite <- Permutation_middle in HndT. by apply NoDup_cons in HndT as []. }
  assert (len (a ++ b) = n * n - 1) as Hlab.
  { rewrite <- Hlen, <- (len_snake n arr), Eb. len_lia. }
  assert (len (a' ++ b') = n * n - 1) as Hlab'.
  { unfold len in *. by rewrite <- Hperm. }
  destruct (rearr_sort n (a' ++ b') [] (a ++ b))
    as [Hr|(x & y & Hxy & Hx & Hy & Hr)]; [done | done | done | done | lia | |].
  - (* the same order: the moves solve the board *)
    unfold solvable_by_moves.
    rewrite <- (snake_involutive n arr), <- (snake_involutive n (makeSolved n))
      by (done || lia).
    apply sreach_moves; [lia | done |].
    apply (sreach_trans n _ ((a ++ b) ++ [0])); [done|].
    apply (sreach_trans n _ ((a' ++ b') ++ [0])); [done|].
    by apply sreach_sym.
  - (* two tiles exchanged: the test would fail *)
    simpl in Hx, Hy, Hr. exfalso.
    assert (x ≠ 0) as Hx0 by (intros ->; done).
    assert (y ≠ 0) as Hy0 by (intros ->; done).
    assert (exch x y 0 = 0) as He0 by by apply exch_zero.
    assert (sreach n (snake n arr) (exch x y <$> snake n (makeSolved n)))
      as Hreach.
    { apply (sreach_trans n _ ((a ++ b) ++ [0])); [done|].
      apply (sreach_trans n _ (exch x y <$> ((a' ++ b') ++ [0]))).
      - rewrite fmap_app. simpl. rewrite He0. done.
      - apply sreach_fmap; [done|]. by apply sreach_sym. }
    apply sreach_moves in Hreach; [|lia|done].
    rewrite snake_involutive, <- snake_fmap, snake_involutive in Hreach
      by (rewrite ?len_fmap; done || lia).
    apply moves_isSolvable in Hreach; [|lia|done].
    rewrite Hsolv in Hreach.
    pose proof (wf_board_NoDup n _ HwfS) as HndS.
    assert (x ∈ makeSolved n ∧ y ∈ makeSolved n) as [HxS HyS].
    { assert (∀ v, v ∈ a' ++ b' → v ∈ makeSolved n) as Hin; [|by split; apply Hin].
      intros v Hv. unfold wf_board in HwfT, HwfS. rewrite HwfS, <- HwfT, Es.
      apply elem_of_app in Hv as [Hv|Hv]; apply elem_of_app;
        [by left | right; by right]. }
    rewrite isSolvable_parity in Hreach.
    + rewrite exch_parity, parity_ok_makeSolved in Hreach by (done || lia).
      done.
    + lia.
    + unfold wf_board. rewrite exch_Permutation by done. done.
Qed.

(** C1.  For every dimension [n >= 2] and every board that is a
    permutation of [0 .. n*n - 1], [isSolvable] returns true if and
    only if some finite sequence of legal moves, each exchanging the
    blank with an orthogonally adjacent cell, turns the board into the
    solved board. *)
Theorem isSolvable_iff_solvable_by_moves (n : Z) (arr : list Z) :
  2 ≤ n → wf_board n arr →
  isSolvable arr n = true ↔ solvable_by_moves n arr.
Proof.
  intros Hn Hwf. split.
  - by apply isSolvable_solvable_by_moves.
  - apply solvable_by_moves_isSolvable; [lia | done].
Qed.

Lemma isSolvable_iff_solvable_by_moves_witness :
  isSolvable [1; 2; 3; 4; 5; 6; 0; 7; 8] 3 = true
  ↔ solvable_by_moves 3 [1; 2; 3; 4; 5; 6; 0; 7; 8].
Proof.
  apply (isSolvable_iff_solvable_by_moves 3 [1; 2; 3; 4; 5; 6; 0; 7; 8]).
  - lia.
  - apply (bool_decide_unpack _). vm_compute. exact I.
Defined.

(** * Further properties of the component *)

(** ** Positions and adjacency *)

Lemma indexToPos_posToIndex (sz row col : Z) :
  0 ≤ row → 0 ≤ col < sz →
  indexToPos sz (posToIndex sz row col) = Pos row col.
Proof.
  intros Hrow Hcol. unfold indexToPos, posToIndex, floor_div.
  rewrite js_mod_nonneg by nia. by rewrite div_row, mod_row.
Qed.

Lemma posToIndex_indexToPos (sz idx : Z) :
  0 < sz → 0 ≤ idx →
  posToIndex sz (r (indexToPos sz idx)) (c (indexToPos sz idx)) = idx.
Proof.
  intros Hsz Hidx. unfold indexToPos, posToIndex, floor_div. simpl.
  rewrite js_mod_nonneg by lia.
  pose proof (Z.div_mod idx sz ltac:(lia)). lia.
Qed.

(** X1.  For a positive grid size, [indexToPos] and [posToIndex] are
    inverse to each other on the non-negative indices and on the
    positions with a non-negative row and a column inside the grid;
    the position computed for an index has its column inside the
    grid. *)
Theorem pos_round_trip (sz : Z) :
  0 < sz →
  (∀ idx, 0 ≤ idx →
     posToIndex sz (r (indexToPos sz idx)) (c (indexToPos sz idx)) = idx
     ∧ 0 ≤ r (indexToPos sz idx) ∧ 0 ≤ c (indexToPos sz idx) < sz)
  ∧ (∀ row col, 0 ≤ row → 0 ≤ col < sz →
       indexToPos sz (posToIndex sz row col) = Pos row col).
Proof.
  intros Hsz. split.
  - intros idx Hidx. split; [by apply posToIndex_indexToPos|].
    unfold indexToPos, floor_div. simpl. rewrite js_mod_nonneg by lia.
    pose proof (Z.mod_pos_bound idx sz Hsz).
    split; [apply Z.div_pos; lia | lia].
  - intros row col Hrow Hcol. by apply indexToPos_posToIndex.
Qed.

Lemma pos_round_trip_witness :
  (∀ idx, 0 ≤ idx →
     posToIndex 4 (r (indexToPos 4 idx)) (c (indexToPos 4 idx)) = idx
     ∧ 0 ≤ r (indexToPos 4 idx) ∧ 0 ≤ c (indexToPos 4 idx) < 4)
  ∧ (∀ row col, 0 ≤ row → 0 ≤ col < 4 →
       indexToPos 4 (posToIndex 4 row col) = Pos row col).
Proof. apply (pos_round_trip 4). lia. Defined.

Lemma canSwap_sym (n i j : Z) : canSwap n i j = canSwap n j i.
Proof.
  unfold canSwap. cbv zeta. f_equal. lia.
Qed.

(** X2.  For a positive grid size and non-negative indices, [canSwap]
    holds exactly for the two cells next to each other in one row and
    for the two cells [n] places apart; so it is symmetric, fails for
    a cell and itself, and fails between the last cell of a row and
    the first cell of the next. *)
Theorem canSwap_neighbours (n i j : Z) :
  0 < n → 0 ≤ i → 0 ≤ j →
  (canSwap n i j = true ↔
     (i = j + 1 ∧ j `mod` n ≠ n - 1) ∨ (j = i + 1 ∧ i `mod` n ≠ n - 1)
     ∨ i = j + n ∨ j = i + n)
  ∧ canSwap n i j = canSwap n j i
  ∧ canSwap n i i = false
  ∧ (2 ≤ n → i `mod` n = n - 1 → canSwap n i (i + 1) = false).
Proof.
  intros Hn Hi Hj.
  assert (∀ a b, 0 ≤ a → 0 ≤ b →
            canSwap n a b = true ↔
              (a = b + 1 ∧ b `mod` n ≠ n - 1) ∨ (b = a + 1 ∧ a `mod` n ≠ n - 1)
              ∨ a = b + n ∨ b = a + n) as Hchar.
  { intros a b Ha Hb. rewrite canSwap_manhattan by lia.
    by apply manhattan_1_cases. }
  split_and!.
  - by apply Hchar.
  - apply canSwap_sym.
  - apply canSwap_irrefl.
  - intros Hn2 Hend. destruct (canSwap n i (i + 1)) eqn:E; [|done].
    apply Hchar in E; lia.
Qed.

Lemma canSwap_neighbours_witness :
  (canSwap 3 2 3 = true ↔
     (2 = 3 + 1 ∧ 3 `mod` 3 ≠ 3 - 1) ∨ (3 = 2 + 1 ∧ 2 `mod` 3 ≠ 3 - 1)
     ∨ 2 = 3 + 3 ∨ 3 = 2 + 3)
  ∧ canSwap 3 2 3 = canSwap 3 3 2
  ∧ canSwap 3 2 2 = false
  ∧ (2 ≤ 3 → 2 `mod` 3 = 3 - 1 → canSwap 3 2 (2 + 1) = false).
Proof. apply (canSwap_neighbours 3 2 3); lia. Defined.

(** ** Clicks and their undoing *)

(** After an exchange with the blank, the blank is where the tile was. *)
Lemma blank_after_swap (n : Z) (arr : list Z) (i : Z) :
  1 ≤ n → wf_board n arr → 0 ≤ i < len arr →
  indexOf (swap arr i (indexOf arr 0)) 0 = i.
Proof.
  intros Hn Hwf Hi.
  destruct (wf_board_blank n arr) as [Hb Hgb]; [lia | done |].
  assert (len arr = n * n) as Hlen by (rewrite (wf_board_len n) by done; nia).
  apply indexOf_unique.
  - eapply wf_board_NoDup. by apply wf_board_swap.
  - rewrite arr_get_swap by lia. zcases.
Qed.

Lemma acceptedState_not_won (s : state) (i : Z) :
  isSolved (swap (tiles s) i (indexOf (tiles s) 0)) = false →
  acceptedState s i
  = State (size s) (swap (tiles s) i (indexOf (tiles s) 0)) (moves s + 1)
      (time s) (running s) (message s) (highScores s).
Proof. intros H. unfold acceptedState. by rewrite H. Qed.

(** Clicking the cell the tile came from puts the tile back. *)
Lemma click_back (s : state) (i : Z) :
  running s = true → 1 ≤ size s → wf_board (size s) (tiles s) →
  0 ≤ i < len (tiles s) → clickAccepted s i = true →
  isSolved (tiles (handleTileClick s i)) = false →
  tiles (handleTileClick (handleTileClick s i) (indexOf (tiles s) 0))
  = tiles s
  ∧ moves (handleTileClick (handleTileClick s i) (indexOf (tiles s) 0))
    = moves s + 2.
Proof.
  intros Hrun Hn Hwf Hi Ha Hns.
  destruct (wf_board_blank (size s) (tiles s)) as [Hb Hgb]; [lia | done |].
  destruct (handleTileClick_cases s i) as [[E _]|[_ E]]; [congruence|].
  rewrite E in *. rewrite tiles_acceptedState in Hns.
  rewrite acceptedState_not_won by done.
  set (b := indexOf (tiles s) 0) in *.
  set (s1 := State _ _ _ _ _ _ _).
  assert (clickAccepted s1 b = true) as Ha1.
  { unfold clickAccepted, s1. simpl. rewrite Hrun. simpl.
    unfold b. rewrite (blank_after_swap (size s)) by done.
    unfold clickAccepted in Ha. rewrite Hrun in Ha. simpl in Ha.
    by rewrite canSwap_sym. }
  destruct (handleTileClick_cases s1 b) as [[E1 _]|[_ E1]]; [congruence|].
  rewrite E1, tiles_acceptedState, moves_acceptedState. simpl.
  unfold b at 2. rewrite (blank_after_swap (size s)) by done.
  fold b. rewrite (swap_comm _ b i), swap_swap. split; [done | lia].
Qed.

(** X3.  While running, an accepted click on the tile at index [i]
    leaves the blank at [i]; unless that move solved the board, a
    click on the cell the tile came from is accepted too and gives
    the former board back, the counter having advanced by two. *)
Theorem click_moves_blank_and_undoes (s : state) (i : Z) :
  running s = true → 1 ≤ size s → wf_board (size s) (tiles s) →
  0 ≤ i < len (tiles s) → clickAccepted s i = true →
  let b := indexOf (tiles s) 0 in
  let s1 := handleTileClick s i in
  indexOf (tiles s1) 0 = i
  ∧ (isSolved (tiles s1) = false →
       clickAccepted s1 b = true
       ∧ tiles (handleTileClick s1 b) = tiles s
       ∧ moves (handleTileClick s1 b) = moves s + 2).
Proof.
  intros Hrun Hn Hwf Hi Ha b s1.
  assert (tiles s1 = swap (tiles s) i b) as Ht.
  { unfold s1. destruct (handleTileClick_cases s i) as [[E _]|[_ ->]];
      [congruence|]. apply tiles_acceptedState. }
  split.
  - rewrite Ht. by apply (blank_after_swap (size s)).
  - intros Hns.
    destruct (click_back s i Hrun Hn Hwf Hi Ha Hns) as [H1 H2].
    split_and!; [|done..].
    destruct (handleTileClick_cases s1 b) as [[_ E]|[E _]]; [|done].
    fold s1 b in H2. rewrite E in H2.
    unfold s1 in H2.
    destruct (handleTileClick_cases s i) as [[E' _]|[_ E']]; [congruence|].
    rewrite E', moves_acceptedState in H2. lia.
Qed.

Lemma click_moves_blank_and_undoes_witness :
  let s := State 3 [1; 2; 3; 4; 5; 6; 0; 7; 8] 0 0 true NoMessage
             initialHighScores in
  let b := indexOf (tiles s) 0 in
  let s1 := handleTileClick s 3 in
  indexOf (tiles s1) 0 = 3
  ∧ (isSolved (tiles s1) = false →
       clickAccepted s1 b = true
       ∧ tiles (handleTileClick s1 b) = tiles s
       ∧ moves (handleTileClick s1 b) = moves s + 2).
Proof.
  apply (click_moves_blank_and_undoes
           (State 3 [1; 2; 3; 4; 5; 6; 0; 7; 8] 0 0 true NoMessage
              initialHighScores) 3).
  - reflexivity.
  - vm_compute. discriminate.
  - apply (bool_decide_unpack _). vm_compute. exact I.
  - vm_compute. split; [discriminate | reflexivity].
  - reflexivity.
Defined.

(** ** Directional moves *)

(** A cell of the grid one row or one column from the blank is
    accepted by [canSwap]. *)
Lemma canSwap_delta (n : Z) (arr : list Z) (dr dc : Z) :
  1 ≤ n → wf_board n arr →
  Z.abs dr + Z.abs dc = 1 →
  let p := indexToPos n (indexOf arr 0) in
  inGrid n (r p + dr) (c p + dc) = true →
  0 ≤ posToIndex n (r p + dr) (c p + dc) < len arr
  ∧ canSwap n (posToIndex n (r p + dr) (c p + dc)) (indexOf arr 0) = true.
Proof.
  intros Hn Hwf Hd p Hin.
  destruct (wf_board_blank n arr) as [Hb _]; [lia | done |].
  assert (len arr = n * n) as Hlen by (rewrite (wf_board_len n) by done; nia).
  unfold inGrid in Hin. apply andb_true_iff in Hin as [Hin Hc2].
  apply andb_true_iff in Hin as [Hin Hc1].
  apply andb_true_iff in Hin as [Hr1 Hr2].
  apply Z.leb_le in Hr1, Hc1. apply Z.ltb_lt in Hr2, Hc2.
  split; [unfold posToIndex; nia|].
  unfold canSwap. cbv zeta.
  rewrite indexToPos_posToIndex by lia. simpl. fold p.
  apply Z.eqb_eq. lia.
Qed.

(** X4.  While running, a move in one of the four directions whose
    target cell lies inside the grid is always accepted: the blank
    ends in the target cell and the counter advances by one; when the
    target lies outside the grid the state is returned as it was. *)
Theorem moveByDirection_accepted (s : state) (direction : string) :
  running s = true → 1 ≤ size s → wf_board (size s) (tiles s) →
  direction ∈ ["up"; "down"; "left"; "right"]%string →
  let p := indexToPos (size s) (indexOf (tiles s) 0) in
  let tr := r p + (directionDelta direction).1 in
  let tc := c p + (directionDelta direction).2 in
  let s' := moveByDirection s direction in
  (inGrid (size s) tr tc = true →
     indexOf (tiles s') 0 = posToIndex (size s) tr tc
     ∧ tiles s' = swap (tiles s) (posToIndex (size s) tr tc)
                    (indexOf (tiles s) 0)
     ∧ moves s' = moves s + 1)
  ∧ (inGrid (size s) tr tc = false → s' = s).
Proof.
  intros Hrun Hn Hwf Hd p tr tc s'.
  assert (Z.abs (directionDelta direction).1
          + Z.abs (directionDelta direction).2 = 1) as Habs.
  { apply list_elem_of_In in Hd. simpl in Hd.
    destruct Hd as [<-|[<-|[<-|[<-|[]]]]]; reflexivity. }
  subst s'. rewrite moveByDirection_delta. fold p tr tc.
  split; intros Hin; rewrite Hin; [|done].
  destruct (canSwap_delta (size s) (tiles s) _ _ Hn Hwf Habs Hin)
    as [Hrange Hcan].
  fold p tr tc in Hrange, Hcan.
  destruct (handleTileClick_cases s (posToIndex (size s) tr tc))
    as [[E _]|[_ ->]].
  { unfold clickAccepted in E. rewrite Hrun, Hcan in E. done. }
  rewrite tiles_acceptedState, moves_acceptedState.
  split_and!; [|done..]. by apply (blank_after_swap (size s)).
Qed.

Lemma moveByDirection_accepted_witness :
  let s := State 3 [1; 2; 3; 4; 5; 6; 0; 7; 8] 0 0 true NoMessage
             initialHighScores in
  let p := indexToPos (size s) (indexOf (tiles s) 0) in
  let tr := r p + (directionDelta "right").1 in
  let tc := c p + (directionDelta "right").2 in
  let s' := moveByDirection s "right" in
  (inGrid (size s) tr tc = true →
     indexOf (tiles s') 0 = posToIndex (size s) tr tc
     ∧ tiles s' = swap (tiles s) (posToIndex (size s) tr tc)
                    (indexOf (tiles s) 0)
     ∧ moves s' = moves s + 1)
  ∧ (inGrid (size s) tr tc = false → s' = s).
Proof.
  apply (moveByDirection_accepted
           (State 3 [1; 2; 3; 4; 5; 6; 0; 7; 8] 0 0 true NoMessage
              initialHighScores) "right").
  - reflexivity.
  - vm_compute. discriminate.
  - apply (bool_decide_unpack _). vm_compute. exact I.
  - apply (bool_decide_unpack _). vm_compute. exact I.
Defined.

(** ** Keys *)

(** C7.  While the game is running, on a board of dimension [n] whose
    blank, the cell holding 0, is at index [b], that is in row
    [b div n] and column [b mod n]: the up key takes as target the
    cell below the blank (one row further down, same column), the down
    key the cell above it, the left key the cell to its right and the
    right key the cell to its left.  When the target is a cell of the
    grid, its tile and the blank are exchanged, every other cell is
    unchanged and the counter grows by 1; when it is outside the grid
    the key is ignored: nothing of the page changes.  The key is
    handled by the registered listener, which is in step with the
    state. *)
Theorem onKey_targets (p : page) (b : Z) (key : string) (dr dc : Z) :
  listenerSynced p → running (current p) = true →
  1 ≤ size (current p) → wf_board (size (current p)) (tiles (current p)) →
  arr_get (tiles (current p)) b = Some 0 →
  (key, (dr, dc)) ∈ [("ArrowUp"%string, (1, 0));
                     ("ArrowDown"%string, (-1, 0));
                     ("ArrowLeft"%string, (0, 1));
                     ("ArrowRight"%string, (0, -1))] →
  let n := size (current p) in
  let row := b `div` n + dr in
  let col := b `mod` n + dc in
  let t := row * n + col in
  let s' := current (handleInput p (Key key)) in
  (0 ≤ row < n ∧ 0 ≤ col < n →
     arr_get (tiles s') b = arr_get (tiles (current p)) t
     ∧ arr_get (tiles s') t = Some 0
     ∧ (∀ k, k ≠ t → k ≠ b →
          arr_get (tiles s') k = arr_get (tiles (current p)) k)
     ∧ len (tiles s') = len (tiles (current p))
     ∧ moves s' = moves (current p) + 1)
  ∧ (¬ (0 ≤ row < n ∧ 0 ≤ col < n) → handleInput p (Key key) = p).
Proof.
  intros (Ht & Hr & Hs & Hh) Hrun Hn Hwf Hgb Hkey n row col t s'.
  pose proof (blank_index n _ b Hn Hwf Hgb) as Hb.
  apply arr_get_Some in Hgb as Hb'.
  assert (len (tiles (current p)) = n * n) as Hlen
    by (rewrite (wf_board_len n) by done; nia).
  pose proof (Z.mod_pos_bound b n ltac:(lia)) as Hmod.
  assert (0 ≤ b `div` n < n) as Hdiv.
  { split; [apply Z.div_pos; lia | apply Z.div_lt_upper_bound; nia]. }
  assert (∃ direction, keyMap key = Some direction
                       ∧ directionDelta direction = (dr, dc)
                       ∧ Z.abs dr + Z.abs dc = 1)
    as (direction & Hk & Hd & Habs).
  { apply list_elem_of_In in Hkey. simpl in Hkey.
    destruct Hkey as [E|[E|[E|[E|[]]]]]; injection E as <- <- <-;
      eexists; (split; [reflexivity | split; reflexivity]). }
  assert (indexToPos n b = Pos (b `div` n) (b `mod` n)) as Hpos.
  { unfold indexToPos, floor_div. by rewrite js_mod_nonneg by lia. }
  assert (handleInput p (Key key)
          = match (if inGrid n row col
                   then handleTileClick_of (listener p) (current p) t
                   else None)
            with
            | Some st => Page st st
            | None => p
            end) as E.
  { unfold handleInput, onKey_of. rewrite Hr, Hrun, Hk. simpl.
    rewrite moveByDirection_of_delta. rewrite Hs, Ht, Hb. fold n.
    by rewrite Hpos, Hd. }
  assert (inGrid n row col = true ↔ 0 ≤ row < n ∧ 0 ≤ col < n) as Hgrid.
  { unfold inGrid. rewrite !andb_true_iff, !Z.leb_le, !Z.ltb_lt. lia. }
  destruct (inGrid n row col) eqn:Hin.
  - split; [intros _ | intros H; destruct H; by apply Hgrid].
    pose proof (canSwap_delta n (tiles (current p)) dr dc Hn Hwf Habs) as Hcs.
    cbv zeta in Hcs. rewrite Hb, Hpos in Hcs. simpl in Hcs.
    destruct (Hcs Hin) as [Hrange Hcan]. fold row col in Hrange, Hcan.
    change (posToIndex n row col) with t in Hrange, Hcan.
    destruct (handleTileClick_of_cases (listener p) (current p) t)
      as [[Ha _]|[_ E2]].
    { unfold clickAccepted in Ha. rewrite Hr, Hrun, Hs, Ht, Hb in Ha.
      fold n in Ha. by rewrite Hcan in Ha. }
    assert (t ≠ b) as Htb.
    { intros Heq. rewrite Heq, canSwap_irrefl in Hcan. done. }
    subst s'. rewrite E, E2. simpl.
    rewrite tiles_acceptedBy, moves_acceptedBy, Ht, Hb, len_swap.
    rewrite !arr_get_swap by done. rewrite Z.eqb_refl.
    destruct (Z.eqb_spec t b) as [|_]; [done|]. rewrite Z.eqb_refl.
    split_and!; [done | done | | done | done].
    intros k Hkt Hkb. rewrite arr_get_swap by done.
    destruct (Z.eqb_spec k b); [done|]. by destruct (Z.eqb_spec k t).
  - split; [intros H; apply Hgrid in H; done | intros _; by rewrite E].
Qed.

Lemma onKey_targets_witness :
  let s := State 3 [1; 2; 3; 4; 0; 6; 7; 5; 8] 0 0 true NoMessage
             initialHighScores in
  let p := Page s s in
  let s' := current (handleInput p (Key "ArrowUp")) in
  (0 ≤ 4 `div` 3 + 1 < 3 ∧ 0 ≤ 4 `mod` 3 + 0 < 3 →
     arr_get (tiles s') 4 = arr_get (tiles s) 7
     ∧ arr_get (tiles s') 7 = Some 0
     ∧ (∀ k, k ≠ 7 → k ≠ 4 → arr_get (tiles s') k = arr_get (tiles s) k)
     ∧ len (tiles s') = len (tiles s)
     ∧ moves s' = moves s + 1)
  ∧ (¬ (0 ≤ 4 `div` 3 + 1 < 3 ∧ 0 ≤ 4 `mod` 3 + 0 < 3) →
       handleInput p (Key "ArrowUp") = p).
Proof.
  apply (onKey_targets
           (Page (State 3 [1; 2; 3; 4; 0; 6; 7; 5; 8] 0 0 true NoMessage
                    initialHighScores)
                 (State 3 [1; 2; 3; 4; 0; 6; 7; 5; 8] 0 0 true NoMessage
                    initialHighScores))
           4 "ArrowUp" 1 0).
  - apply (bool_decide_unpack _). vm_compute. exact I.
  - reflexivity.
  - vm_compute. discriminate.
  - apply (bool_decide_unpack _). vm_compute. exact I.
  - reflexivity.
  - apply (bool_decide_unpack _). vm_compute. exact I.
Defined.

Lemma size_handleTileClick (s : state) (i : Z) :
  size (handleTileClick s i) = size s.
Proof.
  destruct (handleTileClick_cases s i) as [[_ ->]|[_ ->]];
    [done | apply size_acceptedState].
Qed.

(** A move and the move in the opposite direction. *)
Lemma move_and_back (s : state) (d1 d2 : string) :
  running s = true → 1 ≤ size s → wf_board (size s) (tiles s) →
  d1 ∈ ["up"; "down"; "left"; "right"]%string →
  directionDelta d2 = (- (directionDelta d1).1, - (directionDelta d1).2) →
  let s1 := moveByDirection s d1 in
  tiles s1 ≠ tiles s → isSolved (tiles s1) = false →
  running s1 = true
  ∧ tiles (moveByDirection s1 d2) = tiles s
  ∧ moves (moveByDirection s1 d2) = moves s + 2.
Proof.
  intros Hrun Hn Hwf Hd1 Hd2 s1 Hchg Hns.
  assert (Z.abs (directionDelta d1).1 + Z.abs (directionDelta d1).2 = 1)
    as Habs.
  { apply list_elem_of_In in Hd1. simpl in Hd1.
    destruct Hd1 as [<-|[<-|[<-|[<-|[]]]]]; reflexivity. }
  destruct (wf_board_blank_pos (size s) (tiles s) Hn Hwf) as (Hr & Hc & Hpi).
  pose proof (moveByDirection_delta s d1) as E1. cbv zeta in E1.
  set (p := indexToPos (size s) (indexOf (tiles s) 0)) in *.
  set (tr := r p + (directionDelta d1).1) in *.
  set (tc := c p + (directionDelta d1).2) in *.
  destruct (inGrid (size s) tr tc) eqn:Hin;
    [|unfold s1 in Hchg; by rewrite E1 in Hchg].
  destruct (canSwap_delta (size s) (tiles s) _ _ Hn Hwf Habs Hin)
    as [Hrange Hcan].
  fold p tr tc in Hrange, Hcan.
  set (t := posToIndex (size s) tr tc) in *.
  assert (clickAccepted s t = true) as Ha.
  { unfold clickAccepted. by rewrite Hrun, Hcan. }
  assert (s1 = handleTileClick s t) as Hs1 by done.
  rewrite Hs1 in Hns.
  destruct (click_back s t Hrun Hn Hwf Hrange Ha Hns) as [Ht Hm].
  assert (tiles (handleTileClick s t)
          = swap (tiles s) t (indexOf (tiles s) 0)) as Htiles.
  { destruct (handleTileClick_cases s t) as [[E _]|[_ ->]]; [congruence|].
    apply tiles_acceptedState. }
  assert (running s1 = true) as Hrun1.
  { rewrite Hs1.
    destruct (handleTileClick_cases s t) as [[E _]|[_ ->]]; [congruence|].
    rewrite Htiles in Hns. by rewrite acceptedState_not_won. }
  split; [done|].
  assert (moveByDirection s1 d2
          = handleTileClick s1 (indexOf (tiles s) 0)) as ->; [|by rewrite Hs1].
  rewrite moveByDirection_delta, Hs1, size_handleTileClick, Htiles.
  rewrite (blank_after_swap (size s)) by done.
  unfold inGrid in Hin. apply andb_true_iff in Hin as [Hin Hc2].
  apply andb_true_iff in Hin as [Hin Hc1].
  apply andb_true_iff in Hin as [Hr1 Hr2].
  apply Z.leb_le in Hr1, Hc1. apply Z.ltb_lt in Hr2, Hc2.
  unfold t. rewrite indexToPos_posToIndex by lia. simpl.
  rewrite Hd2. simpl.
  replace (tr + - (directionDelta d1).1) with (r p) by (unfold tr; lia).
  replace (tc + - (directionDelta d1).2) with (c p) by (unfold tc; lia).
  rewrite Hpi.
  assert (inGrid (size s) (r p) (c p) = true) as ->; [|done].
  unfold inGrid. zcases.
Qed.

(** X5.  While running, when an arrow key moved a tile and the board
    is not solved by it, the opposite arrow key moves the tile back:
    the board is the former one and the counter has advanced by
    two. *)
Theorem opposite_keys_undo (s : state) (k1 k2 : string) :
  running s = true → 1 ≤ size s → wf_board (size s) (tiles s) →
  (k1, k2) ∈ [("ArrowUp", "ArrowDown"); ("ArrowDown", "ArrowUp");
              ("ArrowLeft", "ArrowRight"); ("ArrowRight", "ArrowLeft")]%string →
  let s1 := onKey s k1 in
  tiles s1 ≠ tiles s → isSolved (tiles s1) = false →
  tiles (onKey s1 k2) = tiles s ∧ moves (onKey s1 k2) = moves s + 2.
Proof.
  intros Hrun Hn Hwf Hk s1 Hchg Hns.
  assert (∃ d1 d2, keyMap k1 = Some d1 ∧ keyMap k2 = Some d2
                   ∧ d1 ∈ ["up"; "down"; "left"; "right"]%string
                   ∧ directionDelta d2
                     = (- (directionDelta d1).1, - (directionDelta d1).2))
    as (d1 & d2 & Hk1 & Hk2 & Hd1 & Hd2).
  { apply list_elem_of_In in Hk. simpl in Hk.
    destruct Hk as [[= <- <-]|[[= <- <-]|[[= <- <-]|[[= <- <-]|[]]]]].
    - exists "down"%string, "up"%string. split_and!; try done.
      apply (bool_decide_unpack _). vm_compute. exact I.
    - exists "up"%string, "down"%string. split_and!; try done.
      apply (bool_decide_unpack _). vm_compute. exact I.
    - exists "right"%string, "left"%string. split_and!; try done.
      apply (bool_decide_unpack _). vm_compute. exact I.
    - exists "left"%string, "right"%string. split_and!; try done.
      apply (bool_decide_unpack _). vm_compute. exact I. }
  assert (s1 = moveByDirection s d1) as Hs1.
  { unfold s1, onKey. by rewrite Hrun, Hk1. }
  rewrite Hs1 in Hchg, Hns.
  destruct (move_and_back s d1 d2 Hrun Hn Hwf Hd1 Hd2 Hchg Hns)
    as (Hrun1 & Ht & Hm).
  unfold onKey. rewrite Hs1, Hrun1, Hk2. simpl. done.
Qed.

Lemma opposite_keys_undo_witness :
  let s := State 3 [1; 2; 3; 4; 0; 6; 7; 5; 8] 0 0 true NoMessage
             initialHighScores in
  let s1 := onKey s "ArrowUp" in
  tiles s1 = [1; 2; 3; 4; 5; 6; 7; 0; 8]
  ∧ tiles (onKey s1 "ArrowDown") = tiles s
  ∧ moves (onKey s1 "ArrowDown") = moves s + 2.
Proof.
  split; [reflexivity|].
  apply (opposite_keys_undo
           (State 3 [1; 2; 3; 4; 0; 6; 7; 5; 8] 0 0 true NoMessage
              initialHighScores) "ArrowUp" "ArrowDown").
  - reflexivity.
  - vm_compute. discriminate.
  - apply (bool_decide_unpack _). vm_compute. exact I.
  - apply (bool_decide_unpack _). vm_compute. exact I.
  - vm_compute. discriminate.
  - reflexivity.
Defined.

(** X6.  On a board of dimension at least 2 there are always two
    different tiles whose click is accepted while running: one in the
    column of the blank and one in its row. *)
Theorem always_two_moves (s : state) :
  running s = true → 2 ≤ size s → wf_board (size s) (tiles s) →
  ∃ i j, i ≠ j
         ∧ 0 ≤ i < len (tiles s) ∧ 0 ≤ j < len (tiles s)
         ∧ clickAccepted s i = true ∧ clickAccepted s j = true.
Proof.
  intros Hrun Hn Hwf.
  destruct (wf_board_blank_pos (size s) (tiles s) ltac:(lia) Hwf)
    as (Hr & Hc & Hpi).
  set (p := indexToPos (size s) (indexOf (tiles s) 0)) in *.
  set (dr := if r p + 1 <? size s then 1 else -1).
  set (dc := if c p + 1 <? size s then 1 else -1).
  assert (inGrid (size s) (r p + dr) (c p + 0) = true) as Hv.
  { unfold inGrid, dr. zcases. }
  assert (inGrid (size s) (r p + 0) (c p + dc) = true) as Hh.
  { unfold inGrid, dc. zcases. }
  assert (Z.abs dr + Z.abs 0 = 1) as Hadr by (unfold dr; zcases).
  assert (Z.abs 0 + Z.abs dc = 1) as Hadc by (unfold dc; zcases).
  destruct (canSwap_delta (size s) (tiles s) dr 0 ltac:(lia) Hwf Hadr Hv)
    as [Hri Hci].
  destruct (canSwap_delta (size s) (tiles s) 0 dc ltac:(lia) Hwf Hadc Hh)
    as [Hrj Hcj].
  fold p in Hri, Hci, Hrj, Hcj.
  exists (posToIndex (size s) (r p + dr) (c p + 0)),
    (posToIndex (size s) (r p + 0) (c p + dc)).
  unfold clickAccepted. rewrite Hrun, Hci, Hcj.
  split_and!; try done; try lia.
  unfold posToIndex, dr, dc. zcases; nia.
Qed.

Lemma always_two_moves_witness :
  let s := State 3 [1; 2; 3; 4; 5; 6; 7; 8; 0] 0 0 true NoMessage
             initialHighScores in
  ∃ i j, i ≠ j
         ∧ 0 ≤ i < len (tiles s) ∧ 0 ≤ j < len (tiles s)
         ∧ clickAccepted s i = true ∧ clickAccepted s j = true.
Proof.
  apply (always_two_moves
           (State 3 [1; 2; 3; 4; 5; 6; 7; 8; 0] 0 0 true NoMessage
              initialHighScores)).
  - reflexivity.
  - vm_compute. discriminate.
  - apply (bool_decide_unpack _). vm_compute. exact I.
Defined.

(** ** The solvability test *)

(** On an array without repetition, exchanging two cells renames the
    two values. *)
Lemma swap_exch (arr : list Z) (i j x y : Z) :
  NoDup arr → arr_get arr i = Some x → arr_get arr j = Some y →
  swap arr i j = exch x y <$> arr.
Proof.
  intros Hnd Hi Hj.
  pose proof (arr_get_Some _ _ _ Hi). pose proof (arr_get_Some _ _ _ Hj).
  apply arr_eq. intros k. rewrite arr_get_swap, arr_get_fmap by done.
  destruct (Z.eqb_spec k j) as [->|Hkj].
  { by rewrite Hi, Hj; simpl; rewrite exch_r. }
  destruct (Z.eqb_spec k i) as [->|Hki].
  { by rewrite Hi, Hj; simpl; rewrite exch_l. }
  destruct (arr_get arr k) as [v|] eqn:Hk; [|done]. simpl. f_equal.
  unfold exch.
  destruct (Z.eqb_spec v x) as [->|_].
  { pose proof (arr_get_NoDup _ _ _ _ Hnd Hk Hi). done. }
  destruct (Z.eqb_spec v y) as [->|_]; [|done].
  pose proof (arr_get_NoDup _ _ _ _ Hnd Hk Hj). done.
Qed.

(** X7.  On a board of dimension [n], exchanging the tiles of two
    different cells, neither of them the blank, turns the answer of
    [isSolvable] into its opposite. *)
Theorem swap_tiles_flips_isSolvable (n : Z) (arr : list Z) (i j : Z) :
  1 ≤ n → wf_board n arr →
  0 ≤ i < len arr → 0 ≤ j < len arr → i ≠ j →
  i ≠ indexOf arr 0 → j ≠ indexOf arr 0 →
  isSolvable (swap arr i j) n = negb (isSolvable arr n).
Proof.
  intros Hn Hwf Hi Hj Hij Hib Hjb.
  pose proof (wf_board_NoDup n arr Hwf) as Hnd.
  destruct (arr_get_is_Some arr i Hi) as [x Hx].
  destruct (arr_get_is_Some arr j Hj) as [y Hy].
  assert (x ≠ 0) as Hx0.
  { intros ->. by apply (indexOf_unique arr i 0 Hnd) in Hx. }
  assert (y ≠ 0) as Hy0.
  { intros ->. by apply (indexOf_unique arr j 0 Hnd) in Hy. }
  assert (x ≠ y) as Hxy.
  { intros ->. by pose proof (arr_get_NoDup _ _ _ _ Hnd Hx Hy). }
  rewrite !isSolvable_parity by (try apply wf_board_swap; done).
  rewrite (swap_exch arr i j x y) by done.
  apply exch_parity; eauto using arr_get_elem.
Qed.

Lemma swap_tiles_flips_isSolvable_witness :
  isSolvable (swap [1; 2; 3; 4; 5; 6; 7; 8; 9; 10; 11; 12; 13; 14; 15; 0]
                13 14) 4
  = negb (isSolvable [1; 2; 3; 4; 5; 6; 7; 8; 9; 10; 11; 12; 13; 14; 15; 0] 4).
Proof.
  apply (swap_tiles_flips_isSolvable 4
           [1; 2; 3; 4; 5; 6; 7; 8; 9; 10; 11; 12; 13; 14; 15; 0] 13 14).
  - lia.
  - apply (bool_decide_unpack _). vm_compute. exact I.
  - vm_compute. split; [discriminate | reflexivity].
  - vm_compute. split; [discriminate | reflexivity].
  - lia.
  - vm_compute. discriminate.
  - vm_compute. discriminate.
Defined.

(** ** Inversions of a board *)

Lemma below_le_len (x : Z) (l : list Z) : below x l ≤ len l.
Proof.
  unfold below, len. pose proof (length_filter (λ y, y < x) l). lia.
Qed.

Lemma below_0_iff (x : Z) (l : list Z) :
  below x l = 0 ↔ Forall (Z.le x) l.
Proof.
  split; [|apply below_0].
  induction l as [|y l IH]; intros H; [done|].
  rewrite below_cons in H. pose proof (below_nonneg x l).
  destruct (Z.ltb_spec y x); [lia|].
  constructor; [done | apply IH; lia].
Qed.

Lemma inversions_0_iff (l : list Z) :
  inversions l = 0 ↔ StronglySorted Z.le l.
Proof.
  induction l as [|x l IH]; simpl.
  - split; [constructor | done].
  - pose proof (below_nonneg x l). pose proof (inversions_nonneg l).
    rewrite StronglySorted_cons, <- IH, <- below_0_iff. lia.
Qed.

Lemma inversions_bound (l : list Z) :
  2 * inversions l ≤ len l * (len l - 1).
Proof.
  induction l as [|x l IH]; simpl; [done|].
  pose proof (below_le_len x l). pose proof (len_nonneg l).
  rewrite len_cons. nia.
Qed.

Lemma StronglySorted_seqZ (m k : Z) : StronglySorted Z.le (seqZ m k).
Proof.
  destruct (decide (0 ≤ k)) as [Hk|Hk].
  - revert m. pattern k. apply natlike_ind; [| |done].
    + constructor.
    + clear k Hk. intros k Hk IH m.
      rewrite seqZ_cons by lia. rewrite Z.pred_succ.
      constructor; [apply IH|].
      apply Forall_forall. intros y Hy%elem_of_seqZ. lia.
  - unfold seqZ. replace (Z.to_nat k) with 0%nat by lia. constructor.
Qed.

(** X8.  The count of [inversionCount] lies between 0 and
    [m * (m - 1) / 2] for [m] tiles, and is 0 exactly when the tiles,
    read without the blank, are in increasing order; on a board of
    dimension [n] that is exactly when they read 1, 2, ..., n*n - 1,
    wherever the blank is. *)
Theorem inversionCount_zero_sorted (n : Z) (arr : list Z) :
  1 ≤ n → wf_board n arr →
  let nums := filter (λ v, v ≠ 0) arr in
  0 ≤ inversionCount arr
  ∧ 2 * inversionCount arr ≤ len nums * (len nums - 1)
  ∧ (inversionCount arr = 0 ↔ StronglySorted Z.le nums)
  ∧ (inversionCount arr = 0 ↔ nums = seqZ 1 (n * n - 1)).
Proof.
  intros Hn Hwf nums. rewrite inversionCount_inversions. fold nums.
  assert (nums ≡ₚ seqZ 1 (n * n - 1)) as Hperm.
  { unfold nums. rewrite Hwf. rewrite (seqZ_cons 0 (n * n)) by nia.
    rewrite filter_nonzero_blank, filter_nonzero_id.
    - by replace (Z.succ 0) with 1 by lia;
        replace (Z.pred (n * n)) with (n * n - 1) by lia.
    - intros H%elem_of_seqZ. lia. }
  split_and!.
  - apply inversions_nonneg.
  - apply inversions_bound.
  - apply inversions_0_iff.
  - rewrite inversions_0_iff. split.
    + intros Hs. apply (StronglySorted_unique Z.le); [done | | done].
      apply StronglySorted_seqZ.
    + intros ->. apply StronglySorted_seqZ.
Qed.

Lemma inversionCount_zero_sorted_witness :
  let arr := [1; 2; 0; 3; 4; 5; 6; 7; 8] in
  let nums := filter (λ v, v ≠ 0) arr in
  0 ≤ inversionCount arr
  ∧ 2 * inversionCount arr ≤ len nums * (len nums - 1)
  ∧ (inversionCount arr = 0 ↔ StronglySorted Z.le nums)
  ∧ (inversionCount arr = 0 ↔ nums = seqZ 1 (3 * 3 - 1)).
Proof.
  apply (inversionCount_zero_sorted 3 [1; 2; 0; 3; 4; 5; 6; 7; 8]).
  - lia.
  - apply (bool_decide_unpack _). vm_compute. exact I.
Defined.

(** X9.  For dimension 1 the loop of [shuffleToSolvable] never ends:
    the only board is the solved one, which every round rejects,
    whatever the random numbers and however many rounds are run. *)
Theorem shuffleToSolvable_one_never_returns (fuel : nat) (rng : nat → rand) :
  shuffleToSolvable fuel rng 1 = None.
Proof.
  unfold shuffleToSolvable. generalize 0%nat.
  induction fuel as [|fuel IH]; intros p; [done|].
  assert (fisherYates rng p (makeSolved 1) = ([0], p)) as E by reflexivity.
  assert (isSolved [0] = true) as Hs by reflexivity.
  cbn [shuffleToSolvable_from]. rewrite E, Hs, orb_true_r. apply IH.
Qed.

(** ** Inputs and the solvability test *)

(** One input keeps the level, the cells and the answer of the test,
    and leaves the listener in step. *)
Lemma handleInput_keeps (p : page) (inp : input) :
  1 ≤ size (current p) → wf_board (size (current p)) (tiles (current p)) →
  listenerSynced p → rendered (current p) inp →
  let s := current p in
  let s' := current (handleInput p inp) in
  size s' = size s
  ∧ wf_board (size s) (tiles s')
  ∧ isSolvable (tiles s') (size s) = isSolvable (tiles s) (size s)
  ∧ listenerSynced (handleInput p inp).
Proof.
  intros Hn Hwf Hsync Hr. cbv zeta.
  destruct (closureOf_synced p inp Hsync) as (Ht & _).
  destruct (handleInput_cases p inp Hn Hwf Hsync Hr)
    as [->|(i & Hi & Ha & ->)]; [done|].
  simpl. rewrite size_acceptedBy, tiles_acceptedBy, Ht.
  pose proof (handleTileClick_legal_move (current p) i Hi Ha) as Hm.
  destruct (handleTileClick_cases (current p) i) as [[E _]|[_ E]];
    [congruence|].
  rewrite E, tiles_acceptedState in Hm.
  split_and!; [done | by eapply legal_move_wf | | done].
  by apply legal_move_isSolvable.
Qed.

(** X10.  Clicks and keys never change what [isSolvable] answers: after
    any sequence of clicks on rendered tiles and of keys, on any board
    of the level, the board is still a board of the level and the
    test answers as it did before; a board that cannot be solved stays
    one.  This holds whatever counter and time the registered listener
    closed over, as long as it is in step with the state. *)
Theorem inputs_keep_isSolvable (p : page) (inps : list input) :
  listenerSynced p →
  1 ≤ size (current p) → wf_board (size (current p)) (tiles (current p)) →
  Forall (rendered (current p)) inps →
  let s := current p in
  let s' := current (foldl handleInput p inps) in
  size s' = size s
  ∧ wf_board (size s) (tiles s')
  ∧ isSolvable (tiles s') (size s) = isSolvable (tiles s) (size s).
Proof.
  intros Hsync Hn Hwf Hall. cbv zeta. revert p Hsync Hn Hwf Hall.
  induction inps as [|inp inps IH]; intros p Hsync Hn Hwf Hall; [done|].
  apply Forall_cons in Hall as [Hr Hall]. simpl.
  destruct (handleInput_keeps p inp Hn Hwf Hsync Hr)
    as (Hsz & Hwf' & Hsolv & Hsync').
  assert (len (tiles (current (handleInput p inp)))
          = len (tiles (current p))) as Hlen.
  { rewrite !(wf_board_len (size (current p))) by done. done. }
  destruct (IH (handleInput p inp)) as (H1 & H2 & H3).
  - done.
  - by rewrite Hsz.
  - by rewrite Hsz.
  - eapply Forall_impl; [done|]. intros [i|key]; simpl; [|done].
    by rewrite Hlen.
  - rewrite Hsz in H1, H2, H3. split_and!; [done | done | congruence].
Qed.

Lemma inputs_keep_isSolvable_witness :
  let s := State 3 [2; 1; 3; 4; 5; 6; 7; 8; 0] 0 0 true NoMessage
             initialHighScores in
  let l := State 3 [2; 1; 3; 4; 5; 6; 7; 8; 0] 7 3 true NoMessage
             initialHighScores in
  let s' := current (foldl handleInput (Page s l)
                       [Key "ArrowDown"; Click 7; Click 0]) in
  size s' = size s
  ∧ wf_board (size s) (tiles s')
  ∧ isSolvable (tiles s') (size s) = isSolvable (tiles s) (size s).
Proof.
  apply (inputs_keep_isSolvable
           (Page (State 3 [2; 1; 3; 4; 5; 6; 7; 8; 0] 0 0 true NoMessage
                    initialHighScores)
                 (State 3 [2; 1; 3; 4; 5; 6; 7; 8; 0] 7 3 true NoMessage
                    initialHighScores))
           [Key "ArrowDown"; Click 7; Click 0]).
  - apply (bool_decide_unpack _). vm_compute. exact I.
  - vm_compute. discriminate.
  - apply (bool_decide_unpack _). vm_compute. exact I.
  - repeat constructor; vm_compute; discriminate.
Defined.

(** ** Invariants of the mounted component *)

Lemma initialHighScores_no_score (n v : Z) :
  initialHighScores !! n ≠ Some (Some v).
Proof.
  unfold initialHighScores. intros H.
  repeat (apply lookup_insert_Some in H as [[_ H]|[_ H]]; [done|]).
  by rewrite lookup_empty in H.
Qed.

(** What holds in every page of the component besides
    [engine_invariant]: the board passes the test; a running game is
    not on a solved board; the counters are not negative, and the
    counter the registered listener closed over is not below the
    counter of the state; every stored score is at least 1; and a win
    message is shown only on a stopped, solved board, by a page whose
    listener is the one of the latest render, with a count that is not
    below the counter and a best score that is not above the count. *)
Lemma engine_invariant_more (k : Z) (p : page) :
  engine k p →
  isSolvable (tiles (current p)) (size (current p)) = true
  ∧ (running (current p) = true → isSolved (tiles (current p)) = false)
  ∧ 0 ≤ moves (current p) ≤ moves (listener p)
  ∧ 0 ≤ time (current p) ∧ 0 ≤ time (listener p)
  ∧ (∀ n v, highScores (current p) !! n = Some (Some v) → 1 ≤ v)
  ∧ (∀ m t, message (current p) = SolvedMessage m t →
       running (current p) = false ∧ isSolved (tiles (current p)) = true
       ∧ listener p = current p
       ∧ 1 ≤ moves (current p) ≤ m ∧ 0 ≤ t
       ∧ ∃ best, highScores (current p) !! size (current p)
                 = Some (Some best) ∧ 1 ≤ best ≤ m).
Proof.
  assert (∀ n : Z, n ∈ [3; 4; 5] → n ≠ 0) as Hsize.
  { intros n Hn%list_elem_of_In. simpl in Hn. lia. }
  intros He. pose proof (engine_invariant k p He) as Hinv. revert Hinv.
  induction He as [fuel rng s Hrng Hreset
                  |k p inp He IH Hrend
                  |k p fuel rng p' He IH Hrng Hstart
                  |k p fuel rng p' He IH Hrng Hrestart
                  |k p n fuel rng p' He IH Hrng Hn Hsel
                  |k p He IH]; intros Hinv.
  - unfold resetBoard in Hreset.
    destruct (shuffleToSolvable fuel rng 4) as [arr|] eqn:Hgen; [|done].
    injection Hreset as <-. simpl.
    apply shuffleToSolvable_from_Some in Hgen as (_ & Hs & _); [|lia].
    split_and!; try done.
    intros n v H. by apply initialHighScores_no_score in H.
  - destruct (engine_invariant k p He) as (Hm & Hwf & Hsz & Hhs & Hsync).
    destruct (IH (engine_invariant k p He))
      as (Hsolv & Hrun & Hmv & Htm & Htl & Hpos & Hmsg).
    assert (1 ≤ size (current p)) as Hn.
    { apply list_elem_of_In in Hsz. simpl in Hsz. lia. }
    destruct (closureOf_synced p inp Hsync) as (Ht & Hr & Hs & Hh).
    assert (moves (current p) ≤ moves (closureOf p inp)
            ∧ 0 ≤ time (closureOf p inp)) as [Hcm Hct].
    { destruct inp; simpl; lia. }
    destruct (handleInput_cases p inp Hn Hwf Hsync Hrend)
      as [->|(i & Hi & Ha & ->)]; [done|].
    pose proof (handleTileClick_legal_move (current p) i Hi Ha) as Hlm.
    destruct (handleTileClick_cases (current p) i) as [[E _]|[_ E]];
      [congruence|].
    rewrite E, tiles_acceptedState in Hlm.
    pose proof (legal_move_isSolvable _ _ _ Hn Hwf Hlm) as Hsolv'.
    assert (running (current p) = true) as Hrs.
    { unfold clickAccepted in Ha. by apply andb_true_iff in Ha as [? _]. }
    assert (message (current p) = NoMessage) as Hnm.
    { destruct (message (current p)) as [|m t] eqn:Em; [done|].
      destruct (Hmsg m t eq_refl) as (Hf & _). congruence. }
    generalize dependent (closureOf p inp). intros cl Ht Hr Hs Hh Hcm Hct.
    unfold acceptedBy. rewrite Ht.
    destruct (isSolved (swap (tiles (current p)) i
                          (indexOf (tiles (current p)) 0))) eqn:Ew;
      unfold onWin; simpl.
    + rewrite Hs, Hh, Ew, Hsolv', Hsolv. split_and!; try done; try lia.
      * intros n v.
        destruct (betterScore _ _ _); [|by apply Hpos].
        intros [[_ [= <-]]|[_ H]]%lookup_insert_Some; [lia|by eapply Hpos].
      * intros m t [= <- <-]. split_and!; try done; try lia.
        unfold betterScore.
        destruct (Hhs (size (current p)) Hsz) as [stored Hst].
        rewrite Hst. destruct stored as [best|].
        -- destruct (Z.ltb_spec (moves cl + 1) best).
           ++ exists (moves cl + 1). rewrite lookup_insert_eq.
              split; [done | lia].
           ++ exists best. split; [done|]. pose proof (Hpos _ _ Hst). lia.
        -- exists (moves cl + 1). rewrite lookup_insert_eq.
           split; [done | lia].
    + rewrite Ew, Hsolv', Hsolv, Hnm. split_and!; try done; lia.
  - destruct (engine_invariant k p He) as (Hm & Hwf & Hsz & Hhs & Hsync).
    destruct (IH (engine_invariant k p He))
      as (Hsolv & Hrun & Hmv & Htm & Htl & Hpos & Hmsg).
    unfold pressStart, startGame in Hstart.
    destruct (isSolved (tiles (current p))) eqn:Ed.
    + destruct (shuffleToSolvable fuel rng (size (current p))) as [arr|]
        eqn:Hgen; [|done].
      injection Hstart as <-. simpl.
      apply shuffleToSolvable_from_Some in Hgen as (_ & Hs & Hd);
        [|by apply Hsize].
      split_and!; done.
    + injection Hstart as <-. simpl.
      destruct (running (current p)); simpl; split_and!; try done; lia.
  - destruct (engine_invariant k p He) as (Hm & Hwf & Hsz & Hhs & Hsync).
    destruct (IH (engine_invariant k p He))
      as (Hsolv & Hrun & Hmv & Htm & Htl & Hpos & Hmsg).
    unfold pressRestart, restart, resetBoard in Hrestart.
    destruct (shuffleToSolvable fuel rng (size (current p))) as [arr|]
      eqn:Hgen; [|done].
    injection Hrestart as <-. simpl.
    apply shuffleToSolvable_from_Some in Hgen as (_ & Hs & Hd);
      [|by apply Hsize].
    split_and!; done.
  - destruct (IH (engine_invariant k p He))
      as (Hsolv & Hrun & Hmv & Htm & Htl & Hpos & Hmsg).
    unfold pressLevel, selectSize in Hsel.
    destruct (Z.eqb_spec n (size (current p))) as [->|Hne].
    + injection Hsel as <-. by apply IH, (engine_invariant k).
    + unfold resetBoard in Hsel.
      destruct (shuffleToSolvable fuel rng n) as [arr|] eqn:Hgen; [|done].
      injection Hsel as <-. simpl.
      apply shuffleToSolvable_from_Some in Hgen as (_ & Hs & Hd);
        [|by apply Hsize].
      split_and!; done.
  - destruct (IH (engine_invariant k p He))
      as (Hsolv & Hrun & Hmv & Htm & Htl & Hpos & Hmsg).
    unfold timerTick, tick.
    destruct (decide (running (current p) = true)) as [Er|Er].
    + rewrite Er. simpl. split_and!; try done; try lia.
      * intros _. by apply Hrun.
      * intros m t Em. destruct (Hmsg m t Em) as (Hf & _). congruence.
    + apply not_true_is_false in Er. rewrite Er. simpl.
      split_and!; try done; lia.
Qed.

(** A page of the mounted component right after [START]. *)
Lemma engine_started :
  engine 0
    (Page (State 4 [1; 2; 3; 4; 5; 6; 7; 8; 9; 10; 11; 12; 13; 14; 0; 15] 0 0 true NoMessage initialHighScores)
          (State 4 [1; 2; 3; 4; 5; 6; 7; 8; 9; 10; 11; 12; 13; 14; 0; 15] 0 0 true NoMessage initialHighScores)).
Proof.
  apply (engine_start 0
           (Page (State 4 [1; 2; 3; 4; 5; 6; 7; 8; 9; 10; 11; 12; 13; 14; 0; 15] 0 0 false NoMessage initialHighScores)
                 (State 4 [1; 2; 3; 4; 5; 6; 7; 8; 9; 10; 11; 12; 13; 14; 0; 15] 0 0 false NoMessage initialHighScores))
           0 (lucky_rng 4)).
  - apply (engine_mount 1 (lucky_rng 4)).
    + intros [|k]; unfold rand_ok; simpl; lia.
    + reflexivity.
  - intros [|k]; unfold rand_ok; simpl; lia.
  - reflexivity.
Defined.

(** The page after [START], the right and the left key, and [START]
    again: the state is the one right after the first [START], the
    registered listener is still the one of the render that followed
    the second key, when the counter was 2. *)
Lemma engine_started_again :
  engine 0
    (Page (State 4 [1; 2; 3; 4; 5; 6; 7; 8; 9; 10; 11; 12; 13; 14; 0; 15] 0 0 true NoMessage initialHighScores)
          (State 4 [1; 2; 3; 4; 5; 6; 7; 8; 9; 10; 11; 12; 13; 14; 0; 15] 2 0 true NoMessage initialHighScores)).
Proof.
  apply (engine_start 2
           (Page (State 4 [1; 2; 3; 4; 5; 6; 7; 8; 9; 10; 11; 12; 13; 14; 0; 15] 2 0 true NoMessage initialHighScores)
                 (State 4 [1; 2; 3; 4; 5; 6; 7; 8; 9; 10; 11; 12; 13; 14; 0; 15] 2 0 true NoMessage initialHighScores))
           0 (lucky_rng 4)).
  - apply (engine_input 1
             (Page (State 4 [1; 2; 3; 4; 5; 6; 7; 8; 9; 10; 11; 12; 13; 0;
                             14; 15]
                      1 0 true NoMessage initialHighScores)
                   (State 4 [1; 2; 3; 4; 5; 6; 7; 8; 9; 10; 11; 12; 13; 0;
                             14; 15]
                      1 0 true NoMessage initialHighScores))
             (Key "ArrowLeft")).
    + apply (engine_input 0 _ (Key "ArrowRight") engine_started). exact I.
    + exact I.
  - intros [|k]; unfold rand_ok; simpl; lia.
  - reflexivity.
Defined.

(** X11.  The board of the mounted component always passes
    [isSolvable], and so can always be solved by legal moves: no
    press of a button and no move leaves the player with a board that
    has no solution. *)
Theorem engine_board_solvable (k : Z) (p : page) :
  engine k p →
  isSolvable (tiles (current p)) (size (current p)) = true
  ∧ solvable_by_moves (size (current p)) (tiles (current p)).
Proof.
  intros He.
  destruct (engine_invariant k p He) as (_ & Hwf & Hsz & _).
  destruct (engine_invariant_more k p He) as (Hsolv & _).
  split; [done|].
  apply isSolvable_solvable_by_moves; [|done..].
  apply list_elem_of_In in Hsz. simpl in Hsz. lia.
Qed.

Lemma engine_board_solvable_witness :
  let s := State 4 [1; 2; 3; 4; 5; 6; 7; 8; 9; 10; 11; 12; 13; 14; 0; 15] 0 0 true NoMessage initialHighScores in
  isSolvable (tiles s) (size s) = true
  ∧ solvable_by_moves (size s) (tiles s).
Proof. apply (engine_board_solvable 0 _ engine_started). Defined.

(** X12.  While a game is running its board is never the solved one:
    [START] and [RESTART] begin on an unsolved board, and the move that
    solves the board stops the game. *)
Theorem running_game_not_solved (k : Z) (p : page) :
  engine k p → running (current p) = true →
  isSolved (tiles (current p)) = false.
Proof.
  intros He. by destruct (engine_invariant_more k p He) as (_ & H & _).
Qed.

Lemma running_game_not_solved_witness :
  isSolved (tiles (State 4 [1; 2; 3; 4; 5; 6; 7; 8; 9; 10; 11; 12; 13; 14; 0; 15] 0 0 true NoMessage initialHighScores))
  = false.
Proof.
  apply (running_game_not_solved 0 _ engine_started). reflexivity.
Defined.

(** ** Wins *)

(** C6.  The claim fails for a win by key.  The [keydown] listener is
    registered anew only when [tiles] or [running] change.  A [START]
    during a running game on an unsolved board sets the counter to 0
    and changes neither, so the registered [onKey] keeps the counter
    of its render.  After [START], the right key, the left key and
    [START] again on the board 1, ..., 14, blank, 15 the counter is 0
    and the listener holds 2; the left key then solves the board with
    the one accepted move since the reset: the counter becomes 1, but
    the message reports 3 moves and 3 is stored as best score of the
    level, which had none. *)
Theorem stale_listener_win_report :
  let s := State 4 [1; 2; 3; 4; 5; 6; 7; 8; 9; 10; 11; 12; 13; 14; 0; 15] 0 0 true NoMessage initialHighScores in
  let l := State 4 [1; 2; 3; 4; 5; 6; 7; 8; 9; 10; 11; 12; 13; 14; 0; 15] 2 0 true NoMessage initialHighScores in
  let s' := current (handleInput (Page s l) (Key "ArrowLeft")) in
  engine 0 (Page s l)
  ∧ tiles s' ≠ tiles s ∧ isSolved (tiles s') = true
  ∧ running s' = false
  ∧ moves s = 0 ∧ moves s' = 1
  ∧ message s' = SolvedMessage 3 0
  ∧ highScores s !! 4 = Some None
  ∧ highScores s' !! 4 = Some (Some 3).
Proof.
  cbv zeta. split; [exact engine_started_again|].
  split; [vm_compute; discriminate|].
  split_and!; reflexivity.
Qed.

(** X20.  When, while running, a click or key exchanges a tile with
    the blank and the board it leaves is solved: the running flag
    becomes false and the counter, which counts the board-changing
    moves since the counters were last reset, grows by one.  The count
    and the seconds of the message are the counter plus one and the
    time of the render whose handler received the input, and the best
    score of the active level becomes that count exactly when the
    level had no score yet or a strictly greater one.  For a click
    that render is the latest one, so the message reports the counter
    and the time of the page; for a key its count is never below the
    counter.  The render that follows registers a new listener. *)
Theorem win_reported_from_closure (k : Z) (p : page) (inp : input) :
  engine k p → rendered (current p) inp → running (current p) = true →
  let s := current p in
  let cl := closureOf p inp in
  let s' := current (handleInput p inp) in
  tiles s' ≠ tiles s → isSolved (tiles s') = true →
  running s' = false
  ∧ message s' = SolvedMessage (moves cl + 1) (time cl)
  ∧ moves s' = moves s + 1
  ∧ moves s + 1 = k + 1
  ∧ size s' = size s
  ∧ (∃ stored, highScores s !! size s = Some stored
       ∧ highScores s' =
           if match stored with
              | None => true
              | Some best => moves cl + 1 <? best
              end
           then <[size s := Some (moves cl + 1)]> (highScores s)
           else highScores s)
  ∧ (∀ i, inp = Click i → moves cl + 1 = k + 1 ∧ time cl = time s)
  ∧ k + 1 ≤ moves cl + 1
  ∧ listener (handleInput p inp) = s'.
Proof.
  intros He Hrend Hrun s cl s'. subst s cl s'. intros Hchg Hsolved.
  destruct (engine_invariant k p He) as (Hm & Hwf & Hsz & Hhs & Hsync).
  destruct (engine_invariant_more k p He) as (_ & _ & Hmv & _).
  assert (1 ≤ size (current p)) as Hn.
  { apply list_elem_of_In in Hsz. simpl in Hsz. lia. }
  destruct (Hhs _ Hsz) as [stored Hst].
  destruct (closureOf_synced p inp Hsync) as (Ht & Hr & Hs & Hh).
  assert (moves (current p) ≤ moves (closureOf p inp)) as Hcm.
  { destruct inp; simpl; lia. }
  assert (∀ i, inp = Click i →
            moves (closureOf p inp) + 1 = k + 1
            ∧ time (closureOf p inp) = time (current p)) as Hclick.
  { intros i ->. simpl. split; [lia | done]. }
  destruct (handleInput_cases p inp Hn Hwf Hsync Hrend)
    as [E|(i & Hi & Ha & E)]; rewrite E in *; [done|].
  simpl in *. rewrite tiles_acceptedBy in Hsolved.
  unfold acceptedBy. rewrite Hsolved.
  unfold onWin, betterScore. simpl. rewrite Hs, Hh, Hst.
  split_and!; [done | done | done | lia | done | | done | lia | done].
  exists stored. split; [done|]. by destruct stored.
Qed.

Lemma win_reported_from_closure_witness :
  let s := State 4 [1; 2; 3; 4; 5; 6; 7; 8; 9; 10; 11; 12; 13; 14; 0; 15] 0 0 true NoMessage initialHighScores in
  let p := Page s s in
  let s' := current (handleInput p (Click 15)) in
  running s' = false
  ∧ message s' = SolvedMessage (moves s + 1) (time s)
  ∧ moves s' = moves s + 1
  ∧ moves s + 1 = 0 + 1
  ∧ size s' = size s
  ∧ (∃ stored, highScores s !! size s = Some stored
       ∧ highScores s' =
           if match stored with
              | None => true
              | Some best => moves s + 1 <? best
              end
           then <[size s := Some (moves s + 1)]> (highScores s)
           else highScores s)
  ∧ (∀ i, Click 15 = Click i → moves s + 1 = 0 + 1 ∧ time s = time s)
  ∧ 0 + 1 ≤ moves s + 1
  ∧ listener (handleInput p (Click 15)) = s'.
Proof.
  apply (win_reported_from_closure 0 _ (Click 15) engine_started).
  - vm_compute. split; [discriminate | reflexivity].
  - reflexivity.
  - vm_compute. discriminate.
  - reflexivity.
Defined.

(** X13.  Whenever the win message is shown, the game is stopped on
    the solved board, the registered listener is the one of the latest
    render, the counter is at least 1, the count in the message is not
    below the counter, and the best score of the level is at least 1
    and at most the count in the message. *)
Theorem win_message_consistent (k : Z) (p : page) (m t : Z) :
  engine k p → message (current p) = SolvedMessage m t →
  running (current p) = false ∧ isSolved (tiles (current p)) = true
  ∧ listener p = current p
  ∧ 1 ≤ moves (current p) ≤ m ∧ 0 ≤ t
  ∧ ∃ best, highScores (current p) !! size (current p) = Some (Some best)
            ∧ 1 ≤ best ≤ m.
Proof.
  intros He Hm.
  destruct (engine_invariant_more k p He) as (_ & _ & _ & _ & _ & _ & H).
  by apply H.
Qed.

Lemma win_message_consistent_witness :
  let s := State 4 [1; 2; 3; 4; 5; 6; 7; 8; 9; 10; 11; 12; 13; 14; 0; 15] 0 0 true NoMessage initialHighScores in
  let l := State 4 [1; 2; 3; 4; 5; 6; 7; 8; 9; 10; 11; 12; 13; 14; 0; 15] 2 0 true NoMessage initialHighScores in
  let p := handleInput (Page s l) (Key "ArrowLeft") in
  running (current p) = false ∧ isSolved (tiles (current p)) = true
  ∧ listener p = current p
  ∧ 1 ≤ moves (current p) ≤ 3 ∧ 0 ≤ 0
  ∧ ∃ best, highScores (current p) !! size (current p) = Some (Some best)
            ∧ 1 ≤ best ≤ 3.
Proof.
  eapply (win_message_consistent _ _ 3 0).
  - apply (engine_input 0 _ (Key "ArrowLeft") engine_started_again).
    exact I.
  - reflexivity.
Defined.

(** X14.  Every stored best score is at least 1, so the high score
    field of the page shows the dashes exactly when the level has no
    score yet, and otherwise the stored score. *)
Theorem highScore_shown (k : Z) (p : page) :
  engine k p →
  let s := current p in
  (∀ n v, highScores s !! n = Some (Some v) → 1 ≤ v)
  ∧ (highScoreShown s = None ↔ highScores s !! size s = Some None)
  ∧ (∀ v, highScoreShown s = Some v ↔
          highScores s !! size s = Some (Some v)).
Proof.
  intros He s. subst s.
  destruct (engine_invariant k p He) as (_ & _ & Hsz & Hhs & _).
  destruct (engine_invariant_more k p He) as (_ & _ & _ & _ & _ & Hpos & _).
  split; [done|]. unfold highScoreShown.
  destruct (Hhs (size (current p)) Hsz) as [stored Hst]. rewrite Hst.
  destruct stored as [v|]; [|split; [done | intros v; split; done]].
  pose proof (Hpos _ _ Hst). destruct (Z.eqb_spec v 0); [lia|].
  split; [done|]. intros w. split; congruence.
Qed.

Lemma highScore_shown_witness :
  let s := current (handleInput
                      (Page (State 4 [1; 2; 3; 4; 5; 6; 7; 8; 9; 10; 11; 12; 13; 14; 0; 15] 0 0 true NoMessage
                               initialHighScores)
                            (State 4 [1; 2; 3; 4; 5; 6; 7; 8; 9; 10; 11; 12; 13; 14; 0; 15] 0 0 true NoMessage
                               initialHighScores))
                      (Click 15)) in
  (∀ n v, highScores s !! n = Some (Some v) → 1 ≤ v)
  ∧ (highScoreShown s = None ↔ highScores s !! size s = Some None)
  ∧ (∀ v, highScoreShown s = Some v ↔
          highScores s !! size s = Some (Some v)).
Proof.
  eapply highScore_shown.
  apply (engine_input 0 _ (Click 15) engine_started).
  vm_compute. split; [discriminate | reflexivity].
Defined.

(** ** What an older listener changes *)

(** A key handled by a listener in step with the state is accepted
    exactly when the listener of the latest render would accept it,
    with the same target. *)
Lemma onKey_of_synced (l cur : state) (key : string) :
  tiles l = tiles cur → running l = running cur → size l = size cur →
  (onKey_of l cur key = None ∧ onKey_of cur cur key = None)
  ∨ ∃ i, onKey_of l cur key = Some (acceptedBy l cur i)
         ∧ onKey_of cur cur key = Some (acceptedBy cur cur i).
Proof.
  intros Ht Hr Hs.
  unfold onKey_of, moveByDirection_of, handleTileClick_of, acceptedBy.
  rewrite Ht, Hr, Hs.
  destruct (running cur); simpl; [|by left].
  destruct (keyMap key) as [direction|]; [|by left].
  destruct (_ || _); [by left|].
  destruct (canSwap _ _ _); [|by left].
  right. by eexists.
Qed.

(** X21.  As long as the registered listener is in step with the
    state, an input leaves the level, the board, the counter, the
    time and the running flag that the handler of the latest render
    would leave: an older listener can only change the message and the
    table of best scores.  When it also closed over the counter and
    the time of the state, the whole state is the same; for a click it
    always is. *)
Theorem listener_in_step_acts_alike (p : page) (inp : input) :
  listenerSynced p →
  let s := current p in
  let s1 := match inp with
            | Click i => handleTileClick s i
            | Key key => onKey s key
            end in
  let s' := current (handleInput p inp) in
  size s' = size s1 ∧ tiles s' = tiles s1 ∧ moves s' = moves s1
  ∧ time s' = time s1 ∧ running s' = running s1
  ∧ (moves (closureOf p inp) = moves s → time (closureOf p inp) = time s →
     s' = s1)
  ∧ (∀ i, inp = Click i → s' = s1).
Proof.
  intros (Ht & Hr & Hs & Hh) s s1 s'. subst s s1 s'.
  assert (∀ i, current (handleInput p (Click i))
               = handleTileClick (current p) i) as Hclick.
  { intros i. rewrite handleTileClick_of_same. unfold handleInput.
    by destruct (handleTileClick_of _ _ _). }
  destruct inp as [i|key]; [rewrite Hclick; by split_and!|].
  rewrite onKey_of_same. unfold handleInput. simpl.
  destruct (onKey_of_synced (listener p) (current p) key Ht Hr Hs)
    as [[-> ->]|(i & -> & ->)]; simpl; [by split_and!|].
  rewrite !size_acceptedBy, !tiles_acceptedBy, !moves_acceptedBy,
    !time_acceptedBy, Ht.
  split_and!; try done.
  - unfold acceptedBy. rewrite Ht. by destruct (isSolved _).
  - intros Hm Htm. unfold acceptedBy, onWin. by rewrite Ht, Hs, Hh, Hm, Htm.
Qed.

Lemma listener_in_step_acts_alike_witness :
  let s := State 4 [1; 2; 3; 4; 5; 6; 7; 8; 9; 10; 11; 12; 13; 14; 0; 15] 0 5 true NoMessage initialHighScores in
  let l := State 4 [1; 2; 3; 4; 5; 6; 7; 8; 9; 10; 11; 12; 13; 14; 0; 15] 2 0 true NoMessage initialHighScores in
  let s1 := onKey s "ArrowLeft" in
  let s' := current (handleInput (Page s l) (Key "ArrowLeft")) in
  size s' = size s1 ∧ tiles s' = tiles s1 ∧ moves s' = moves s1
  ∧ time s' = time s1 ∧ running s' = running s1
  ∧ (moves l = moves s → time l = time s → s' = s1)
  ∧ (∀ i, Key "ArrowLeft" = Click i → s' = s1).
Proof.
  apply (listener_in_step_acts_alike
           (Page (State 4 [1; 2; 3; 4; 5; 6; 7; 8; 9; 10; 11; 12; 13; 14; 0; 15] 0 5 true NoMessage initialHighScores)
                 (State 4 [1; 2; 3; 4; 5; 6; 7; 8; 9; 10; 11; 12; 13; 14; 0; 15] 2 0 true NoMessage initialHighScores))
           (Key "ArrowLeft")).
  apply (bool_decide_unpack _). vm_compute. exact I.
Defined.

(** ** Best scores *)

(** X15.  A click or a key never touches the best score of another
    level, and changes the best score of the current level only when
    it solves the board with a count that the level did not have or
    that is strictly below the stored one; the new best score is then
    that count.  The count is the counter plus one of the render whose
    handler received the input: for a click the counter of the page
    plus one, for a key a number that is not below it. *)
Theorem highScores_only_improve (k : Z) (p : page) (inp : input) (n : Z) :
  engine k p →
  let s := current p in
  let count := moves (closureOf p inp) + 1 in
  let s' := current (handleInput p inp) in
  (n ≠ size s → highScores s' !! n = highScores s !! n)
  ∧ (highScores s' !! size s = highScores s !! size s
     ∨ (isSolved (tiles s') = true
        ∧ highScores s' !! size s = Some (Some count)
        ∧ (highScores s !! size s = Some None
           ∨ ∃ best, highScores s !! size s = Some (Some best)
                     ∧ count < best)))
  ∧ moves s + 1 ≤ count
  ∧ (∀ i, inp = Click i → count = moves s + 1).
Proof.
  intros He s count s'. subst s count s'.
  destruct (engine_invariant k p He) as (_ & _ & _ & _ & Hsync).
  destruct (engine_invariant_more k p He) as (_ & _ & Hmv & _).
  destruct (closureOf_synced p inp Hsync) as (Ht & Hr & Hs & Hh).
  assert (moves (current p) + 1 ≤ moves (closureOf p inp) + 1
          ∧ (∀ i, inp = Click i →
               moves (closureOf p inp) + 1 = moves (current p) + 1))
    as Hcount.
  { split; [destruct inp; simpl; lia|]. by intros i ->. }
  cut ((n ≠ size (current p) →
          highScores (current (handleInput p inp)) !! n
          = highScores (current p) !! n)
       ∧ (highScores (current (handleInput p inp)) !! size (current p)
          = highScores (current p) !! size (current p)
          ∨ (isSolved (tiles (current (handleInput p inp))) = true
             ∧ highScores (current (handleInput p inp)) !! size (current p)
               = Some (Some (moves (closureOf p inp) + 1))
             ∧ (highScores (current p) !! size (current p) = Some None
                ∨ ∃ best, highScores (current p) !! size (current p)
                          = Some (Some best)
                          ∧ moves (closureOf p inp) + 1 < best)))).
  { intros [H1 H2]. destruct Hcount. done. }
  destruct (handleInput_cases_any p inp) as [->|(i & Ha & ->)];
    [split; [done | by left]|].
  simpl. unfold acceptedBy.
  destruct (isSolved (swap (tiles (closureOf p inp)) i
                        (indexOf (tiles (closureOf p inp)) 0))) eqn:Ew;
    simpl; [|split; [done | by left]].
  rewrite Ew. unfold betterScore. rewrite Hs, Hh.
  destruct (highScores (current p) !! size (current p)) as [[best|]|]
    eqn:Est.
  - destruct (Z.ltb_spec (moves (closureOf p inp) + 1) best).
    + split; [intros Hn; by rewrite lookup_insert_ne|].
      right. rewrite lookup_insert_eq. split_and!; [done..|].
      right. by exists best.
    + split; [done | by left].
  - split; [intros Hn; by rewrite lookup_insert_ne|].
    right. rewrite lookup_insert_eq. split_and!; [done..|]. by left.
  - split; [done | left; done].
Qed.

Lemma highScores_only_improve_witness :
  let s := State 4 [1; 2; 3; 4; 5; 6; 7; 8; 9; 10; 11; 12; 13; 14; 0; 15] 0 0 true NoMessage initialHighScores in
  let l := State 4 [1; 2; 3; 4; 5; 6; 7; 8; 9; 10; 11; 12; 13; 14; 0; 15] 2 0 true NoMessage initialHighScores in
  let s' := current (handleInput (Page s l) (Key "ArrowLeft")) in
  (4 ≠ size s → highScores s' !! 4 = highScores s !! 4)
  ∧ (highScores s' !! size s = highScores s !! size s
     ∨ (isSolved (tiles s') = true
        ∧ highScores s' !! size s = Some (Some (moves l + 1))
        ∧ (highScores s !! size s = Some None
           ∨ ∃ best, highScores s !! size s = Some (Some best)
                     ∧ moves l + 1 < best)))
  ∧ moves s + 1 ≤ moves l + 1
  ∧ (∀ i, Key "ArrowLeft" = Click i → moves l + 1 = moves s + 1).
Proof.
  apply (highScores_only_improve 0 _ (Key "ArrowLeft") 4
           engine_started_again).
Defined.

(** ** START, RESTART and the level buttons *)

(** X16.  From any state of the mounted component, [START] and
    [RESTART], when they return, leave a running game with the
    counter and the time at 0 and no message, on a board of the level
    that passes [isSolvable] and is not solved, with the level and the
    best scores as they were; [START] keeps an unsolved board, and
    then needs no random number. *)
Theorem start_restart_fresh (k : Z) (p : page) (fuel : nat)
    (rng : nat → rand) (s' : state) :
  engine k p →
  let s := current p in
  startGame fuel rng s = Some s' ∨ restart fuel rng s = Some s' →
  running s' = true ∧ moves s' = 0 ∧ time s' = 0
  ∧ message s' = NoMessage
  ∧ size s' = size s ∧ highScores s' = highScores s
  ∧ wf_board (size s) (tiles s')
  ∧ isSolvable (tiles s') (size s) = true
  ∧ isSolved (tiles s') = false
  ∧ (isSolved (tiles s) = false →
       startGame 0 rng s = startGame fuel rng s
       ∧ (startGame fuel rng s = Some s' → tiles s' = tiles s)).
Proof.
  intros He s Hop.
  destruct (engine_invariant k p He) as (_ & Hwf & Hsz & _).
  destruct (engine_invariant_more k p He) as (Hsolv & _).
  fold s in Hwf, Hsz, Hsolv. clearbody s. clear He.
  assert (size s ≠ 0) as Hn.
  { apply list_elem_of_In in Hsz. simpl in Hsz. lia. }
  assert (isSolved (tiles s) = false →
          startGame 0 rng s = startGame fuel rng s
          ∧ (startGame fuel rng s = Some s' → tiles s' = tiles s)) as Hkeep.
  { intros Hns. unfold startGame. rewrite Hns. split; [done|].
    by intros [= <-]. }
  destruct Hop as [Hstart|Hrestart].
  - unfold startGame in Hstart. destruct (isSolved (tiles s)) eqn:Ed.
    + destruct (shuffleToSolvable fuel rng (size s)) as [arr|] eqn:Hgen;
        [|done].
      injection Hstart as <-. simpl.
      apply shuffleToSolvable_from_Some in Hgen as (Hw & Hs & Hd); [|done].
      split_and!; done.
    + injection Hstart as <-. simpl. split_and!; try done.
  - unfold restart, resetBoard in Hrestart.
    destruct (shuffleToSolvable fuel rng (size s)) as [arr|] eqn:Hgen;
      [|done].
    injection Hrestart as <-. simpl.
    apply shuffleToSolvable_from_Some in Hgen as (Hw & Hs & Hd); [|done].
    split_and!; done.
Qed.

Lemma start_restart_fresh_witness :
  let s := State 4 [1; 2; 3; 4; 5; 6; 7; 8; 9; 10; 11; 12; 13; 14; 0; 15] 0 0 true NoMessage initialHighScores in
  let s' := State 4 [1; 2; 3; 4; 5; 6; 7; 8; 9; 10; 11; 12; 13; 14; 0; 15] 0 0 true NoMessage initialHighScores in
  running s' = true ∧ moves s' = 0 ∧ time s' = 0
  ∧ message s' = NoMessage
  ∧ size s' = size s ∧ highScores s' = highScores s
  ∧ wf_board (size s) (tiles s')
  ∧ isSolvable (tiles s') (size s) = true
  ∧ isSolved (tiles s') = false
  ∧ (isSolved (tiles s) = false →
       startGame 0 (lucky_rng 4) s = startGame 0 (lucky_rng 4) s
       ∧ (startGame 0 (lucky_rng 4) s = Some s' → tiles s' = tiles s)).
Proof.
  apply (start_restart_fresh 0 _ 0 (lucky_rng 4) _ engine_started).
  left. reflexivity.
Defined.

(** X17.  A level button, when it returns: pressing the button of the
    current level changes nothing; pressing another one puts the
    level at the chosen dimension [n] with a stopped game, the counter
    and the time at 0, no message and an unsolved board of [n * n]
    cells that passes [isSolvable]; the best scores are kept. *)
Theorem select_level (k : Z) (p : page) (n : Z) (fuel : nat)
    (rng : nat → rand) (s' : state) :
  engine k p → n ∈ [3; 4; 5] →
  let s := current p in
  selectSize fuel rng n s = Some s' →
  size s' = n ∧ highScores s' = highScores s
  ∧ wf_board n (tiles s') ∧ len (tiles s') = n * n
  ∧ (n = size s → s' = s)
  ∧ (n ≠ size s →
       running s' = false ∧ moves s' = 0 ∧ time s' = 0
       ∧ message s' = NoMessage
       ∧ isSolvable (tiles s') n = true ∧ isSolved (tiles s') = false).
Proof.
  intros He Hn s Hsel.
  destruct (engine_invariant k p He) as (_ & Hwf & Hsz & _).
  fold s in Hwf, Hsz. clearbody s. clear He.
  assert (1 ≤ n) as Hn1.
  { apply list_elem_of_In in Hn. simpl in Hn. lia. }
  unfold selectSize in Hsel.
  destruct (Z.eqb_spec n (size s)) as [->|Hne].
  - injection Hsel as <-. split_and!; try done.
    rewrite (wf_board_len (size s)) by done. nia.
  - unfold resetBoard in Hsel.
    destruct (shuffleToSolvable fuel rng n) as [arr|] eqn:Hgen; [|done].
    injection Hsel as <-. simpl.
    apply shuffleToSolvable_from_Some in Hgen as (Hw & Hs & Hd); [|lia].
    split_and!; try done.
    rewrite (wf_board_len n) by done. nia.
Qed.

Lemma select_level_witness :
  let s := State 4 [1; 2; 3; 4; 5; 6; 7; 8; 9; 10; 11; 12; 13; 14; 0; 15] 0 0 true NoMessage initialHighScores in
  let s' := State 3 [1; 2; 3; 4; 5; 6; 7; 0; 8] 0 0 false NoMessage
              initialHighScores in
  size s' = 3 ∧ highScores s' = highScores s
  ∧ wf_board 3 (tiles s') ∧ len (tiles s') = 3 * 3
  ∧ (3 = size s → s' = s)
  ∧ (3 ≠ size s →
       running s' = false ∧ moves s' = 0 ∧ time s' = 0
       ∧ message s' = NoMessage
       ∧ isSolvable (tiles s') 3 = true ∧ isSolved (tiles s') = false).
Proof.
  apply (select_level 0 _ 3 1 (lucky_rng 3) _ engine_started).
  - apply (bool_decide_unpack _). vm_compute. exact I.
  - reflexivity.
Defined.

(** ** What the generator can produce *)

Lemma randomIndex_exact (j i : Z) :
  0 ≤ j ≤ i → randomIndex (Rand j (i + 1)) i = j.
Proof.
  intros Hj. unfold randomIndex, floor_div. simpl. apply Z.div_mul. lia.
Qed.

Lemma last_split (l : list Z) :
  0 < len l → ∃ l' y, l = l' ++ [y].
Proof.
  intros Hl. destruct (split_at l (len l - 1)) as (l1 & l2 & -> & H1); [lia|].
  rewrite len_app in H1.
  destruct l2 as [|y [|y' l2]]; [len_lia | by exists l1, y | len_lia].
Qed.

(** The loop of the shuffle can turn the part of the array it still
    works on into any arrangement of that part. *)
Lemma shuffle_loop_reaches (k : nat) (front tfront rest : list Z) :
  length front = S k → tfront ≡ₚ front →
  ∃ rng, rng_ok rng
         ∧ (shuffle_loop k rng 0 (Z.of_nat k) (front ++ rest)).1
           = tfront ++ rest.
Proof.
  revert front tfront rest. induction k as [|k IH];
    intros front tfront rest Hlen Hperm.
  - exists (λ _, Rand 0 1). split; [intros p; unfold rand_ok; simpl; lia|].
    simpl. destruct front as [|x [|x' front]]; [done | | done].
    by apply Permutation_singleton_r in Hperm as ->.
  - destruct (last_split tfront) as (tf' & y & ->).
    { unfold len. rewrite Hperm, Hlen. lia. }
    assert (y ∈ front) as Hy.
    { rewrite <- Hperm. apply elem_of_app. right. by left. }
    apply list_elem_of_split in Hy as (a & b & ->).
    assert (tf' ≡ₚ a ++ b) as Hperm'.
    { apply (Permutation_cons_inv (a := y)).
      by rewrite Permutation_middle, Permutation_cons_append. }
    rewrite length_app in Hlen. simpl in Hlen.
    assert (∃ front', length front' = S k ∧ tf' ≡ₚ front'
              ∧ swap ((a ++ y :: b) ++ rest) (Z.of_nat (S k)) (len a)
                = front' ++ y :: rest) as (front' & Hlen' & Hp & Hswap).
    { destruct (decide (b = [])) as [->|Hb].
      - exists a. rewrite app_nil_r in Hperm'. simpl in Hlen.
        split_and!; [lia | done |].
        replace (Z.of_nat (S k)) with (len a) by (unfold len; lia).
        rewrite swap_same. app_eq.
      - destruct (last_split b) as (b' & z & ->).
        { destruct b; [done | len_lia]. }
        exists (a ++ z :: b'). rewrite length_app in Hlen. simpl in Hlen.
        split_and!.
        + rewrite length_app. simpl. lia.
        + rewrite Hperm'. apply Permutation_app_head.
          by rewrite <- Permutation_cons_append.
        + rewrite swap_comm.
          replace ((a ++ y :: b' ++ [z]) ++ rest)
            with (a ++ y :: b' ++ z :: rest) by app_eq.
          replace (Z.of_nat (S k)) with (len a + 1 + len b')
            by (unfold len; lia).
          rewrite swap_middle. app_eq. }
    destruct (IH front' tf' (y :: rest) Hlen' Hp) as (rng' & Hok & Hres).
    exists (λ p, match p with
                 | O => Rand (len a) (Z.of_nat (S k) + 1)
                 | S p' => rng' p'
                 end).
    split.
    + intros [|p]; [|apply Hok]. unfold rand_ok, len. simpl. lia.
    + cbn [shuffle_loop]. rewrite randomIndex_exact by (unfold len; lia).
      rewrite Hswap.
      replace (Z.of_nat (S k) - 1) with (Z.of_nat k) by lia.
      rewrite (shuffle_loop_ext k _ rng' 1 0) by done.
      rewrite Hres. app_eq.
Qed.

Lemma fisherYates_reaches (arr target : list Z) :
  target ≡ₚ arr →
  ∃ rng, rng_ok rng ∧ (fisherYates rng 0 arr).1 = target.
Proof.
  intros Hperm. unfold fisherYates.
  destruct arr as [|x arr].
  - apply Permutation_nil_r in Hperm as ->.
    exists (λ _, Rand 0 1). split; [intros p; unfold rand_ok; simpl; lia|done].
  - destruct (shuffle_loop_reaches (length arr) (x :: arr) target [])
      as (rng & Hok & Hres); [done | done |].
    exists rng. split; [done|].
    rewrite !app_nil_r in Hres. rewrite <- Hres. rewrite len_cons.
    replace (len arr + 1 - 1) with (Z.of_nat (length arr))
      by (unfold len; lia).
    by rewrite Nat2Z.id.
Qed.

(** X18.  The shuffle can produce every arrangement of the array it
    is given; so for a dimension [n >= 2] every board that passes
    [isSolvable] and is not solved is returned by
    [shuffleToSolvable(n)] for suitable random numbers, already in
    the first round. *)
Theorem shuffleToSolvable_reaches (n : Z) (arr : list Z) :
  2 ≤ n → wf_board n arr → isSolvable arr n = true → isSolved arr = false →
  (∀ start, arr ≡ₚ start →
     ∃ rng, rng_ok rng ∧ (fisherYates rng 0 start).1 = arr)
  ∧ ∃ rng, rng_ok rng ∧ shuffleToSolvable 1 rng n = Some arr.
Proof.
  intros Hn Hwf Hs Hd. split; [intros start; apply fisherYates_reaches|].
  destruct (fisherYates_reaches (makeSolved n) arr) as (rng & Hok & Hres).
  { pose proof (wf_board_makeSolved n ltac:(lia)) as HwfS.
    unfold wf_board in *. by rewrite Hwf, HwfS. }
  exists rng. split; [done|].
  unfold shuffleToSolvable. cbn [shuffleToSolvable_from].
  destruct (fisherYates rng 0 (makeSolved n)) as [b p'] eqn:E.
  simpl in Hres. subst b. by rewrite Hs, Hd.
Qed.

Lemma shuffleToSolvable_reaches_witness :
  (∀ start, [1; 2; 3; 4; 0; 6; 7; 5; 8] ≡ₚ start →
     ∃ rng, rng_ok rng
            ∧ (fisherYates rng 0 start).1 = [1; 2; 3; 4; 0; 6; 7; 5; 8])
  ∧ ∃ rng, rng_ok rng
           ∧ shuffleToSolvable 1 rng 3 = Some [1; 2; 3; 4; 0; 6; 7; 5; 8].
Proof.
  apply (shuffleToSolvable_reaches 3 [1; 2; 3; 4; 0; 6; 7; 5; 8]).
  - lia.
  - apply (bool_decide_unpack _). vm_compute. exact I.
  - reflexivity.
  - reflexivity.
Defined.

(** ** The clock *)

(** A number below 100 is printed and padded as its two digits. *)
Lemma padStart2_two_digits (v : Z) :
  0 ≤ v < 100 →
  padStart2 (toString v)
  = String (digitChar (v `div` 10))
      (String (digitChar (v `mod` 10)) EmptyString).
Proof.
  intros Hv.
  assert (forallb
            (λ v, String.eqb (padStart2 (toString v))
                    (String (digitChar (v `div` 10))
                       (String (digitChar (v `mod` 10)) EmptyString)))
            (seqZ 0 100) = true) as Hall by (vm_compute; reflexivity).
  rewrite forallb_forall in Hall. apply String.eqb_eq, Hall.
  apply list_elem_of_In, elem_of_seqZ. lia.
Qed.

Lemma digitValue_digitChar (d : Z) :
  0 ≤ d < 10 → digitValue (digitChar d) = d.
Proof.
  intros Hd.
  assert (forallb (λ d, digitValue (digitChar d) =? d) (seqZ 0 10) = true)
    as Hall by (vm_compute; reflexivity).
  rewrite forallb_forall in Hall. apply Z.eqb_eq, Hall.
  apply list_elem_of_In, elem_of_seqZ. lia.
Qed.

Lemma fmtTime_clockText (s : Z) :
  0 ≤ s < 6000 → fmtTime s = clockText s.
Proof.
  intros Hs. unfold fmtTime, clockText, floor_div. cbv zeta.
  rewrite js_mod_nonneg by lia.
  pose proof (Z.mod_pos_bound s 60 ltac:(lia)).
  assert (0 ≤ s `div` 60 < 100) as Hm.
  { split; [apply Z.div_pos; lia | apply Z.div_lt_upper_bound; lia]. }
  rewrite !padStart2_two_digits by lia. simpl.
  rewrite Z.div_div by lia. simpl.
  rewrite (Z.mod_mod_divide s 60 10); [done|]. by exists 6.
Qed.

Lemma readTime_clockText (s : Z) :
  0 ≤ s < 6000 → readTime (clockText s) = Some s.
Proof.
  intros Hs. unfold readTime, clockText.
  pose proof (Z.mod_pos_bound s 60 ltac:(lia)).
  pose proof (Z.mod_pos_bound s 10 ltac:(lia)).
  pose proof (Z.mod_pos_bound (s `div` 60) 10 ltac:(lia)).
  assert (0 ≤ s `div` 600 < 10).
  { split; [apply Z.div_pos; lia | apply Z.div_lt_upper_bound; lia]. }
  assert (0 ≤ (s `mod` 60) `div` 10 < 10).
  { split; [apply Z.div_pos; lia | apply Z.div_lt_upper_bound; lia]. }
  rewrite !digitValue_digitChar by lia. f_equal.
  pose proof (Z.div_mod s 60 ltac:(lia)).
  pose proof (Z.div_mod (s `div` 60) 10 ltac:(lia)).
  pose proof (Z.div_mod (s `mod` 60) 10 ltac:(lia)).
  assert ((s `div` 60) `div` 10 = s `div` 600) by (rewrite Z.div_div by lia; reflexivity).
  assert ((s `mod` 60) `mod` 10 = s `mod` 10).
  { apply Z.mod_mod_divide. by exists 6. }
  lia.
Qed.

(** X19.  For a time below 100 minutes [fmtTime] gives the five
    characters [mm:ss], the two digits of the minutes, a colon and the
    two digits of the seconds; reading the text back gives the time,
    so different times below 100 minutes are shown differently. *)
Theorem fmtTime_under_100_minutes (s : Z) :
  0 ≤ s < 6000 →
  fmtTime s = clockText s
  ∧ String.length (fmtTime s) = 5%nat
  ∧ readTime (fmtTime s) = Some s
  ∧ ∀ s', 0 ≤ s' < 6000 → fmtTime s' = fmtTime s → s' = s.
Proof.
  intros Hs. split_and!.
  - by apply fmtTime_clockText.
  - by rewrite fmtTime_clockText.
  - rewrite fmtTime_clockText by done. by apply readTime_clockText.
  - intros s' Hs' Heq.
    assert (readTime (fmtTime s') = readTime (fmtTime s)) as Hr
      by by rewrite Heq.
    rewrite !fmtTime_clockText, !readTime_clockText in Hr by done.
    by injection Hr.
Qed.

Lemma fmtTime_under_100_minutes_witness :
  fmtTime 754 = clockText 754
  ∧ String.length (fmtTime 754) = 5%nat
  ∧ readTime (fmtTime 754) = Some 754
  ∧ ∀ s', 0 ≤ s' < 6000 → fmtTime s' = fmtTime 754 → s' = 754.
Proof. apply (fmtTime_under_100_minutes 754). lia. Defined.
